(** * Generic SIMD kernels of velox/common/base/SimdUtil-inl.h

    A shallow embedding of the portable (xsimd::generic) kernels and the
    properties stated about them.

    Conventions of the embedding.
    - An [xsimd::batch<T, A>] is the list of its lanes, lane 0 first; the
      length of the list is the compile-time lane count.  A lane is the
      unsigned bit pattern of the element, a [Z].
    - An [xsimd::batch_bool<T, A>] is a list of [bool].
    - C++ integers are [Z]; conversions between widths are written with
      [wrapU] and [wrapS].
    - Memory reached through a raw pointer is a list (of bytes, of words or
      of [int32_t] entries) together with an offset.  An access outside the
      list has no defined behaviour in C++; the embedding returns [None]
      there, so a result [Some _] also says every access was in bounds. *)

From Stdlib Require Import ZArith List Lia Bool Sorted.
From coqutil Require Import Z.bitblast Byte Word.LittleEndianList.
Import ListNotations.
Local Open Scope Z_scope.

(** ** Machine integers *)

(** Conversion to an unsigned integer of [w] bits. *)
Definition wrapU (w z : Z) : Z := z mod 2 ^ w.

(** Conversion to a signed (two's complement) integer of [w] bits. *)
Definition wrapS (w z : Z) : Z := (z + 2 ^ (w - 1)) mod 2 ^ w - 2 ^ (w - 1).

(** Is [z] representable as a signed integer of [w] bits? *)
Definition fitsS (w z : Z) : bool := (- 2 ^ (w - 1) <=? z) && (z <? 2 ^ (w - 1)).

(** [__builtin_popcount] / [__builtin_popcountll] on a bit pattern. *)
Fixpoint popcount_pos (p : positive) : nat :=
  match p with
  | xH => 1
  | xO q => popcount_pos q
  | xI q => S (popcount_pos q)
  end.

Definition popcount (z : Z) : nat :=
  match z with
  | Zpos p => popcount_pos p
  | _ => 0
  end.

(** [__builtin_ctzll]: the index of the lowest set bit.  The builtin is
    undefined at zero; the embedding returns 64 there. *)
Fixpoint ctz_pos (p : positive) : Z :=
  match p with
  | xO q => 1 + ctz_pos q
  | _ => 0
  end.

Definition ctzll (z : Z) : Z :=
  match z with
  | Zpos p => ctz_pos p
  | _ => 64
  end.

(** ** Partial computations *)

Definition bind {A B : Type} (c : option A) (k : A -> option B) : option B :=
  match c with
  | Some a => k a
  | None => None
  end.

Notation "x <- c ;; k" := (bind c (fun x => k))
  (at level 61, c at next level, right associativity).
Notation "' p <- c ;; k" := (bind c (fun p => k))
  (at level 61, p pattern, c at next level, right associativity).

(** Runs [f] on every element, left to right, and collects the results. *)
Fixpoint traverse {A B : Type} (f : A -> option B) (l : list A) : option (list B) :=
  match l with
  | [] => Some []
  | a :: t => b <- f a ;; r <- traverse f t ;; Some (b :: r)
  end.

(** The lane numbers [0 .. n-1] of a batch. *)
Definition lanes (n : nat) : list nat := seq 0 n.

(** Reads entry [i] of an array of [Z]; [None] outside the array. *)
Definition readAt (a : list Z) (i : Z) : option Z :=
  if i <? 0 then None else nth_error a (Z.to_nat i).

(** ** Helpers of velox/common/base/BitUtil.h *)

Module bits.

(** Modelled from the spec: [bits::lowMask], whose definition is not in this
    file; the spec gives [kAllSet = lowMask(N) = 2^N - 1], the mask of the
    [n] low bits, as a 64-bit pattern. *)
Definition lowMask (n : Z) : Z := wrapU 64 (Z.shiftl 1 n - 1).

(** Modelled from the spec: [bits::highMask], whose definition is not in this
    file; the mask of the [n] high bits of a 64-bit word, used to mask off
    the bits below [begin] in the first word of a scan. *)
Definition highMask (n : Z) : Z := wrapU 64 (Z.shiftl (lowMask n) (64 - n)).

(** Modelled from the spec: [bits::roundUp], whose definition is not in this
    file; [value] rounded up to a multiple of [factor], in 32-bit signed
    arithmetic. *)
Definition roundUp (value factor : Z) : Z :=
  wrapS 32 (Z.quot (wrapS 32 (value + (factor - 1))) factor * factor).

(** Modelled from the spec: [bits::isBitSet], whose definition is not in this
    file; it tests bit [idx] of a bitmap, here a bitmap of bytes: bit
    [idx mod 8] of byte [idx / 8]. *)
Definition isBitSet (base : list byte) (idx : Z) : option bool :=
  if idx <? 0 then None
  else b <- nth_error base (Z.to_nat (idx / 8)) ;;
       Some (Z.testbit (byte.unsigned b) (idx mod 8)).

(** Modelled from the spec: [bits::setBit(bits, idx, value)], whose definition
    is not in this file; it sets or clears bit [idx], here of the single byte
    the pointer addresses ([None] when the bit lies outside that byte). *)
Definition setBit (ans : Z) (idx : Z) (value : bool) : option Z :=
  if (0 <=? idx) && (idx <? 8)
  then Some (if value then Z.setbit ans idx else Z.clearbit ans idx)
  else None.

End bits.

(** ** Arrays *)

(** [a[i] = v]; [None] outside the array. *)
Definition writeAt {A : Type} (a : list A) (i : nat) (v : A) : option (list A) :=
  if (i <? length a)%nat then Some (firstn i a ++ v :: skipn (S i) a) else None.

(** A vector load (or a word load) of [n] consecutive entries starting at
    entry [off]. *)
Definition loadLanes {A : Type} (n : nat) (a : list A) (off : nat) : option (list A) :=
  if (off + n <=? length a)%nat then Some (firstn n (skipn off a)) else None.

(** A vector store (or a word store) of the entries [v] at entries
    [off ..]. *)
Definition storeLanes {A : Type} (a : list A) (off : nat) (v : list A) : option (list A) :=
  if (off + length v <=? length a)%nat
  then Some (firstn off a ++ v ++ skipn (off + length v) a)
  else None.

(** The set bits of [m] among the positions below [n], in ascending order. *)
Definition setBitsOf (n : nat) (m : Z) : list nat :=
  filter (fun i : nat => Z.testbit m (Z.of_nat i)) (lanes n).

(** Modelled from the spec: [byteSetBits], the table [int32_t
    byteSetBits[256][8]] that is declared outside this file.  The spec
    describes it as the precomputed byte to set-bit-offsets table: row [b]
    starts with the offsets of the set bits of [b] in ascending order.  The
    rest of a row is filler the kernels never rely on; it is taken to be the
    entry's own position, the pattern the source documents for the sibling
    table [permute4x64Indices] (entry 5 is [{0, 1, 4, 5, 4, 5, 6, 7}]). *)
Definition rowOf (byte : Z) : list nat :=
  let offsets := setBitsOf 8 byte in
  offsets ++ seq (length offsets) (8 - length offsets).

Definition byteSetBits (byte : Z) : list Z := map Z.of_nat (rowOf byte).

(** [byteSetBits[mask]] for an [int mask]: a row of the table, [None] when
    [mask] is not one of its 256 row numbers. *)
Definition byteSetBitsRow (mask : Z) : option (list Z) :=
  if (0 <=? mask) && (mask <? 256) then Some (byteSetBits mask) else None.

(** ** Mask and bitmask conversion (detail::BitMask) *)

(** Bit [i] of the bit pattern [x], tested the way the source does:
    [x & (1 << i)] is not zero. *)
Definition bitAnd (x : Z) (i : Z) : bool := negb (Z.land x (Z.shiftl 1 i) =? 0).

(** The table [kMemo] built by [fromBitMaskImpl]: entry [i] is the mask whose
    lane [bit] is [(i & (1 << bit)) ? true : false]. *)
Definition fromBitMask_kMemo (N : nat) : list (list bool) :=
  map (fun i : nat => map (fun bit : nat => bitAnd (Z.of_nat i) (Z.of_nat bit)) (lanes N))
      (seq 0 (Z.to_nat (Z.shiftl 1 (Z.of_nat N)))).

(** [return kMemo[mask]], for a given table. *)
Definition lookupMask (memo : list (list bool)) (mask : Z) : option (list bool) :=
  if mask <? 0 then None else nth_error memo (Z.to_nat mask).

Definition fromBitMaskImpl (N : nat) (mask : Z) : option (list bool) :=
  lookupMask (fromBitMask_kMemo N) mask.

(** [BitMask::kAllSet = bits::lowMask(size)], an [int]. *)
Definition kAllSet (N : nat) : Z := wrapS 32 (bits.lowMask (Z.of_nat N)).

(** [BitMask::toBitMask]: [int result = 0; result |= 1ull << i] for every
    true lane. *)
Definition toBitMask (N : nat) (mask : list bool) : Z :=
  fold_left
    (fun result i =>
       if nth i mask false
       then wrapS 32 (Z.lor (wrapU 64 result) (wrapU 64 (Z.shiftl 1 (Z.of_nat i))))
       else result)
    (lanes N) 0.

(** [BitMask::fromBitMask], with the table it consults made explicit. *)
Definition fromBitMaskWith (memo : list (list bool)) (N : nat) (mask : Z)
  : option (list bool) :=
  if mask =? kAllSet N then Some (repeat true N) else lookupMask memo mask.

Definition fromBitMask (N : nat) (mask : Z) : option (list bool) :=
  fromBitMaskWith (fromBitMask_kMemo N) N mask.

(** ** leadingMask *)

(** One round of the loop that builds [kMemo]:
    [memo[i] = load(tmp); tmp[i] = true]. *)
Definition leadingMask_round (st : list bool * list (list bool)) (i : nat)
  : list bool * list (list bool) :=
  let (tmp, memo) := st in
  (firstn i tmp ++ true :: skipn (S i) tmp, memo ++ [tmp]).

(** [kMemo] of [leadingMask]: starts from [bool tmp[N]{}]. *)
Definition leadingMask_kMemo (N : nat) : list (list bool) :=
  snd (fold_left leadingMask_round (lanes N) (repeat false N, [])).

(** [leadingMask], with the table it consults made explicit. *)
Definition leadingMaskWith (memo : list (list bool)) (N : nat) (n : Z)
  : option (list bool) :=
  if n >=? Z.of_nat N then Some (repeat true N) else lookupMask memo n.

Definition leadingMask (N : nat) (n : Z) : option (list bool) :=
  leadingMaskWith (leadingMask_kMemo N) N n.

(** ** Permute (detail::genericPermute, detail::Permute) *)

(** [genericPermute(batch data, const int32_t* idx)]:
    [dst[i] = idx[i] < 0 ? 0 : src[idx[i]]] for every lane [i] of [data]. *)
Definition genericPermute (data idx : list Z) : option (list Z) :=
  traverse
    (fun i : nat =>
       k <- nth_error idx i ;;
       if k <? 0 then Some 0 else readAt data k)
    (lanes (length data)).

(** [genericPermute(batch data, batch<int32_t> idx)]: stores [idx] to [pos]
    and calls the pointer variant; [static_assert(data.size >= idx.size)]. *)
Definition genericPermuteBatch (data idx : list Z) : option (list Z) :=
  if (length idx <=? length data)%nat then genericPermute data idx else None.

(** [genericPermute(Batch64<T> data, Batch64<int32_t> idx)]:
    [ans.data[i] = data.data[idx.data[i]]] for every lane [i] of [idx].  In
    [Permute<T, A, 4>], its only user, elements and indices are both 4 bytes
    wide, so [data], [idx] and [ans] have the same lane count and the loop
    writes every lane of [ans]; the embedding is of that instantiation. *)
Definition genericPermuteBatch64 (data idx : list Z) : option (list Z) :=
  if (length idx =? length data)%nat
  then traverse (fun k : Z => readAt data k) idx
  else None.

(** [Permute<T, A, 4>::apply] on full batches. *)
Definition Permute4_apply (data idx : list Z) : option (list Z) :=
  genericPermuteBatch data idx.

(** [Permute<T, A, 4>::apply] on half batches: [HalfBatch] is [Batch64] for a
    16-byte architecture ([isBatch64 = true]) and an [xsimd::batch] of the
    half-width architecture otherwise. *)
Definition Permute4_applyHalf (isBatch64 : bool) (data idx : list Z)
  : option (list Z) :=
  if isBatch64 then genericPermuteBatch64 data idx
  else genericPermuteBatch data idx.

(** ** Filter (detail::Filter) *)

(** One round of the loop of [Filter<T, A, 2>::apply]:
    [if (mask & (1ull << i)) *write_ptr++ = data.data[i]]. *)
Definition Filter2_round (data : list Z) (mask : Z)
  (st : option (list Z * nat)) (i : nat) : option (list Z * nat) :=
  '(result, write_ptr) <- st ;;
  if negb (Z.land (wrapU 64 mask) (wrapU 64 (Z.shiftl 1 (Z.of_nat i))) =? 0)
  then result' <- writeAt result write_ptr (nth i data 0) ;;
       Some (result', S write_ptr)
  else Some (result, write_ptr).

(** [Filter<T, A, 2>::apply]: [result(0)], then the write-pointer walk. *)
Definition Filter2_apply (data : list Z) (mask : Z) : option (list Z) :=
  '(result, _) <-
     fold_left (Filter2_round data mask) (lanes (length data))
       (Some (repeat 0 (length data), 0%nat)) ;;
  Some result.

(** [Filter<T, A, 4>::apply] on a full batch. *)
Definition Filter4_apply (data : list Z) (mask : Z) : option (list Z) :=
  row <- byteSetBitsRow mask ;;
  vindex <- loadLanes (length data) row 0 ;;
  Permute4_apply data vindex.

(** [Filter<T, A, 4>::apply] on a half batch. *)
Definition Filter4_applyHalf (isBatch64 : bool) (data : list Z) (mask : Z)
  : option (list Z) :=
  row <- byteSetBitsRow mask ;;
  vindex <- loadLanes (length data) row 0 ;;
  Permute4_applyHalf isBatch64 data vindex.

(** [Filter<T, A, 8>::apply]. *)
Definition Filter8_apply (data : list Z) (mask : Z) : option (list Z) :=
  row <- byteSetBitsRow mask ;;
  genericPermute data row.

(** ** Masked gather (detail::genericMaskGather) *)

(** [*reinterpret_cast<const T*>(bytes + off)] for a [T] of [sizeofT] bytes
    (little endian). *)
Definition loadElem (sizeofT : nat) (base : list byte) (off : Z) : option Z :=
  if (0 <=? off) && (off + Z.of_nat sizeofT <=? Z.of_nat (length base))
  then Some (le_combine (firstn sizeofT (skipn (Z.to_nat off) base)))
  else None.

(** [index * kScale] in the index type of [idxBits] bits (signed overflow
    is undefined). *)
Definition scaledOffset (idxBits index kScale : Z) : option Z :=
  if fitsS idxBits (index * kScale) then Some (index * kScale) else None.

(** [genericMaskGather<T, A, kScale>(src, mask, base, vindex)]. *)
Definition genericMaskGather (sizeofT : nat) (idxBits kScale : Z)
  (src : list Z) (mask : list bool) (base : list byte) (vindex : list Z)
  : option (list Z) :=
  traverse
    (fun i : nat =>
       if nth i mask false
       then index <- nth_error vindex i ;;
            off <- scaledOffset idxBits index kScale ;;
            loadElem sizeofT base off
       else Some (nth i src 0))
    (lanes (length src)).

(** ** Incremental CRC-32 (detail::Crc32) *)

(** [boost::crc_32_type], the CRC computer of Boost.CRC that [Crc32::apply]
    is written with.  Boost is an external library; this is its documented
    behaviour for [crc_optimal<32, 0x04C11DB7, 0xFFFFFFFF, 0xFFFFFFFF, true,
    true>]: a reflected-input, reflected-output CRC whose remainder register
    is kept bit-reflected, starts from the reflection of the initial
    remainder given to the constructor, and is combined with the final XOR
    value [0xFFFFFFFF] when the checksum is read. *)
Module crc_32_type.

Definition truncated_polynominal : Z := 0x04C11DB7.
Definition final_xor_value : Z := 0xFFFFFFFF.

(** Reverses the order of the low [bits] bits of [x]. *)
Definition reflect (bits : nat) (x : Z) : Z :=
  fold_left
    (fun acc i =>
       if Z.testbit x (Z.of_nat i)
       then Z.lor acc (Z.shiftl 1 (Z.of_nat (bits - 1 - i)))
       else acc)
    (seq 0 bits) 0.

(** One step of the reflected division: shift right, and subtract the
    reflected polynomial when a one falls out. *)
Definition shift_bit (rem : Z) : Z :=
  if Z.odd rem
  then Z.lxor (Z.shiftr rem 1) (reflect 32 truncated_polynominal)
  else Z.shiftr rem 1.

Definition process_byte (rem : Z) (b : byte) : Z :=
  Nat.iter 8 shift_bit (Z.lxor rem (byte.unsigned b)).

(** [crc_32_type result(init_rem)]. *)
Definition init (init_rem : Z) : Z := reflect 32 (wrapU 32 init_rem).

(** [result.process_bytes(buffer, byte_count)]. *)
Definition process_bytes (rem : Z) (buffer : list byte) : Z :=
  fold_left process_byte buffer rem.

(** [result()], the checksum. *)
Definition checksum (rem : Z) : Z := Z.lxor rem final_xor_value.

End crc_32_type.

(** [Crc32<uint64_t, A>::apply(checksum, value)]: a [crc_32_type] started
    from [checksum] processes the 8 bytes of [value] (little endian) and its
    checksum is returned. *)
Definition Crc32_apply (checksum value : Z) : Z :=
  let result := crc_32_type.init checksum in
  let result := crc_32_type.process_bytes result (le_split 8 value) in
  crc_32_type.checksum result.

(** ** Vectorized copy and fill (memcpy, memset) *)

(** [while (cond) { if (!step(...)) { return; } }].  The result is
    [(false, st)] when a step answered false, upon which the caller returns,
    and [(true, st)] when the condition no longer holds.  [fuel] bounds the
    number of rounds. *)
Fixpoint whileWord {St : Type} (fuel : nat) (cond : St -> bool)
  (step : St -> option (bool * St)) (st : St) : option (bool * St) :=
  match fuel with
  | O => None
  | S fuel' =>
      if cond st
      then '(more, st') <- step st ;;
           if more then whileWord fuel' cond step st' else Some (false, st')
      else Some (true, st)
  end.

(** [bytes -= sizeof(T)] for an [int32_t bytes]: the difference is taken in
    [size_t] and converted back. *)
Definition subSize (bytes : Z) (size : nat) : Z :=
  wrapS 32 (wrapU 64 (wrapU 64 bytes - Z.of_nat size)).

(** [bytes >= sizeof(T)], compared in [size_t]. *)
Definition geSize (bytes : Z) (size : nat) : bool :=
  wrapU 64 bytes >=? Z.of_nat size.

(** The variables [to], [from] and [bytes] of [memcpy], with the destination
    memory; [to] and [from] are offsets into the destination and the source
    buffer. *)
Record CopyCursor : Type := mkCopy {
  c_mem : list byte;
  c_to : nat;
  c_from : nat;
  c_bytes : Z
}.

(** [CopyWord<T, A>::apply(to, from)]: a batch of [int8_t] is loaded and
    stored lane by lane, a scalar is loaded and stored as a (little-endian)
    integer. *)
Definition CopyWord_apply (isBatch : bool) (size : nat) (src : list byte)
  (st : CopyCursor) : option (list byte) :=
  w <- loadLanes size src (c_from st) ;;
  storeLanes (c_mem st) (c_to st)
    (if isBatch then w else le_split size (le_combine w)).

(** [copyNextWord<T, A>(to, from, bytes)] with [sizeof(T) = size]. *)
Definition copyNextWord (isBatch : bool) (size : nat) (src : list byte)
  (st : CopyCursor) : option (bool * CopyCursor) :=
  if geSize (c_bytes st) size
  then mem' <- CopyWord_apply isBatch size src st ;;
       let bytes' := subSize (c_bytes st) size in
       if bytes' =? 0
       then Some (false, mkCopy mem' (c_to st) (c_from st) bytes')
       else Some (true, mkCopy mem' (c_to st + size) (c_from st + size) bytes')
  else Some (true, st).

(** [memcpy(to, from, bytes, arch)]; [batchByteSize] is the register size of
    the architecture; the result is the destination memory. *)
Definition memcpy (batchByteSize : nat) (dst src : list byte) (to from : nat)
  (bytes : Z) : option (list byte) :=
  let fuel := S (Z.to_nat bytes) in
  '(more, st) <-
     whileWord fuel (fun st => c_bytes st >=? Z.of_nat batchByteSize)
       (copyNextWord true batchByteSize src) (mkCopy dst to from bytes) ;;
  if negb more then Some (c_mem st) else
  '(more, st) <-
     whileWord fuel (fun st => geSize (c_bytes st) 8)
       (copyNextWord false 8 src) st ;;
  if negb more then Some (c_mem st) else
  '(more, st) <- copyNextWord false 4 src st ;;
  if negb more then Some (c_mem st) else
  '(more, st) <- copyNextWord false 2 src st ;;
  if negb more then Some (c_mem st) else
  '(_, st) <- copyNextWord false 1 src st ;;
  Some (c_mem st).

(** The variables [to] and [bytes] of [memset], with the destination
    memory. *)
Record SetCursor : Type := mkSet {
  s_mem : list byte;
  s_to : nat;
  s_bytes : Z
}.

(** [setNextWord<T>(to, data, bytes, arch)]; [word] is the object
    representation of [data], [sizeof(T)] bytes that [SetWord<T, A>::apply]
    stores at [to]. *)
Definition setNextWord (word : list byte) (st : SetCursor)
  : option (bool * SetCursor) :=
  if geSize (s_bytes st) (length word)
  then mem' <- storeLanes (s_mem st) (s_to st) word ;;
       let bytes' := subSize (s_bytes st) (length word) in
       if bytes' =? 0
       then Some (false, mkSet mem' (s_to st) bytes')
       else Some (true, mkSet mem' (s_to st + length word) bytes')
  else Some (true, st).

(** [memset(to, data, bytes, arch)]: [v] is [data] broadcast to a batch of
    [int8_t], [data64] the first 8 bytes of [v] read as an integer, which the
    narrower calls convert to [int32_t], [int16_t] and [int8_t]. *)
Definition memset (batchByteSize : nat) (dst : list byte) (to : nat)
  (data : byte) (bytes : Z) : option (list byte) :=
  let fuel := S (Z.to_nat bytes) in
  let v := repeat data batchByteSize in
  '(more, st) <-
     whileWord fuel (fun st => s_bytes st >=? Z.of_nat batchByteSize)
       (setNextWord v) (mkSet dst to bytes) ;;
  if negb more then Some (s_mem st) else
  v8 <- loadLanes 8 v 0 ;;
  let data64 := le_combine v8 in
  '(more, st) <-
     whileWord fuel (fun st => geSize (s_bytes st) 8)
       (setNextWord (le_split 8 data64)) st ;;
  if negb more then Some (s_mem st) else
  '(more, st) <- setNextWord (le_split 4 (wrapU 32 data64)) st ;;
  if negb more then Some (s_mem st) else
  '(more, st) <- setNextWord (le_split 2 (wrapU 16 data64)) st ;;
  if negb more then Some (s_mem st) else
  '(_, st) <- setNextWord (le_split 1 (wrapU 8 data64)) st ;;
  Some (s_mem st).

(** ** indicesOfSetBits *)

(** The lane count of [xsimd::batch<int32_t, A>]: 8, or else 4
    ([static_assert(Batch::size == 4)]). *)
Inductive IndexBatch : Type := Batch8 | Batch4.

Definition batchSize (batch : IndexBatch) : nat :=
  match batch with
  | Batch8 => 8
  | Batch4 => 4
  end.

(** The variables [row] and [result] of the scan, with the output memory;
    [pos] is [result - originalResult]. *)
Record ScanState : Type := mkScan {
  row : Z;
  res : list Z;
  pos : nat
}.

(** The bit-at-a-time loop:
    [do { *result++ = __builtin_ctzll(word) + row; word = word & (word - 1); }
     while (word)].
    A word has 64 bits, so 64 rounds of [fuel] are enough. *)
Fixpoint sparseWord (fuel : nat) (word : Z) (st : ScanState) : option ScanState :=
  match fuel with
  | O => None
  | S fuel' =>
      result <- writeAt (res st) (pos st) (ctzll word + row st) ;;
      let word := Z.land word (wrapU 64 (word - 1)) in
      let st := mkScan (row st) result (S (pos st)) in
      if word =? 0 then Some st else sparseWord fuel' word st
  end.

(** [(Batch::load(indices + off) + row).store_unaligned(result)]. *)
Definition storeIndices (lanes : nat) (indices : list Z) (off : nat)
  (st : ScanState) : option (list Z) :=
  v <- loadLanes lanes indices off ;;
  storeLanes (res st) (pos st) (map (fun index => index + row st) v).

(** The body of [if (byte)] in the byte-wise loop. *)
Definition denseByte (batch : IndexBatch) (byte : Z) (st : ScanState)
  : option ScanState :=
  let indices := byteSetBits byte in
  match batch with
  | Batch8 =>
      result <- storeIndices 8 indices 0 st ;;
      Some (mkScan (row st) result (pos st + popcount byte))
  | Batch4 =>
      let lo := Z.land byte (Z.shiftl 1 4 - 1) in
      let hi := Z.shiftr byte 4 in
      '(st, pop) <-
         (if lo =? 0 then Some (st, 0%nat)
          else result <- storeIndices 4 indices 0 st ;;
               Some (mkScan (row st) result (pos st + popcount lo), popcount lo)) ;;
      if hi =? 0 then Some st
      else result <- storeIndices 4 indices pop st ;;
           Some (mkScan (row st) result (pos st + popcount hi))
  end.

(** The byte-wise loop: [for (byteCnt = 0; byteCnt < 8; ++byteCnt)], with
    [byteCnt] rounds left. *)
Fixpoint denseWord (batch : IndexBatch) (byteCnt : nat) (word : Z)
  (st : ScanState) : option ScanState :=
  match byteCnt with
  | O => Some st
  | S byteCnt' =>
      let byte := wrapU 8 word in
      let word := Z.shiftr word 8 in
      st <- (if byte =? 0 then Some st else denseByte batch byte st) ;;
      denseWord batch byteCnt' word (mkScan (row st + 8) (res st) (pos st))
  end.

(** How one round of the loop over the words ends. *)
Inductive WordEnd : Type :=
| Continue (st : ScanState)
| Break (st : ScanState).

Definition nextRow (st : ScanState) : ScanState :=
  mkScan (row st + 64) (res st) (pos st).

(** One round of [for (wordIndex = firstWord; wordIndex < endWord;
    ++wordIndex)]. *)
Definition scanWord (batch : IndexBatch) (bits : list Z)
  (begin end_ endWord firstWord wordIndex : Z) (st : ScanState)
  : option WordEnd :=
  word <- readAt bits wordIndex ;;
  if word =? 0 then Some (Continue (nextRow st)) else
  let inFirst := (wordIndex =? firstWord) && negb (begin =? firstWord * 64) in
  let word :=
    if inFirst
    then Z.land word (bits.highMask (64 - (begin - firstWord * 64)))
    else word in
  if inFirst && (word =? 0) then Some (Continue (nextRow st)) else
  let lastBits := end_ - (endWord - 1) * 64 in
  let inLast := (wordIndex =? endWord - 1) && (lastBits <? 64) in
  let word := if inLast then Z.land word (bits.lowMask lastBits) else word in
  if inLast && (word =? 0) then Some (Break st) else
  if Z.of_nat (pos st) <? Z.shiftr (row st) 2
  then st <- sparseWord 64 word st ;;
       Some (Continue (nextRow st))
  else st <- denseWord batch 8 word st ;;
       Some (Continue st).

(** The loop over the words, with [n] words left. *)
Fixpoint scanWords (batch : IndexBatch) (bits : list Z)
  (begin end_ endWord firstWord : Z) (n : nat) (wordIndex : Z)
  (st : ScanState) : option ScanState :=
  match n with
  | O => Some st
  | S n' =>
      e <- scanWord batch bits begin end_ endWord firstWord wordIndex st ;;
      match e with
      | Continue st =>
          scanWords batch bits begin end_ endWord firstWord n' (wordIndex + 1) st
      | Break st => Some st
      end
  end.

(** [indicesOfSetBits(bits, begin, end, result, arch)]: the output memory
    after the call and the returned count. *)
Definition indicesOfSetBits (batch : IndexBatch) (bits : list Z)
  (begin end_ : Z) (result : list Z) : option (list Z * Z) :=
  if end_ <=? begin then Some (result, 0) else
  let row := Z.land begin (Z.lnot 63) in
  let endWord := Z.quot (bits.roundUp end_ 64) 64 in
  let firstWord := Z.quot begin 64 in
  st <- scanWords batch bits begin end_ endWord firstWord
          (Z.to_nat (endWord - firstWord)) firstWord (mkScan row result 0) ;;
  Some (res st, Z.of_nat (pos st)).
(** ** genericToBitMask *)

(** [genericToBitMask]: [int ans = 0; ans |= tmp[i] << i], the lane being
    promoted to [int] before the shift. *)
Definition genericToBitMask (N : nat) (mask : list bool) : Z :=
  fold_left
    (fun ans i =>
       Z.lor ans (wrapS 32 (Z.shiftl (Z.b2z (nth i mask false)) (Z.of_nat i))))
    (lanes N) 0.

(** ** Gather (detail::genericGather, detail::Gather) *)

(** [genericGather<T, A, kScale>(base, indices)] for [N] lanes of [T].  With
    [kScale == sizeof(T)] lane [i] is [base[indices[i]]], addressed by
    pointer arithmetic on [const T*]; otherwise the whole index batch is
    first multiplied by [kScale] in the index type and lane [i] is read at
    that byte offset. *)
Definition genericGather (sizeofT : nat) (idxBits kScale : Z) (N : nat)
  (base : list byte) (indices : list Z) : option (list Z) :=
  if kScale =? Z.of_nat sizeofT
  then traverse
         (fun i : nat =>
            index <- nth_error indices i ;;
            loadElem sizeofT base (index * Z.of_nat sizeofT))
         (lanes N)
  else scaled <- traverse (fun index => scaledOffset idxBits index kScale) indices ;;
       traverse
         (fun i : nat => off <- nth_error scaled i ;; loadElem sizeofT base off)
         (lanes N).

(** [Gather<T, int32_t, A, 4>]: as many 32-bit indices as lanes.  The index
    pointer is the array [indices] and the entry [at_] it points to. *)
Definition Gather4_loadIndices (N : nat) (indices : list Z) (at_ : nat)
  : option (list Z) :=
  loadLanes N indices at_.


Definition Gather4_maskApply (sizeofT : nat) (kScale : Z)
  (src : list Z) (mask : list bool) (base : list byte)
  (indices : list Z) (at_ : nat) : option (list Z) :=
  vindex <- Gather4_loadIndices (length src) indices at_ ;;
  genericMaskGather sizeofT 32 kScale src mask base vindex.




(** [pack32(x, y)]: [out_data[i] = static_cast<uint32_t>(x.get(i))] stored
    into a [uint16_t], then the same for [y] from entry [x.size] on. *)
Definition pack32 (x y : list Z) : list Z :=
  map (fun v => wrapU 16 (wrapU 32 v)) x ++ map (fun v => wrapU 16 (wrapU 32 v)) y.

(** [gather<kScale>(const int16_t* base, const int32_t* indices, numIndices)]
    for [N = xsimd::batch<int32_t, A>::size]: two masked gathers of 32-bit
    elements, packed to 16 bits.  Modelled from the spec: [maskGather], the
    dispatcher declared outside this file, forwards to
    [Gather<int32_t, int32_t, A>::maskApply]. *)
Definition gather16 (N : nat) (kScale : Z) (base : list byte)
  (indices : list Z) (numIndices : Z) : option (list Z) :=
  mask1 <- leadingMask N numIndices ;;
  first <- Gather4_maskApply 4 kScale (repeat 0 N) mask1 base indices 0 ;;
  second <- (if numIndices >? Z.of_nat N
             then mask2 <- leadingMask N (wrapS 32 (numIndices - Z.of_nat N)) ;;
                  Gather4_maskApply 4 kScale (repeat 0 N) mask2 base indices N
             else Some (repeat 0 N)) ;;
  Some (pack32 first second).

(** ** gather8Bits *)

(** [gather8BitsImpl(bits, vindex, numIndices)]: for
    [i < std::min<int>(vindex.size, numIndices)],
    [bits::setBit(&ans, i, bits::isBitSet(base, indices[i]))] on a
    [uint8_t ans = 0]. *)
Definition gather8BitsImpl (bitmap : list byte) (vindex : list Z) (numIndices : Z)
  : option Z :=
  let n := Z.to_nat (Z.min (Z.of_nat (length vindex)) numIndices) in
  fold_left
    (fun ans i =>
       a <- ans ;;
       index <- nth_error vindex i ;;
       value <- bits.isBitSet bitmap index ;;
       bits.setBit a (Z.of_nat i) value)
    (lanes n) (Some 0).

Definition gather8Bits (bitmap : list byte) (vindex : list Z) (numIndices : Z)
  : option Z :=
  gather8BitsImpl bitmap vindex numIndices.

(** ** GetHalf *)

(** [GetHalf<TargetT, int32_t, A>::apply<kSecond>(data)]: the lanes of one
    half of [data] converted to [TargetT] of [targetBits] bits, through
    [uint32_t] when [TargetT] is unsigned (zero extension) and directly from
    [int32_t] otherwise (sign extension). *)
Definition GetHalf_apply (targetUnsigned : bool) (targetBits : Z) (kSecond : bool)
  (data : list Z) : list Z :=
  let half := (length data / 2)%nat in
  let offset := if kSecond then half else 0%nat in
  map
    (fun i : nat =>
       let v := nth (offset + i) data 0 in
       if targetUnsigned
       then wrapU targetBits (wrapU 32 v)
       else wrapU targetBits (wrapS 32 v))
    (lanes half).

(** ** iota *)

(** [iota<T, A>()]: [std::iota(tmp, tmp + N, 0)] on elements of [bitsT]
    bits. *)
Definition iota (bitsT : Z) (N : nat) : list Z :=
  map (fun i : nat => wrapU bitsT (Z.of_nat i)) (lanes N).


(** ** Reference notions used to state the properties *)

(** The mask pattern an integer stands for: lane [i] is bit [i]. *)
Definition maskOf (N : nat) (m : Z) : list bool :=
  map (fun bit : nat => Z.testbit m (Z.of_nat bit)) (lanes N).

(** The mask with [k] leading true lanes out of [N]. *)
Definition prefixMask (N k : nat) : list bool := repeat true k ++ repeat false (N - k).

(** The lanes of [data] whose bit is set in [mask], in ascending lane
    order. *)
Definition selectedLanes (data : list Z) (mask : Z) : list Z :=
  map (fun i : nat => nth i data 0) (setBitsOf (length data) mask).

(** The specializations of [detail::Filter], selected by the element width
    and by the kind of batch. *)
Inductive FilterVariant : Type :=
| Filter2
| Filter4
| Filter4Half (isBatch64 : bool)
| Filter8.

Module simd.

(** [simd::filter]: dispatches to the specialization of [detail::Filter]. *)
Definition filter (v : FilterVariant) (data : list Z) (mask : Z) : option (list Z) :=
  match v with
  | Filter2 => Filter2_apply data mask
  | Filter4 => Filter4_apply data mask
  | Filter4Half isBatch64 => Filter4_applyHalf isBatch64 data mask
  | Filter8 => Filter8_apply data mask
  end.

End simd.

(** The widest batch a variant is used with: 32 lanes of 2-byte elements in
    a 64-byte register; the rows of [byteSetBits] serve up to 8 lanes. *)
Definition maxLanes (v : FilterVariant) : nat :=
  match v with
  | Filter2 => 32
  | _ => 8
  end.




(** The bytes of an array of elements of [sizeofT] bytes. *)
Definition bytesOf (sizeofT : nat) (elems : list Z) : list byte :=
  flat_map (le_split sizeofT) elems.

(** Folding a stream of 8-byte values into the accumulator with [crc32],
    each returned checksum being the accumulator of the next call. *)
Definition crc32_chain (seed : Z) (values : list Z) : Z :=
  fold_left Crc32_apply values seed.

(** The whole-buffer CRC-32 of the same algorithm: one computer started from
    [seed] processes all the bytes in order, and its checksum is read once. *)
Definition crc32_over_whole_buffer (seed : Z) (buffer : list byte) : Z :=
  crc_32_type.checksum (crc_32_type.process_bytes (crc_32_type.init seed) buffer).

(** The naive copy: [n] times [to[i] = from[i]], one byte after the other. *)
Fixpoint naiveCopy (dst src : list byte) (to from : nat) (n : nat) : option (list byte) :=
  match n with
  | O => Some dst
  | S n' =>
      b <- nth_error src from ;;
      dst' <- writeAt dst to b ;;
      naiveCopy dst' src (S to) (S from) n'
  end.

(** The naive fill: [n] times [to[i] = data], one byte after the other. *)
Fixpoint naiveFill (dst : list byte) (to : nat) (data : byte) (n : nat) : option (list byte) :=
  match n with
  | O => Some dst
  | S n' =>
      dst' <- writeAt dst to data ;;
      naiveFill dst' (S to) data n'
  end.

(** [dst] with the entries [payload] written at offset [to]. *)
Definition spliced {A : Type} (dst : list A) (to : nat) (payload : list A) : list A :=
  firstn to dst ++ payload ++ skipn (to + length payload) dst.

(** Bit [k] of a bitmap: bit [k mod 64] of word [k / 64]. *)
Definition bitAt (bits : list Z) (k : Z) : bool :=
  Z.testbit (nth (Z.to_nat (k / 64)) bits 0) (k mod 64).

(** The integers of [[lo, hi)] in increasing order. *)
Definition zrange (lo hi : Z) : list Z :=
  map (fun i : nat => lo + Z.of_nat i) (seq 0 (Z.to_nat (hi - lo))).

(** The positions of the set bits of a bitmap in [[begin, end)], in
    increasing order. *)
Definition setBitPositions (bits : list Z) (begin end_ : Z) : list Z :=
  filter (bitAt bits) (zrange begin end_).

(** Every word of the bitmap is a [uint64_t]. *)
Definition wordsOk (bits : list Z) : bool :=
  forallb (fun w => (0 <=? w) && (w <? 2 ^ 64)) bits.

(** The positions of the set bits among the [n] low bits of the word [w]
    that starts at position [r], in increasing order. *)
Definition bitPositions (n : nat) (r w : Z) : list Z :=
  map (fun i : nat => r + Z.of_nat i) (setBitsOf n w).

(** What a stretch of the scan does to the output: starting with the write
    pointer at [pos] it appends [out] and leaves the pointer at [pos'];
    beyond the entries it returns it touches at most [slack] more. *)
Definition Emits (slack : nat) (res : list Z) (pos : nat)
  (res' : list Z) (pos' : nat) (out : list Z) : Prop :=
  pos' = (pos + length out)%nat /\
  length res' = length res /\
  firstn pos' res' = firstn pos res ++ out /\
  skipn (pos' + slack) res' = skipn (pos' + slack) res.

(** Equality test on lists of integers. *)
Fixpoint eqbList (a b : list Z) : bool :=
  match a, b with
  | [], [] => true
  | x :: a', y :: b' => (x =? y) && eqbList a' b'
  | _, _ => false
  end.

(** What the byte-wise strategy needs of row [b] of [byteSetBits]: 8 entries
    that start with the offsets of the set bits of [b]; and, for batches of 4
    lanes, the set bits of the low nibble among the first 4 entries and those
    of the high nibble among the 4 entries that follow them. *)
Definition byteRowOk (b : nat) : bool :=
  let byte := Z.of_nat b in
  let indices := byteSetBits byte in
  let offsets := map Z.of_nat (setBitsOf 8 byte) in
  let lo := Z.land byte (Z.shiftl 1 4 - 1) in
  let hi := Z.shiftr byte 4 in
  (length indices =? 8)%nat
  && (popcount byte =? length offsets)%nat
  && eqbList (firstn (popcount byte) indices) offsets
  && (popcount lo + popcount hi =? popcount byte)%nat
  && (popcount lo <=? 4)%nat && (popcount hi <=? 4)%nat
  && eqbList (firstn (popcount lo) (firstn 4 indices)
              ++ firstn (popcount hi) (firstn 4 (skipn (popcount lo) indices)))
             offsets.

(** The word the scan extracts from at word [wordIndex]: the bitmap word
    [word] with the bits below [begin] masked off in the first word and the
    bits from [end_] on masked off in the last word. *)
Definition effectiveWord (begin end_ endWord firstWord wordIndex word : Z) : Z :=
  let inFirst := (wordIndex =? firstWord) && negb (begin =? firstWord * 64) in
  let word :=
    if inFirst
    then Z.land word (bits.highMask (64 - (begin - firstWord * 64)))
    else word in
  let lastBits := end_ - (endWord - 1) * 64 in
  let inLast := (wordIndex =? endWord - 1) && (lastBits <? 64) in
  if inLast then Z.land word (bits.lowMask lastBits) else word.

(** The extraction of the set bits of a nonzero word, by either strategy. *)
Definition extractWord (batch : IndexBatch) (word : Z) (st : ScanState)
  : option WordEnd :=
  if Z.of_nat (pos st) <? Z.shiftr (row st) 2
  then st <- sparseWord 64 word st ;;
       Some (Continue (nextRow st))
  else st <- denseWord batch 8 word st ;;
       Some (Continue st).

(** ** Notions used to follow memcpy and memset word by word *)

(** The destination after [done] bytes: the payload written so far, the
    initial memory [dst0] from there on. *)
Definition partialWrite (dst0 : list byte) (to0 : nat) (payload : list byte)
  (done : nat) : list byte :=
  firstn (to0 + done) (spliced dst0 to0 payload) ++ skipn (to0 + done) dst0.

(** What a step of width [size] has to do on a cursor that stands after
    [done] of the [n0] bytes ([At st done]): nothing when fewer than [size]
    bytes are left; otherwise write the next [size] bytes, answer false
    exactly when no byte is left, and advance otherwise. *)
Definition StepOk {St : Type} (memOf : St -> list byte) (dst0 : list byte)
  (to0 n0 : nat) (payload : list byte) (At : St -> nat -> Prop)
  (size : nat) (step : St -> option (bool * St)) : Prop :=
  forall st done, At st done ->
    if (n0 - done <? size)%nat
    then step st = Some (true, st)
    else exists st',
        step st = Some (negb (n0 - done =? size)%nat, st') /\
        memOf st' = partialWrite dst0 to0 payload (done + size)%nat /\
        ((n0 - done)%nat <> size -> At st' (done + size)%nat).

(** A loop condition that tests whether [size] bytes are left. *)
Definition CondOk {St : Type} (n0 : nat) (At : St -> nat -> Prop)
  (size : nat) (cond : St -> bool) : Prop :=
  forall st done, At st done -> cond st = negb (n0 - done <? size)%nat.

(** The cursor of [memcpy] after [done] of [n] bytes. *)
Definition copyCursorAt (payload dst : list byte) (to from n : nat)
  (st : CopyCursor) (done : nat) : Prop :=
  c_mem st = partialWrite dst to payload done /\
  c_to st = (to + done)%nat /\
  c_from st = (from + done)%nat /\
  c_bytes st = Z.of_nat (n - done) /\
  (done <= n)%nat.

(** The cursor of [memset] after [done] of [n] bytes. *)
Definition setCursorAt (payload dst : list byte) (to n : nat)
  (st : SetCursor) (done : nat) : Prop :=
  s_mem st = partialWrite dst to payload done /\
  s_to st = (to + done)%nat /\
  s_bytes st = Z.of_nat (n - done) /\
  (done <= n)%nat.
(** ** Further reference notions *)

(** The integer whose bit [i] is lane [i] of a mask. *)
Definition maskBits (mask : list bool) : Z :=
  fold_right (fun (b : bool) acc => Z.b2z b + 2 * acc) 0 mask.

(** The lanes of [data] whose lane of [mask] is true, in lane order. *)
Definition lanesWhere (data : list Z) (mask : list bool) : list Z :=
  map fst (filter snd (combine data mask)).


(** Bit [idx] of a bitmap of bytes. *)
Definition bitmapBit (bitmap : list byte) (idx : Z) : bool :=
  Z.testbit (byte.unsigned (nth (Z.to_nat (idx / 8)) bitmap Byte.x00)) (idx mod 8).


(** * Properties *)

(** ** Machine integers and bits *)

Lemma wrapU_small (w z : Z) : 0 <= z < 2 ^ w -> wrapU w z = z.
Proof. intros H. unfold wrapU. apply Z.mod_small; lia. Qed.

Lemma wrapS_small (w z : Z) :
  0 < w -> - 2 ^ (w - 1) <= z < 2 ^ (w - 1) -> wrapS w z = z.
Proof.
  intros Hw H. unfold wrapS.
  assert (E : 2 ^ w = 2 * 2 ^ (w - 1)).
  { replace w with (Z.succ (w - 1)) at 1 by lia. apply Z.pow_succ_r. lia. }
  rewrite Z.mod_small; lia.
Qed.

Lemma bitAnd_testbit (x i : Z) : 0 <= i -> bitAnd x i = Z.testbit x i.
Proof.
  intros Hi. unfold bitAnd. rewrite Z.shiftl_1_l.
  destruct (Z.testbit x i) eqn:E; simpl.
  - apply negb_true_iff, Z.eqb_neq. intros H.
    assert (F : Z.testbit (Z.land x (2 ^ i)) i = false) by (rewrite H; apply Z.bits_0).
    rewrite Z.land_spec, E, Z.pow2_bits_true in F by lia. discriminate.
  - apply negb_false_iff, Z.eqb_eq. apply Z.bits_inj'. intros n Hn.
    rewrite Z.land_spec, Z.bits_0, Z.pow2_bits_eqb by lia.
    destruct (Z.eqb_spec i n); subst; rewrite ?E, ?andb_false_r; auto.
Qed.

Lemma pow2_le_mono (a b : Z) : 0 <= a <= b -> 2 ^ a <= 2 ^ b.
Proof. intros H. apply Z.pow_le_mono_r; lia. Qed.

Lemma lowMask_eq (n : Z) : 0 <= n <= 64 -> bits.lowMask n = 2 ^ n - 1.
Proof.
  intros H. unfold bits.lowMask. rewrite Z.shiftl_1_l. apply wrapU_small.
  pose proof (pow2_le_mono n 64 ltac:(lia)).
  assert (0 < 2 ^ n) by (apply Z.pow_pos_nonneg; lia). lia.
Qed.

(** Adding bit [k] to the low [k] bits of [m] gives its low [k+1] bits. *)
Lemma mod_pow2_succ_set (m k : Z) :
  0 <= k -> Z.testbit m k = true ->
  Z.lor (m mod 2 ^ k) (2 ^ k) = m mod 2 ^ (k + 1).
Proof.
  intros Hk Hb. apply Z.bits_inj'. intros i Hi.
  rewrite Z.lor_spec, !Z.testbit_mod_pow2, Z.pow2_bits_eqb by lia.
  destruct (Z.eqb_spec k i) as [->|Hne].
  - rewrite Hb. replace (i <? i + 1) with true by (symmetry; apply Z.ltb_lt; lia).
    now rewrite orb_true_r.
  - rewrite orb_false_r. f_equal.
    destruct (Z.ltb_spec i k), (Z.ltb_spec i (k + 1)); auto; lia.
Qed.

Lemma mod_pow2_succ_clear (m k : Z) :
  0 <= k -> Z.testbit m k = false -> m mod 2 ^ k = m mod 2 ^ (k + 1).
Proof.
  intros Hk Hb. apply Z.bits_inj'. intros i Hi.
  rewrite !Z.testbit_mod_pow2 by lia.
  destruct (Z.eqb_spec k i) as [->|Hne].
  - rewrite Hb, !andb_false_r. reflexivity.
  - f_equal. destruct (Z.ltb_spec i k), (Z.ltb_spec i (k + 1)); auto; lia.
Qed.

Lemma mod_pow2_range (m k : Z) : 0 <= k -> 0 <= m mod 2 ^ k < 2 ^ k.
Proof. intros Hk. apply Z.mod_pos_bound. apply Z.pow_pos_nonneg; lia. Qed.

(** ** Lists as arrays *)

Lemma lanes_S (n : nat) : lanes (S n) = lanes n ++ [n].
Proof. unfold lanes. rewrite seq_S. reflexivity. Qed.

Lemma nth_error_map_seq {A : Type} (f : nat -> A) (n i : nat) :
  (i < n)%nat -> nth_error (map f (seq 0 n)) i = Some (f i).
Proof.
  intros H. rewrite nth_error_map, nth_error_seq.
  destruct (Nat.ltb_spec i n); [reflexivity | lia].
Qed.

Lemma nth_map_lanes {A : Type} (f : nat -> A) (d : A) (n i : nat) :
  (i < n)%nat -> nth i (map f (lanes n)) d = f i.
Proof.
  intros H. apply nth_error_nth. apply nth_error_map_seq. exact H.
Qed.

(** ** Mask and bitmask conversion *)

Section BitMaskFacts.

Variable N : nat.
Hypothesis N_small : (N <= 8)%nat.

Lemma kAllSet_eq : kAllSet N = 2 ^ Z.of_nat N - 1.
Proof.
  unfold kAllSet. rewrite lowMask_eq by lia.
  pose proof (pow2_le_mono (Z.of_nat N) 8 ltac:(lia)).
  assert (0 < 2 ^ Z.of_nat N) by (apply Z.pow_pos_nonneg; lia).
  apply wrapS_small; [lia|]. change (2 ^ (32 - 1)) with 2147483648.
  change (2 ^ 8) with 256 in *. lia.
Qed.

Lemma fromBitMaskImpl_maskOf (m : Z) :
  0 <= m < 2 ^ Z.of_nat N -> fromBitMaskImpl N m = Some (maskOf N m).
Proof.
  intros Hm. unfold fromBitMaskImpl, lookupMask, fromBitMask_kMemo.
  destruct (Z.ltb_spec m 0); [lia|].
  rewrite nth_error_map_seq.
  - f_equal. unfold maskOf. apply map_ext. intros bit.
    rewrite Z2Nat.id by lia. apply bitAnd_testbit. lia.
  - rewrite Z.shiftl_1_l. apply Nat2Z.inj_lt. rewrite !Z2Nat.id; lia.
Qed.

Lemma maskOf_allSet : maskOf N (2 ^ Z.of_nat N - 1) = repeat true N.
Proof.
  assert (H : forall len start, (start + len <= N)%nat ->
    map (fun bit : nat => Z.testbit (2 ^ Z.of_nat N - 1) (Z.of_nat bit)) (seq start len)
    = repeat true len).
  { induction len; intros start Hs; simpl; [reflexivity|].
    rewrite IHlen by lia. f_equal.
    replace (2 ^ Z.of_nat N - 1) with (Z.ones (Z.of_nat N))
      by (rewrite Z.ones_equiv; lia).
    apply Z.ones_spec_low. lia. }
  apply H. lia.
Qed.

(** The loop of [toBitMask] after [k] lanes holds the low [k] bits. *)
Lemma toBitMask_prefix (m : Z) (k : nat) :
  (k <= N)%nat ->
  fold_left
    (fun result i =>
       if nth i (maskOf N m) false
       then wrapS 32 (Z.lor (wrapU 64 result) (wrapU 64 (Z.shiftl 1 (Z.of_nat i))))
       else result)
    (lanes k) 0 = m mod 2 ^ Z.of_nat k.
Proof.
  induction k as [|k IH]; intros Hk.
  - simpl. now rewrite Z.mod_1_r.
  - rewrite lanes_S, fold_left_app, IH by lia. cbn [fold_left].
    unfold maskOf. rewrite nth_map_lanes by lia.
    rewrite Nat2Z.inj_succ, <- Z.add_1_r.
    destruct (Z.testbit m (Z.of_nat k)) eqn:E.
    + pose proof (mod_pow2_range m (Z.of_nat k) ltac:(lia)) as R.
      pose proof (mod_pow2_range m (Z.of_nat k + 1) ltac:(lia)) as R'.
      pose proof (pow2_le_mono (Z.of_nat k) 8 ltac:(lia)) as P.
      pose proof (pow2_le_mono (Z.of_nat k + 1) 8 ltac:(lia)) as P'.
      change (2 ^ 8) with 256 in *.
      assert (0 < 2 ^ Z.of_nat k) by (apply Z.pow_pos_nonneg; lia).
      rewrite Z.shiftl_1_l.
      rewrite !wrapU_small by (change (2 ^ 64) with 18446744073709551616; lia).
      rewrite mod_pow2_succ_set by (lia || assumption).
      apply wrapS_small; [lia|]. change (2 ^ (32 - 1)) with 2147483648. lia.
    + apply mod_pow2_succ_clear; [lia | exact E].
Qed.

Lemma toBitMask_maskOf (m : Z) :
  0 <= m < 2 ^ Z.of_nat N -> toBitMask N (maskOf N m) = m.
Proof.
  intros Hm. unfold toBitMask. rewrite toBitMask_prefix by lia.
  apply Z.mod_small. exact Hm.
Qed.

Lemma fromBitMask_maskOf (m : Z) :
  0 <= m < 2 ^ Z.of_nat N -> fromBitMask N m = Some (maskOf N m).
Proof.
  intros Hm. unfold fromBitMask, fromBitMaskWith.
  destruct (Z.eqb_spec m (kAllSet N)) as [E|E].
  - rewrite E, kAllSet_eq, maskOf_allSet. reflexivity.
  - apply fromBitMaskImpl_maskOf. exact Hm.
Qed.

End BitMaskFacts.

(** C7.  For a lane count [N <= 8] and a bitmask [m] in [[0, 2^N)],
    [toBitMask (fromBitMask m) = m]: [fromBitMask] returns a mask and
    [toBitMask] maps it back to [m].  Moreover [fromBitMask] answers
    [m = kAllSet = 2^N - 1] with the all-true mask whatever table it is given
    (the direct path), and every other [m] with entry [m] of the precomputed
    table. *)
Theorem toBitMask_fromBitMask_roundtrip (N : nat) (m : Z) :
  (N <= 8)%nat -> 0 <= m < 2 ^ Z.of_nat N ->
  (exists mask, fromBitMask N m = Some mask /\ toBitMask N mask = m) /\
  kAllSet N = 2 ^ Z.of_nat N - 1 /\
  (m = kAllSet N -> forall memo, fromBitMaskWith memo N m = Some (repeat true N)) /\
  (m <> kAllSet N ->
   fromBitMask N m = nth_error (fromBitMask_kMemo N) (Z.to_nat m)).
Proof.
  intros HN Hm. repeat split.
  - exists (maskOf N m). split.
    + apply fromBitMask_maskOf; assumption.
    + apply toBitMask_maskOf; assumption.
  - apply kAllSet_eq. exact HN.
  - intros E memo. unfold fromBitMaskWith. rewrite E, Z.eqb_refl. reflexivity.
  - intros E. unfold fromBitMask, fromBitMaskWith, lookupMask.
    destruct (Z.eqb_spec m (kAllSet N)); [contradiction|].
    destruct (Z.ltb_spec m 0); [lia | reflexivity].
Qed.

Lemma toBitMask_fromBitMask_roundtrip_witness :
  (exists mask, fromBitMask 8 177 = Some mask /\ toBitMask 8 mask = 177) /\
  (exists mask, fromBitMask 4 15 = Some mask /\ toBitMask 4 mask = 15).
Proof.
  split.
  - apply (toBitMask_fromBitMask_roundtrip 8 177); [lia | vm_compute; split; [discriminate | reflexivity]].
  - apply (toBitMask_fromBitMask_roundtrip 4 15); [lia | vm_compute; split; [discriminate | reflexivity]].
Defined.

(** ** leadingMask *)

Lemma prefixMask_length (N k : nat) : (k <= N)%nat -> length (prefixMask N k) = N.
Proof. intros H. unfold prefixMask. rewrite length_app, !repeat_length. lia. Qed.

Lemma prefixMask_count (N k : nat) :
  count_occ bool_dec (prefixMask N k) true = k.
Proof.
  unfold prefixMask. rewrite count_occ_app.
  assert (T : forall n, count_occ bool_dec (repeat true n) true = n).
  { induction n; simpl; [reflexivity|]. rewrite IHn. reflexivity. }
  assert (F : forall n, count_occ bool_dec (repeat false n) true = 0%nat).
  { induction n; simpl; [reflexivity|]. exact IHn. }
  rewrite T, F. lia.
Qed.

Lemma prefixMask_nth (N k i : nat) :
  (k <= N)%nat -> (i < N)%nat -> nth i (prefixMask N k) false = (i <? k)%nat.
Proof.
  intros Hk Hi. unfold prefixMask.
  destruct (Nat.ltb_spec i k).
  - rewrite app_nth1 by (rewrite repeat_length; lia). apply nth_repeat_lt. lia.
  - rewrite app_nth2 by (rewrite repeat_length; lia).
    rewrite repeat_length. apply nth_repeat_lt. lia.
Qed.

Lemma prefixMask_set (N k : nat) :
  (k < N)%nat ->
  firstn k (prefixMask N k) ++ true :: skipn (S k) (prefixMask N k) = prefixMask N (S k).
Proof.
  intros H. unfold prefixMask.
  rewrite firstn_app, firstn_all2 by (rewrite repeat_length; lia).
  rewrite repeat_length, Nat.sub_diag, firstn_O, app_nil_r.
  rewrite skipn_app, skipn_all2 by (rewrite repeat_length; lia).
  rewrite repeat_length. replace (S k - k)%nat with 1%nat by lia.
  replace (N - k)%nat with (S (N - S k)) by lia. cbn [repeat skipn app].
  change (true :: repeat false (N - S k)) with ([true] ++ repeat false (N - S k)).
  rewrite app_assoc. f_equal. rewrite <- repeat_cons. reflexivity.
Qed.

(** State of the table-building loop after [k] rounds. *)
Lemma leadingMask_rounds (N k : nat) :
  (k <= N)%nat ->
  fold_left leadingMask_round (lanes k) (repeat false N, []) =
  (prefixMask N k, map (prefixMask N) (lanes k)).
Proof.
  induction k as [|k IH]; intros Hk.
  - cbn. unfold prefixMask. now rewrite Nat.sub_0_r.
  - rewrite lanes_S, fold_left_app, IH by lia. cbn [fold_left leadingMask_round].
    rewrite prefixMask_set by lia. rewrite map_app. reflexivity.
Qed.

Lemma leadingMask_kMemo_eq (N : nat) :
  leadingMask_kMemo N = map (prefixMask N) (lanes N).
Proof. unfold leadingMask_kMemo. now rewrite leadingMask_rounds. Qed.

(** C8.  For [n >= 0], [leadingMask n] returns the mask whose
    [min n N] lowest lanes are true and whose other lanes are false, so it has
    exactly [min n N] true lanes; for [n >= N] the all-true mask is returned
    whatever the table holds (no table lookup). *)
Theorem leadingMask_prefix (N : nat) (n : Z) :
  0 <= n ->
  let k := Nat.min (Z.to_nat n) N in
  leadingMask N n = Some (prefixMask N k) /\
  length (prefixMask N k) = N /\
  count_occ bool_dec (prefixMask N k) true = k /\
  (forall i, (i < N)%nat -> nth i (prefixMask N k) false = (i <? k)%nat) /\
  (n >= Z.of_nat N -> forall memo, leadingMaskWith memo N n = Some (repeat true N)).
Proof.
  intros Hn k. assert (Hk : (k <= N)%nat) by (unfold k; lia).
  split; [|split; [|split; [|split]]].
  - unfold leadingMask, leadingMaskWith, lookupMask.
    destruct (Z.geb_spec n (Z.of_nat N)) as [Hge|Hlt].
    + f_equal. replace k with N by (unfold k; lia).
      unfold prefixMask. now rewrite Nat.sub_diag, app_nil_r.
    + destruct (Z.ltb_spec n 0); [lia|].
      rewrite leadingMask_kMemo_eq. unfold lanes. rewrite nth_error_map_seq by lia.
      f_equal. f_equal. unfold k. lia.
  - apply prefixMask_length. exact Hk.
  - apply prefixMask_count.
  - intros i Hi. apply prefixMask_nth; assumption.
  - intros Hge memo. unfold leadingMaskWith.
    destruct (Z.geb_spec n (Z.of_nat N)); [reflexivity | lia].
Qed.

Lemma leadingMask_prefix_witness :
  leadingMask 4 3 = Some [true; true; true; false] /\
  leadingMask 4 9 = Some [true; true; true; true].
Proof.
  split.
  - exact (proj1 (leadingMask_prefix 4 3 ltac:(lia))).
  - exact (proj1 (leadingMask_prefix 4 9 ltac:(lia))).
Defined.

(** ** Set bits and popcount *)

Lemma traverse_map {A B : Type} (f : A -> option B) (g : A -> B) (l : list A) :
  (forall x, In x l -> f x = Some (g x)) -> traverse f l = Some (map g l).
Proof.
  induction l as [|a t IH]; intros H; cbn [traverse map]; [reflexivity|].
  rewrite (H a) by (left; reflexivity). cbn [bind].
  rewrite IH by (intros x Hx; apply H; right; exact Hx). reflexivity.
Qed.

Lemma filter_map_comm {A B : Type} (p : B -> bool) (g : A -> B) (l : list A) :
  filter p (map g l) = map g (filter (fun x => p (g x)) l).
Proof.
  induction l as [|a t IH]; cbn [map filter]; [reflexivity|].
  destruct (p (g a)); cbn [map]; now rewrite IH.
Qed.

Lemma setBitsOf_S (n : nat) (m : Z) :
  setBitsOf (S n) m =
  setBitsOf n m ++ (if Z.testbit m (Z.of_nat n) then [n] else []).
Proof.
  unfold setBitsOf. rewrite lanes_S, filter_app. cbn [filter].
  destruct (Z.testbit m (Z.of_nat n)); reflexivity.
Qed.

Lemma setBitsOf_head (n : nat) (m : Z) :
  setBitsOf (S n) m =
  (if Z.odd m then [0%nat] else []) ++ map S (setBitsOf n (Z.div2 m)).
Proof.
  unfold setBitsOf, lanes. cbn [seq filter].
  rewrite <- seq_shift, filter_map_comm.
  change (Z.of_nat 0) with 0. rewrite Z.bit0_odd.
  assert (E : filter (fun x : nat => Z.testbit m (Z.of_nat (S x))) (seq 0 n) =
              filter (fun i : nat => Z.testbit (Z.div2 m) (Z.of_nat i)) (seq 0 n)).
  { apply filter_ext. intros i. rewrite Z.div2_spec, Z.shiftr_spec by lia.
    f_equal. lia. }
  rewrite E. destruct (Z.odd m); reflexivity.
Qed.

Lemma setBitsOf_In (n : nat) (m : Z) (i : nat) :
  In i (setBitsOf n m) <-> (i < n)%nat /\ Z.testbit m (Z.of_nat i) = true.
Proof.
  unfold setBitsOf, lanes. rewrite filter_In, in_seq. intuition lia.
Qed.

Lemma setBitsOf_length_le (n : nat) (m : Z) : (length (setBitsOf n m) <= n)%nat.
Proof.
  unfold setBitsOf, lanes.
  etransitivity; [apply filter_length_le|]. now rewrite length_seq.
Qed.

Lemma popcount_div2 (m : Z) :
  0 <= m -> popcount m = ((if Z.odd m then 1 else 0) + popcount (Z.div2 m))%nat.
Proof. intros H. destruct m as [|[p|p|]|p]; try reflexivity. lia. Qed.

Lemma div2_bound (m : Z) (n : nat) :
  0 <= m < 2 ^ Z.of_nat (S n) -> 0 <= Z.div2 m < 2 ^ Z.of_nat n.
Proof.
  intros H. rewrite Nat2Z.inj_succ, Z.pow_succ_r in H by lia.
  rewrite Z.div2_div. split.
  - apply Z.div_pos; lia.
  - apply Z.div_lt_upper_bound; lia.
Qed.

(** For a pattern with bits only below [n], [popcount] counts the set bits
    below [n]. *)
Lemma popcount_setBitsOf (n : nat) (m : Z) :
  0 <= m < 2 ^ Z.of_nat n -> popcount m = length (setBitsOf n m).
Proof.
  revert m. induction n as [|n IH]; intros m Hm.
  - change (2 ^ Z.of_nat 0) with 1 in Hm. replace m with 0 by lia. reflexivity.
  - rewrite setBitsOf_head, length_app, length_map, <- IH by (apply div2_bound; exact Hm).
    rewrite popcount_div2 by lia. destruct (Z.odd m); reflexivity.
Qed.

Lemma setBitsOf_length_popcount (n : nat) (m : Z) :
  0 <= m -> (length (setBitsOf n m) <= popcount m)%nat.
Proof.
  revert m. induction n as [|n IH]; intros m Hm.
  - cbn. lia.
  - rewrite setBitsOf_head, length_app, length_map, popcount_div2 by lia.
    assert (0 <= Z.div2 m) by (rewrite Z.div2_div; apply Z.div_pos; lia).
    specialize (IH (Z.div2 m) ltac:(lia)).
    destruct (Z.odd m); cbn [length]; lia.
Qed.

(** Positions at or above [n] hold no set bit of a pattern below [2^n]. *)
Lemma setBitsOf_high (n n' : nat) (m : Z) :
  0 <= m < 2 ^ Z.of_nat n -> (n <= n')%nat -> setBitsOf n' m = setBitsOf n m.
Proof.
  intros Hm Hle. induction Hle as [|k Hle IH]; [reflexivity|].
  rewrite setBitsOf_S, IH.
  replace (Z.testbit m (Z.of_nat k)) with false; [apply app_nil_r|].
  symmetry. destruct (Z.eq_dec m 0) as [->|Hne]; [apply Z.bits_0|].
  apply Z.bits_above_log2; [lia|].
  apply Z.log2_lt_pow2; [lia|].
  pose proof (pow2_le_mono (Z.of_nat n) (Z.of_nat k) ltac:(lia)). lia.
Qed.

(** The set bits of an [int] below position 32 are those of its 32-bit
    pattern. *)
Lemma setBitsOf_wrapU32 (n : nat) (mask : Z) :
  (n <= 32)%nat -> setBitsOf n (wrapU 32 mask) = setBitsOf n mask.
Proof.
  intros Hn. unfold setBitsOf. apply filter_ext_in. intros i Hi.
  apply in_seq in Hi. unfold wrapU. apply Z.mod_pow2_bits_low. lia.
Qed.

(** ** The table byteSetBits *)

Lemma map_nth_lanes {A : Type} (l : list A) (d : A) :
  map (fun i : nat => nth i l d) (lanes (length l)) = l.
Proof.
  unfold lanes. induction l as [|a t IH]; [reflexivity|].
  cbn [length seq map nth]. rewrite <- seq_shift, map_map. now rewrite IH.
Qed.

Lemma firstn_seq (n start len : nat) :
  firstn n (seq start len) = seq start (Nat.min n len).
Proof.
  revert start len. induction n as [|n IH]; intros start [|len]; cbn; try reflexivity.
  now rewrite IH.
Qed.

Lemma byteSetBits_rowOf (b : Z) : byteSetBits b = map Z.of_nat (rowOf b).
Proof. reflexivity. Qed.

Lemma rowOf_length (b : Z) : length (rowOf b) = 8%nat.
Proof.
  unfold rowOf. rewrite length_app, length_seq.
  pose proof (setBitsOf_length_le 8 b). lia.
Qed.

Lemma byteSetBits_length (b : Z) : length (byteSetBits b) = 8%nat.
Proof. rewrite byteSetBits_rowOf, length_map. apply rowOf_length. Qed.

(** The first [n] entries of the row of a mask with bits only below [n]:
    the set bits, then filler below [n]. *)
Lemma rowOf_firstn (n : nat) (b : Z) :
  (n <= 8)%nat -> 0 <= b < 2 ^ Z.of_nat n ->
  firstn n (rowOf b) =
  setBitsOf n b ++ seq (length (setBitsOf n b)) (n - length (setBitsOf n b)).
Proof.
  intros Hn Hb. unfold rowOf. rewrite (setBitsOf_high n 8 b Hb Hn).
  pose proof (setBitsOf_length_le n b) as Hc.
  rewrite firstn_app, firstn_all2 by lia. f_equal.
  rewrite firstn_seq. f_equal. lia.
Qed.

Lemma rowOf_firstn_lt (n : nat) (b : Z) (k : nat) :
  (n <= 8)%nat -> 0 <= b < 2 ^ Z.of_nat n ->
  In k (firstn n (rowOf b)) -> (k < n)%nat.
Proof.
  intros Hn Hb. rewrite rowOf_firstn by assumption.
  rewrite in_app_iff, setBitsOf_In, in_seq. intros [[H _]|H]; lia.
Qed.

(** ** Permute *)

Lemma readAt_nat (a : list Z) (k : nat) :
  (k < length a)%nat -> readAt a (Z.of_nat k) = Some (nth k a 0).
Proof.
  intros H. unfold readAt. destruct (Z.ltb_spec (Z.of_nat k) 0); [lia|].
  rewrite Nat2Z.id. apply nth_error_nth'. exact H.
Qed.

(** The pointer variant of [genericPermute]: every index is negative or a
    lane of [data]; lane [i] of the result is zero in the first case and
    lane [idx[i]] of [data] in the second. *)
Lemma genericPermute_lanes (data idx : list Z) :
  (length data <= length idx)%nat ->
  (forall i, (i < length data)%nat ->
     nth i idx 0 < 0 \/ 0 <= nth i idx 0 < Z.of_nat (length data)) ->
  genericPermute data idx =
  Some (map (fun i : nat =>
               if nth i idx 0 <? 0 then 0 else nth (Z.to_nat (nth i idx 0)) data 0)
            (lanes (length data))).
Proof.
  intros Hlen Hidx. unfold genericPermute. apply traverse_map.
  intros i Hi. apply in_seq in Hi.
  rewrite (nth_error_nth' idx 0) by lia. cbn [bind].
  destruct (Z.ltb_spec (nth i idx 0) 0) as [Hneg|Hpos]; [reflexivity|].
  destruct (Hidx i ltac:(lia)) as [H|H]; [lia|].
  rewrite <- (Z2Nat.id (nth i idx 0)) at 1 by lia.
  apply readAt_nat. lia.
Qed.

(** Permuting by lane numbers [ks], given as the first entries of [idx]. *)
Lemma genericPermute_nat (data idx : list Z) (ks : list nat) :
  length ks = length data ->
  firstn (length data) idx = map Z.of_nat ks ->
  (forall k, In k ks -> (k < length data)%nat) ->
  genericPermute data idx = Some (map (fun k : nat => nth k data 0) ks).
Proof.
  intros Hlen Hidx Hks.
  assert (Hnth : forall i, (i < length data)%nat -> nth i idx 0 = Z.of_nat (nth i ks 0%nat)).
  { intros i Hi.
    assert (E : nth_error (firstn (length data) idx) i = Some (Z.of_nat (nth i ks 0%nat))).
    { rewrite Hidx, nth_error_map, (nth_error_nth' ks 0%nat) by lia. reflexivity. }
    rewrite nth_error_firstn in E. destruct (Nat.ltb_spec i (length data)); [|lia].
    apply nth_error_nth. exact E. }
  assert (Hl : (length data <= length idx)%nat).
  { apply (f_equal (@length Z)) in Hidx. rewrite length_map, length_firstn in Hidx. lia. }
  rewrite genericPermute_lanes.
  - f_equal. rewrite <- (map_nth_lanes ks 0%nat) at 1. rewrite map_map, Hlen.
    apply map_ext_in. intros i Hi. apply in_seq in Hi. rewrite Hnth by lia.
    destruct (Z.ltb_spec (Z.of_nat (nth i ks 0%nat)) 0); [lia|]. now rewrite Nat2Z.id.
  - exact Hl.
  - intros i Hi. right. rewrite Hnth by exact Hi.
    pose proof (Hks (nth i ks 0%nat) ltac:(apply nth_In; lia)). lia.
Qed.

Lemma genericPermuteBatch64_nat (data : list Z) (ks : list nat) :
  length ks = length data ->
  (forall k, In k ks -> (k < length data)%nat) ->
  genericPermuteBatch64 data (map Z.of_nat ks) =
  Some (map (fun k : nat => nth k data 0) ks).
Proof.
  intros Hlen Hks. unfold genericPermuteBatch64.
  rewrite length_map, Hlen, Nat.eqb_refl.
  rewrite (traverse_map _ (fun z : Z => nth (Z.to_nat z) data 0)).
  - f_equal. rewrite map_map. apply map_ext. intros k. now rewrite Nat2Z.id.
  - intros z Hz. apply in_map_iff in Hz as [k [<- Hk]].
    rewrite Nat2Z.id. apply readAt_nat. apply Hks. exact Hk.
Qed.

(** ** Filter *)

Lemma Filter2_test (mask : Z) (i : nat) :
  (i < 64)%nat ->
  negb (Z.land (wrapU 64 mask) (wrapU 64 (Z.shiftl 1 (Z.of_nat i))) =? 0)
  = Z.testbit mask (Z.of_nat i).
Proof.
  intros Hi.
  rewrite (wrapU_small 64 (Z.shiftl 1 (Z.of_nat i))).
  - fold (bitAnd (wrapU 64 mask) (Z.of_nat i)). rewrite bitAnd_testbit by lia.
    unfold wrapU. apply Z.mod_pow2_bits_low. lia.
  - rewrite Z.shiftl_1_l. split; [apply Z.pow_nonneg; lia|].
    apply Z.pow_lt_mono_r; lia.
Qed.

(** The write-pointer walk of [Filter<T, A, 2>] after [k] lanes. *)
Lemma Filter2_rounds (data : list Z) (mask : Z) (k : nat) :
  (k <= length data)%nat -> (length data <= 64)%nat ->
  let sel := map (fun i : nat => nth i data 0) (setBitsOf k mask) in
  fold_left (Filter2_round data mask) (lanes k) (Some (repeat 0 (length data), 0%nat))
  = Some (sel ++ repeat 0 (length data - length sel), length sel).
Proof.
  induction k as [|k IH]; intros Hk HN sel.
  - cbn. now rewrite Nat.sub_0_r.
  - subst sel. rewrite lanes_S, fold_left_app, IH by lia.
    cbn [fold_left Filter2_round bind]. rewrite Filter2_test by lia.
    rewrite setBitsOf_S.
    set (sel := map (fun i : nat => nth i data 0) (setBitsOf k mask)).
    assert (Hsel : (length sel <= k)%nat).
    { subst sel. rewrite length_map. apply setBitsOf_length_le. }
    destruct (Z.testbit mask (Z.of_nat k)).
    + unfold writeAt. rewrite length_app, repeat_length.
      destruct (Nat.ltb_spec (length sel) (length sel + (length data - length sel))); [|lia].
      cbn [bind]. rewrite map_app. fold sel. cbn [map].
      rewrite firstn_app, firstn_all2, Nat.sub_diag, firstn_O, app_nil_r by lia.
      rewrite skipn_app, skipn_all2 by lia.
      replace (S (length sel) - length sel)%nat with 1%nat by lia.
      replace (length data - length sel)%nat with (S (length data - S (length sel))) by lia.
      cbn [repeat skipn app]. rewrite length_app. cbn [length].
      rewrite <- app_assoc. cbn [app].
      replace (length sel + 1)%nat with (S (length sel)) by lia. reflexivity.
    + rewrite app_nil_r. reflexivity.
Qed.

(** [Filter<T, A, 2>::apply] returns the selected lanes followed by zeros. *)
Lemma Filter2_apply_eq (data : list Z) (mask : Z) :
  (length data <= 64)%nat ->
  Filter2_apply data mask =
  Some (selectedLanes data mask
        ++ repeat 0 (length data - length (selectedLanes data mask))).
Proof.
  intros HN. unfold Filter2_apply.
  rewrite Filter2_rounds by lia. reflexivity.
Qed.

(** The table-driven variants return the selected lanes followed by the lanes
    the filler of the row names. *)
Lemma Filter_table_rows (data : list Z) (mask : Z) :
  (length data <= 8)%nat -> 0 <= mask < 2 ^ Z.of_nat (length data) ->
  let r := map (fun k : nat => nth k data 0) (firstn (length data) (rowOf mask)) in
  byteSetBitsRow mask = Some (byteSetBits mask) /\
  loadLanes (length data) (byteSetBits mask) 0 =
    Some (map Z.of_nat (firstn (length data) (rowOf mask))) /\
  genericPermute data (map Z.of_nat (firstn (length data) (rowOf mask))) = Some r /\
  genericPermute data (byteSetBits mask) = Some r /\
  genericPermuteBatch64 data (map Z.of_nat (firstn (length data) (rowOf mask))) = Some r /\
  length r = length data /\
  firstn (length (selectedLanes data mask)) r = selectedLanes data mask.
Proof.
  intros HN Hm r.
  assert (Hlen : length (firstn (length data) (rowOf mask)) = length data).
  { rewrite length_firstn, rowOf_length. lia. }
  assert (Hlt : forall k, In k (firstn (length data) (rowOf mask)) -> (k < length data)%nat).
  { intros k. apply rowOf_firstn_lt; assumption. }
  repeat split.
  - unfold byteSetBitsRow.
    pose proof (pow2_le_mono (Z.of_nat (length data)) 8 ltac:(lia)) as P.
    change (2 ^ 8) with 256 in P.
    destruct (Z.leb_spec 0 mask); [|lia]. destruct (Z.ltb_spec mask 256); [|lia].
    reflexivity.
  - unfold loadLanes. rewrite byteSetBits_length.
    destruct (Nat.leb_spec (0 + length data) 8); [|lia].
    cbn [skipn]. unfold byteSetBits. now rewrite firstn_map.
  - apply genericPermute_nat; [exact Hlen | | exact Hlt].
    rewrite <- firstn_map, firstn_firstn. f_equal. lia.
  - apply genericPermute_nat; [exact Hlen | | exact Hlt].
    unfold byteSetBits. apply firstn_map.
  - apply genericPermuteBatch64_nat; assumption.
  - subst r. rewrite length_map. exact Hlen.
  - subst r. unfold selectedLanes. rewrite rowOf_firstn by assumption.
    rewrite map_app, length_map, firstn_app, firstn_all2 by (rewrite length_map; lia).
    rewrite length_map, Nat.sub_diag, firstn_O. apply app_nil_r.
Qed.

Lemma int_pattern_small (mask : Z) :
  - 2 ^ 31 <= mask < 2 ^ 31 -> wrapU 32 mask < 2 ^ 31 -> wrapU 32 mask = mask.
Proof.
  intros Hr Hp. unfold wrapU in *.
  change (2 ^ 31) with 2147483648 in *. change (2 ^ 32) with 4294967296 in *.
  destruct (Z.neg_nonneg_cases mask) as [Hneg|Hpos].
  - exfalso. rewrite <- (Z.mod_add mask 1 4294967296) in Hp by lia.
    rewrite Z.mod_small in Hp; lia.
  - apply Z.mod_small. lia.
Qed.

Lemma selectedLanes_popcount (data : list Z) (mask : Z) :
  (length data <= 32)%nat ->
  wrapU 32 mask < 2 ^ Z.of_nat (length data) ->
  length (selectedLanes data mask) = popcount (wrapU 32 mask).
Proof.
  intros HN Hm. unfold selectedLanes. rewrite length_map.
  rewrite <- setBitsOf_wrapU32 by exact HN. symmetry. apply popcount_setBitsOf.
  split; [|exact Hm]. unfold wrapU. apply Z.mod_pos_bound. reflexivity.
Qed.

(** X24.  For every batch [data] of [N] lanes and every [int] bitmask whose
    32-bit pattern has bits only in [[0, N)], every variant of [filter]
    returns a batch of [N] lanes whose first [popcount(bitmask)] lanes are the
    lanes of [data] whose bit is set in the bitmask, in ascending original
    lane order, packed from lane 0.  Nothing is said of the other lanes.
    ([N] is at most 32 for 2-byte elements; the table-driven variants for 4-
    and 8-byte elements serve the batches of at most 8 lanes that a row of
    [byteSetBits] covers.) *)
Theorem filter_left_packs (v : FilterVariant) (data : list Z) (mask : Z) :
  (length data <= maxLanes v)%nat ->
  - 2 ^ 31 <= mask < 2 ^ 31 ->
  wrapU 32 mask < 2 ^ Z.of_nat (length data) ->
  exists result,
    simd.filter v data mask = Some result /\
    length result = length data /\
    length (selectedLanes data mask) = popcount (wrapU 32 mask) /\
    firstn (popcount (wrapU 32 mask)) result = selectedLanes data mask.
Proof.
  intros HN Hint Hbits.
  assert (HN32 : (length data <= 32)%nat) by (destruct v; cbn in HN; lia).
  pose proof (selectedLanes_popcount data mask HN32 Hbits) as Hpop.
  destruct v as [| |isBatch64|]; cbn [maxLanes] in HN; cbn [simd.filter].
  - (* 2-byte elements: the write-pointer walk *)
    eexists. split; [apply Filter2_apply_eq; lia|]. split; [|split; [exact Hpop|]].
    + rewrite length_app, repeat_length.
      assert (length (selectedLanes data mask) <= length data)%nat.
      { unfold selectedLanes. rewrite length_map. apply setBitsOf_length_le. }
      lia.
    + rewrite <- Hpop, firstn_app, firstn_all, Nat.sub_diag, firstn_O. apply app_nil_r.
  - (* 4-byte elements, full batch *)
    assert (Hm : wrapU 32 mask = mask).
    { apply int_pattern_small; [exact Hint|].
      pose proof (pow2_le_mono (Z.of_nat (length data)) 31 ltac:(lia)). lia. }
    rewrite Hm in *.
    destruct (Filter_table_rows data mask HN ltac:(unfold wrapU in Hm; split; [rewrite <- Hm; apply Z.mod_pos_bound; reflexivity | exact Hbits]))
      as (Hrow & Hload & Hperm & _ & _ & Hlen & Hfirst).
    eexists. split; [|split; [exact Hlen|split; [exact Hpop|]]].
    + unfold Filter4_apply. rewrite Hrow. cbn [bind]. rewrite Hload. cbn [bind].
      unfold Permute4_apply, genericPermuteBatch.
      rewrite length_map, length_firstn, rowOf_length.
      destruct (Nat.leb_spec (Nat.min (length data) 8) (length data)); [|lia].
      exact Hperm.
    + rewrite <- Hpop. exact Hfirst.
  - (* 4-byte elements, half batch *)
    assert (Hm : wrapU 32 mask = mask).
    { apply int_pattern_small; [exact Hint|].
      pose proof (pow2_le_mono (Z.of_nat (length data)) 31 ltac:(lia)). lia. }
    rewrite Hm in *.
    destruct (Filter_table_rows data mask HN ltac:(unfold wrapU in Hm; split; [rewrite <- Hm; apply Z.mod_pos_bound; reflexivity | exact Hbits]))
      as (Hrow & Hload & Hperm & _ & Hperm64 & Hlen & Hfirst).
    eexists. split; [|split; [exact Hlen|split; [exact Hpop|]]].
    + unfold Filter4_applyHalf. rewrite Hrow. cbn [bind]. rewrite Hload. cbn [bind].
      unfold Permute4_applyHalf, genericPermuteBatch. destruct isBatch64; [exact Hperm64|].
      rewrite length_map, length_firstn, rowOf_length.
      destruct (Nat.leb_spec (Nat.min (length data) 8) (length data)); [|lia].
      exact Hperm.
    + rewrite <- Hpop. exact Hfirst.
  - (* 8-byte elements *)
    assert (Hm : wrapU 32 mask = mask).
    { apply int_pattern_small; [exact Hint|].
      pose proof (pow2_le_mono (Z.of_nat (length data)) 31 ltac:(lia)). lia. }
    rewrite Hm in *.
    destruct (Filter_table_rows data mask HN ltac:(unfold wrapU in Hm; split; [rewrite <- Hm; apply Z.mod_pos_bound; reflexivity | exact Hbits]))
      as (Hrow & _ & _ & Hperm & _ & Hlen & Hfirst).
    eexists. split; [|split; [exact Hlen|split; [exact Hpop|]]].
    + unfold Filter8_apply. rewrite Hrow. cbn [bind]. exact Hperm.
    + rewrite <- Hpop. exact Hfirst.
Qed.

Lemma filter_left_packs_witness :
  exists result,
    simd.filter Filter4 [10; 20; 30; 40; 50; 60; 70; 80] 177 = Some result /\
    length result = 8%nat /\
    length (selectedLanes [10; 20; 30; 40; 50; 60; 70; 80] 177) = 4%nat /\
    firstn 4 result = [10; 50; 60; 80].
Proof.
  apply (filter_left_packs Filter4 [10; 20; 30; 40; 50; 60; 70; 80] 177).
  - cbn. lia.
  - lia.
  - vm_compute. reflexivity.
Defined.

(** C1.  [filter] on a batch of 16 lanes of 4-byte elements, the batch of a
    64-byte register.  The bitmask 256 has its only bit in [[0, 16)] and
    selects lane 8, so the claim asks for that lane in lane 0 of the result.
    [Filter<T, A, 4>::apply] takes the bitmask as a row number of
    [byteSetBits], a table of 256 rows, and loads a batch of 16 indices from
    a row of 8 entries (so also for the bitmask 1): the read leaves the table
    and there is no defined result.  The sibling for 2-byte elements walks
    the lanes and returns the selected lane first. *)
Theorem Filter4_sixteen_lanes :
  let data := map Z.of_nat (seq 1 16) in
  length data = 16%nat /\
  wrapU 32 256 < 2 ^ Z.of_nat (length data) /\
  selectedLanes data 256 = [9] /\
  simd.filter Filter4 data 256 = None /\
  simd.filter Filter4 data 1 = None /\
  simd.filter Filter2 data 256 = Some (9 :: repeat 0 15) /\
  ~ (exists result,
       simd.filter Filter4 data 256 = Some result /\
       firstn (popcount (wrapU 32 256)) result = selectedLanes data 256).
Proof.
  intros data.
  assert (E : simd.filter Filter4 data 256 = None) by (vm_compute; reflexivity).
  split; [reflexivity|]. split; [vm_compute; reflexivity|].
  split; [vm_compute; reflexivity|]. split; [exact E|].
  split; [vm_compute; reflexivity|]. split; [vm_compute; reflexivity|].
  intros (result & Hr & _). rewrite E in Hr. discriminate.
Qed.

(** C10.  For 2-byte elements every lane of [filter(data, bitmask)] at an
    index at or above [popcount(bitmask)] is zero: the result starts as
    [result(0)] and only the selected lanes are written. *)
Theorem Filter2_trailing_lanes_zero (data : list Z) (mask : Z) (i : nat) :
  (length data <= 32)%nat ->
  (popcount (wrapU 32 mask) <= i < length data)%nat ->
  exists result,
    simd.filter Filter2 data mask = Some result /\
    length result = length data /\
    nth i result 0 = 0.
Proof.
  intros HN Hi. cbn [simd.filter].
  assert (Hsel : (length (selectedLanes data mask) <= popcount (wrapU 32 mask))%nat).
  { unfold selectedLanes. rewrite length_map, <- setBitsOf_wrapU32 by exact HN.
    apply setBitsOf_length_popcount. unfold wrapU. apply Z.mod_pos_bound. reflexivity. }
  eexists. split; [apply Filter2_apply_eq; lia|]. split.
  - rewrite length_app, repeat_length. lia.
  - rewrite app_nth2 by lia. apply nth_repeat_lt. lia.
Qed.

Lemma Filter2_trailing_lanes_zero_witness :
  exists result,
    simd.filter Filter2 [10; 20; 30; 40; 50; 60; 70; 80] 177 = Some result /\
    length result = 8%nat /\
    nth 4 result 0 = 0.
Proof.
  apply (Filter2_trailing_lanes_zero [10; 20; 30; 40; 50; 60; 70; 80] 177 4).
  - cbn. lia.
  - vm_compute. split; lia.
Defined.

(** C5.  [permute] with a negative index: the full-width variant blanks the
    lane, [genericPermute [5; 6; 7] [2; -1; 0] = [7; 0; 5]], and so does it on
    two lanes; the half-width [Batch64] variant has no guard for a negative
    index and reads [data.data[-1]], outside the batch, so it has no defined
    result where lane 0 should be zero. *)
Theorem genericPermuteBatch64_negative_index :
  genericPermute [5; 6; 7] [2; -1; 0] = Some [7; 0; 5] /\
  Permute4_applyHalf false [5; 6] [-1; 0] = Some [0; 5] /\
  Permute4_applyHalf true [5; 6] [-1; 0] = None /\
  Permute4_applyHalf true [5; 6] [-1; 0] <> Some [0; 5].
Proof. repeat split. discriminate. Qed.

(** ** Masked gather *)

Lemma traverse_length {A B : Type} (f : A -> option B) (l : list A) (r : list B) :
  traverse f l = Some r -> length r = length l.
Proof.
  revert r. induction l as [|a t IH]; intros r H; cbn [traverse] in H.
  - injection H as <-. reflexivity.
  - destruct (f a); cbn [bind] in H; [|discriminate].
    destruct (traverse f t) as [r'|]; cbn [bind] in H; [|discriminate].
    injection H as <-. cbn [length]. now rewrite (IH r').
Qed.



(** ** Vectorized copy and fill *)

Lemma firstn_add {A : Type} (a b : nat) (l : list A) :
  firstn (a + b) l = firstn a l ++ firstn b (skipn a l).
Proof.
  revert l. induction a as [|a IH]; intros l; [reflexivity|].
  destruct l as [|x l]; cbn [Nat.add firstn skipn app].
  - now rewrite firstn_nil.
  - now rewrite IH.
Qed.

Lemma subSize_eq (r size : nat) :
  (size <= r)%nat -> Z.of_nat r < 2 ^ 31 ->
  subSize (Z.of_nat r) size = Z.of_nat (r - size).
Proof.
  intros Hle Hr. unfold subSize. change (2 ^ 31) with 2147483648 in Hr.
  rewrite (wrapU_small 64 (Z.of_nat r))
    by (change (2 ^ 64) with 18446744073709551616; lia).
  rewrite wrapU_small by (change (2 ^ 64) with 18446744073709551616; lia).
  rewrite wrapS_small; [lia | lia |]. change (2 ^ (32 - 1)) with 2147483648. lia.
Qed.

Lemma geSize_eq (r size : nat) :
  Z.of_nat r < 2 ^ 31 -> geSize (Z.of_nat r) size = negb (r <? size)%nat.
Proof.
  intros Hr. unfold geSize. change (2 ^ 31) with 2147483648 in Hr.
  rewrite wrapU_small by (change (2 ^ 64) with 18446744073709551616; lia).
  destruct (Z.geb_spec (Z.of_nat r) (Z.of_nat size)), (Nat.ltb_spec r size);
    cbn; (reflexivity || lia).
Qed.

(** The cascade of word widths, for any cursor type.  [At st done] says the
    cursor [st] stands after [done] bytes of the [n0] to write; the memory
    then agrees with [target] below [to0 + done] and with the initial
    memory [dst0] from there on. *)
Section Cascade.

Context {St : Type}.
Variable memOf : St -> list byte.
Variable dst0 : list byte.
Variable to0 n0 : nat.
Variable payload : list byte.
Variable At : St -> nat -> Prop.

Let target : list byte := spliced dst0 to0 payload.

Hypothesis payload_length : length payload = n0.
Hypothesis fits_dst : (to0 + n0 <= length dst0)%nat.
Hypothesis At_mem : forall st done, At st done -> memOf st = partialWrite dst0 to0 payload done.
Hypothesis At_done : forall st done, At st done -> (done <= n0)%nat.

Lemma target_length : length target = length dst0.
Proof.
  unfold target, spliced.
  rewrite !length_app, length_firstn, length_skipn. lia.
Qed.

Lemma target_window (done size : nat) :
  (done + size <= n0)%nat ->
  firstn size (skipn (to0 + done) target) = firstn size (skipn done payload).
Proof.
  intros H. unfold target, spliced.
  rewrite skipn_app, length_firstn, Nat.min_l by lia.
  rewrite skipn_all2 by (rewrite length_firstn; lia). cbn [app].
  replace (to0 + done - to0)%nat with done by lia.
  rewrite skipn_app, firstn_app, length_skipn.
  replace (size - (length payload - done))%nat with 0%nat by lia.
  now rewrite firstn_O, app_nil_r.
Qed.

Lemma partialWrite_all : partialWrite dst0 to0 payload n0 = target.
Proof.
  unfold partialWrite; fold target.
  replace (skipn (to0 + n0) dst0) with (skipn (to0 + n0) target).
  - apply firstn_skipn.
  - unfold target, spliced.
    rewrite app_assoc, skipn_app, skipn_all2
      by (rewrite length_app, length_firstn; lia).
    rewrite length_app, length_firstn, Nat.min_l by lia.
    rewrite payload_length, Nat.sub_diag. reflexivity.
Qed.

(** Storing the next [length w] bytes of the target advances the partial
    write. *)
Lemma store_partialWrite (done : nat) (w : list byte) :
  (done + length w <= n0)%nat ->
  w = firstn (length w) (skipn done payload) ->
  storeLanes (partialWrite dst0 to0 payload done) (to0 + done) w =
  Some (partialWrite dst0 to0 payload (done + length w)).
Proof.
  intros Hle Hw. unfold storeLanes.
  assert (Hlen : length (partialWrite dst0 to0 payload done) = length dst0).
  { unfold partialWrite; fold target. rewrite length_app, length_firstn, length_skipn, target_length. lia. }
  rewrite Hlen. destruct (Nat.leb_spec (to0 + done + length w) (length dst0)); [|lia].
  f_equal. unfold partialWrite; fold target.
  rewrite firstn_app, firstn_firstn, Nat.min_id, length_firstn, target_length.
  replace (to0 + done - Nat.min (to0 + done) (length dst0))%nat with 0%nat by lia.
  rewrite firstn_O, app_nil_r.
  rewrite skipn_app, length_firstn, target_length.
  rewrite (skipn_all2 (firstn (to0 + done) target)) by (rewrite length_firstn, target_length; lia).
  cbn [app]. rewrite skipn_skipn.
  replace (to0 + done + length w - Nat.min (to0 + done) (length dst0) + (to0 + done))%nat
    with (to0 + (done + length w))%nat by lia.
  rewrite app_assoc. f_equal.
  rewrite Nat.add_assoc, (firstn_add (to0 + done) (length w) target). f_equal.
  rewrite target_window by lia. exact Hw.
Qed.

(** A loop of steps of width [size] ends with everything written, or with
    fewer than [size] bytes left. *)
Lemma whileWord_ok (size : nat) (cond : St -> bool) (step : St -> option (bool * St)) :
  (0 < size)%nat -> CondOk n0 At size cond -> StepOk memOf dst0 to0 n0 payload At size step ->
  forall fuel st done, At st done -> (n0 - done < fuel)%nat ->
    exists more st',
      whileWord fuel cond step st = Some (more, st') /\
      (more = false -> memOf st' = target) /\
      (more = true -> exists done', At st' done' /\ (n0 - done' < size)%nat).
Proof.
  intros Hsize Hcond Hstep. induction fuel as [|fuel IH]; intros st done Hat Hfuel; [lia|].
  cbn [whileWord]. rewrite (Hcond st done Hat).
  specialize (Hstep st done Hat). pose proof (At_done st done Hat) as Hd.
  destruct (Nat.ltb_spec (n0 - done) size) as [Hlt|Hge]; cbn [negb].
  - exists true, st. split; [reflexivity|]. split; [discriminate|].
    intros _. exists done. split; [exact Hat | exact Hlt].
  - destruct Hstep as (st' & Estep & Hmem & Hnext). rewrite Estep. cbn [bind].
    destruct (Nat.eqb_spec (n0 - done) size) as [Heq|Hne]; cbn [negb].
    + exists false, st'. split; [reflexivity|]. split; [|discriminate].
      intros _. rewrite Hmem. replace (done + size)%nat with n0 by lia.
      apply partialWrite_all.
    + apply (IH st' (done + size)%nat); [apply Hnext; exact Hne | lia].
Qed.

(** A single step of width [size], taken with fewer than [2 * size] bytes
    left, ends with everything written, or with fewer than [size] bytes
    left. *)
Lemma stepWord_ok (size : nat) (step : St -> option (bool * St)) :
  StepOk memOf dst0 to0 n0 payload At size step ->
  forall st done, At st done -> (n0 - done < 2 * size)%nat ->
    exists more st',
      step st = Some (more, st') /\
      (more = false -> memOf st' = target) /\
      (more = true -> exists done', At st' done' /\ (n0 - done' < size)%nat).
Proof.
  intros Hstep st done Hat Hlt. specialize (Hstep st done Hat).
  pose proof (At_done st done Hat) as Hd.
  destruct (Nat.ltb_spec (n0 - done) size) as [Hlt'|Hge].
  - exists true, st. split; [exact Hstep|]. split; [discriminate|].
    intros _. exists done. split; [exact Hat | exact Hlt'].
  - destruct Hstep as (st' & Estep & Hmem & Hnext).
    exists (negb (n0 - done =? size)%nat), st'. split; [exact Estep|].
    destruct (Nat.eqb_spec (n0 - done) size) as [Heq|Hne]; cbn [negb].
    + split; [|discriminate]. intros _. rewrite Hmem.
      replace (done + size)%nat with n0 by lia. apply partialWrite_all.
    + split; [discriminate|]. intros _. exists (done + size)%nat.
      split; [apply Hnext; exact Hne | lia].
Qed.

(** With no byte left the memory is the target. *)
Lemma At_finished (st : St) (done : nat) :
  At st done -> (n0 - done < 1)%nat -> memOf st = target.
Proof.
  intros Hat Hlt. pose proof (At_done st done Hat).
  rewrite (At_mem st done Hat). replace done with n0 by lia.
  apply partialWrite_all.
Qed.

End Cascade.

(** *** The naive references *)

Lemma spliced_spliced {A : Type} (dst : list A) (to : nat) (p q : list A) :
  (to + length p + length q <= length dst)%nat ->
  spliced (spliced dst to p) (to + length p) q = spliced dst to (p ++ q).
Proof.
  intros H. unfold spliced.
  assert (L : length (firstn to dst) = to) by (rewrite length_firstn; lia).
  rewrite (app_assoc (firstn to dst) p).
  rewrite firstn_app, firstn_all2 by (rewrite length_app; lia).
  rewrite length_app, L, Nat.sub_diag, firstn_O, app_nil_r.
  rewrite skipn_app, skipn_all2 by (rewrite length_app; lia).
  rewrite length_app, L, skipn_skipn. cbn [app].
  replace (to + length p + length q - (to + length p) + (to + length p))%nat
    with (to + length (p ++ q))%nat by (rewrite length_app; lia).
  now rewrite <- !app_assoc.
Qed.

Lemma writeAt_spliced {A : Type} (dst : list A) (to : nat) (b : A) :
  (to < length dst)%nat -> writeAt dst to b = Some (spliced dst to [b]).
Proof.
  intros H. unfold writeAt, spliced.
  destruct (Nat.ltb_spec to (length dst)); [|lia].
  cbn [length app]. now rewrite Nat.add_1_r.
Qed.

Lemma spliced_length {A : Type} (dst : list A) (to : nat) (p : list A) :
  (to + length p <= length dst)%nat -> length (spliced dst to p) = length dst.
Proof.
  intros H. unfold spliced. rewrite !length_app, length_firstn, length_skipn. lia.
Qed.

Lemma spliced_nil {A : Type} (dst : list A) (to : nat) : spliced dst to [] = dst.
Proof. unfold spliced. cbn [length app]. rewrite Nat.add_0_r. apply firstn_skipn. Qed.

Lemma naiveCopy_spliced (n : nat) :
  forall (dst src : list byte) (to from : nat),
  (to + n <= length dst)%nat -> (from + n <= length src)%nat ->
  naiveCopy dst src to from n = Some (spliced dst to (firstn n (skipn from src))).
Proof.
  induction n as [|n IH]; intros dst src to from Hto Hfrom; cbn [naiveCopy].
  - cbn [firstn]. now rewrite spliced_nil.
  - destruct (nth_error src from) as [b|] eqn:Eb;
      [|apply nth_error_None in Eb; lia].
    cbn [bind]. rewrite writeAt_spliced by lia. cbn [bind].
    rewrite IH by (rewrite ?spliced_length; cbn [length]; lia).
    f_equal. replace (S to) with (to + length [b])%nat by (cbn; lia).
    rewrite spliced_spliced by (rewrite length_firstn, length_skipn; cbn [length]; lia).
    f_equal. cbn [app].
    rewrite <- (firstn_skipn from src) in Eb at 1.
    rewrite nth_error_app2, length_firstn, Nat.min_l, Nat.sub_diag in Eb
      by (rewrite ?length_firstn; lia).
    destruct (skipn from src) as [|x rest] eqn:Es; [discriminate|].
    cbn in Eb. injection Eb as ->.
    replace (skipn (S from) src) with rest; [reflexivity|].
    replace (S from) with (1 + from)%nat by lia.
    now rewrite <- skipn_skipn, Es.
Qed.

Lemma naiveFill_spliced (n : nat) :
  forall (dst : list byte) (to : nat) (data : byte),
  (to + n <= length dst)%nat ->
  naiveFill dst to data n = Some (spliced dst to (repeat data n)).
Proof.
  induction n as [|n IH]; intros dst to data Hto; cbn [naiveFill].
  - cbn [repeat]. now rewrite spliced_nil.
  - rewrite writeAt_spliced by lia. cbn [bind].
    rewrite IH by (rewrite ?spliced_length; cbn [length]; lia).
    f_equal. replace (S to) with (to + length [data])%nat by (cbn; lia).
    rewrite spliced_spliced by (rewrite repeat_length; cbn [length]; lia).
    reflexivity.
Qed.

(** *** memcpy *)

Section MemcpyCorrect.

Variable batchByteSize : nat.
Variables dst src : list byte.
Variables to from n : nat.

Hypothesis batch_pos : (0 < batchByteSize)%nat.
Hypothesis n_int : Z.of_nat n < 2 ^ 31.
Hypothesis fits_to : (to + n <= length dst)%nat.
Hypothesis fits_from : (from + n <= length src)%nat.

Let payload : list byte := firstn n (skipn from src).

Let copyAt : CopyCursor -> nat -> Prop := copyCursorAt payload dst to from n.

Lemma payload_length : length payload = n.
Proof. unfold payload. rewrite length_firstn, length_skipn. lia. Qed.

Lemma copy_window (done size : nat) :
  (done + size <= n)%nat ->
  firstn size (skipn (from + done) src) = firstn size (skipn done payload).
Proof.
  intros H. unfold payload.
  rewrite skipn_firstn_comm, firstn_firstn, Nat.min_l by lia.
  rewrite skipn_skipn. do 2 f_equal. lia.
Qed.

Lemma copyNextWord_ok (isBatch : bool) (size : nat) :
  StepOk c_mem dst to n payload copyAt size (copyNextWord isBatch size src).
Proof.
  intros st done (Hmem & Hto & Hfrom & Hbytes & Hd).
  assert (Hr : Z.of_nat (n - done) < 2 ^ 31) by lia.
  unfold copyNextWord. rewrite Hbytes, geSize_eq by exact Hr.
  destruct (Nat.ltb_spec (n - done) size) as [Hlt|Hge]; cbn [negb]; [reflexivity|].
  set (w := firstn size (skipn (from + done) src)).
  assert (Lw : length w = size).
  { unfold w. rewrite length_firstn, length_skipn. lia. }
  assert (Ew : (if isBatch then w else le_split size (le_combine w)) = w).
  { destruct isBatch; [reflexivity|]. rewrite <- Lw at 1. apply split_le_combine. }
  assert (Estore : CopyWord_apply isBatch size src st
                   = Some (partialWrite dst to payload (done + size))).
  { unfold CopyWord_apply, loadLanes. rewrite Hfrom.
    destruct (Nat.leb_spec (from + done + size) (length src)); [|lia].
    cbn [bind]. fold w. rewrite Ew, Hmem, Hto.
    replace (done + size)%nat with (done + length w)%nat by lia.
    apply (store_partialWrite dst to n payload payload_length fits_to).
    - lia.
    - rewrite Lw. unfold w. apply copy_window. lia. }
  rewrite Estore. cbn [bind]. rewrite subSize_eq by (lia || exact Hr).
  destruct (Nat.eqb_spec (n - done) size) as [Heq|Hne]; cbn [negb].
  - replace (Z.of_nat (n - done - size) =? 0) with true
      by (symmetry; apply Z.eqb_eq; lia).
    eexists. split; [reflexivity|]. split; [reflexivity | contradiction].
  - replace (Z.of_nat (n - done - size) =? 0) with false
      by (symmetry; apply Z.eqb_neq; lia).
    eexists. split; [reflexivity|]. split; [reflexivity|]. intros _.
    unfold copyAt, copyCursorAt. cbn [c_mem c_to c_from c_bytes].
    split; [reflexivity|]. split; [lia|]. split; [lia|]. split; [f_equal|]; lia.
Qed.

Lemma memcpy_spliced :
  memcpy batchByteSize dst src to from (Z.of_nat n) = Some (spliced dst to payload).
Proof.
  assert (Hmem : forall st done, copyAt st done ->
                   c_mem st = partialWrite dst to payload done)
    by (intros st done H; apply H).
  assert (Hdone : forall st done, copyAt st done -> (done <= n)%nat)
    by (intros st done H; apply H).
  assert (H0 : copyAt (mkCopy dst to from (Z.of_nat n)) 0).
  { unfold copyAt, copyCursorAt, partialWrite. cbn. rewrite !Nat.add_0_r, Nat.sub_0_r.
    repeat split; try lia.
    unfold spliced. rewrite firstn_app, firstn_firstn, Nat.min_id, length_firstn.
    replace (to - Nat.min to (length dst))%nat with 0%nat by lia.
    rewrite firstn_O, app_nil_r. symmetry. apply firstn_skipn. }
  assert (CondB : CondOk n copyAt batchByteSize
                    (fun st => c_bytes st >=? Z.of_nat batchByteSize)).
  { intros st done (_ & _ & _ & Hb & _). cbn beta. rewrite Hb.
    destruct (Z.geb_spec (Z.of_nat (n - done)) (Z.of_nat batchByteSize)),
             (Nat.ltb_spec (n - done) batchByteSize); cbn; (reflexivity || lia). }
  assert (Cond8 : CondOk n copyAt 8 (fun st => geSize (c_bytes st) 8)).
  { intros st done (_ & _ & _ & Hb & Hd). cbn beta. rewrite Hb.
    apply geSize_eq. lia. }
  unfold memcpy. rewrite Nat2Z.id.
  (* batches *)
  destruct (whileWord_ok c_mem dst to n payload copyAt payload_length fits_to Hdone
              batchByteSize _ _ batch_pos CondB (copyNextWord_ok true batchByteSize)
              (S n) _ 0%nat H0 ltac:(lia))
    as (more & st1 & -> & Hfin & Hcont).
  cbn [bind]. destruct more; cbn [negb]; [|now rewrite Hfin].
  destruct (Hcont eq_refl) as (d1 & Hat1 & _). clear Hfin Hcont.
  (* 8-byte words *)
  destruct (whileWord_ok c_mem dst to n payload copyAt payload_length fits_to Hdone
              8 _ _ ltac:(lia) Cond8 (copyNextWord_ok false 8)
              (S n) st1 d1 Hat1 ltac:(lia))
    as (more & st2 & -> & Hfin & Hcont).
  cbn [bind]. destruct more; cbn [negb]; [|now rewrite Hfin].
  destruct (Hcont eq_refl) as (d2 & Hat2 & Hlt2). clear Hfin Hcont.
  (* 4, 2 and 1 bytes *)
  destruct (stepWord_ok c_mem dst to n payload copyAt payload_length fits_to Hdone
              4 _ (copyNextWord_ok false 4) st2 d2 Hat2 ltac:(lia))
    as (more & st3 & -> & Hfin & Hcont).
  cbn [bind]. destruct more; cbn [negb]; [|now rewrite Hfin].
  destruct (Hcont eq_refl) as (d3 & Hat3 & Hlt3). clear Hfin Hcont.
  destruct (stepWord_ok c_mem dst to n payload copyAt payload_length fits_to Hdone
              2 _ (copyNextWord_ok false 2) st3 d3 Hat3 ltac:(lia))
    as (more & st4 & -> & Hfin & Hcont).
  cbn [bind]. destruct more; cbn [negb]; [|now rewrite Hfin].
  destruct (Hcont eq_refl) as (d4 & Hat4 & Hlt4). clear Hfin Hcont.
  destruct (stepWord_ok c_mem dst to n payload copyAt payload_length fits_to Hdone
              1 _ (copyNextWord_ok false 1) st4 d4 Hat4 ltac:(lia))
    as (more & st5 & -> & Hfin & Hcont).
  cbn [bind]. f_equal. destruct more; [|apply Hfin; reflexivity].
  destruct (Hcont eq_refl) as (d5 & Hat5 & Hlt5).
  apply (At_finished c_mem dst to n payload copyAt payload_length fits_to Hmem Hdone
           st5 d5 Hat5 Hlt5).
Qed.

End MemcpyCorrect.

(** *** memset *)

Lemma firstn_skipn_repeat {A : Type} (x : A) (n done size : nat) :
  (done + size <= n)%nat ->
  firstn size (skipn done (repeat x n)) = repeat x size.
Proof.
  intros H. replace n with (done + (size + (n - done - size)))%nat by lia.
  rewrite !repeat_app, skipn_app, skipn_all2 by (rewrite repeat_length; lia).
  rewrite repeat_length, Nat.sub_diag. cbn [app skipn].
  rewrite firstn_app, firstn_all2 by (rewrite repeat_length; lia).
  rewrite repeat_length, Nat.sub_diag, firstn_O. apply app_nil_r.
Qed.

(** The words [memset] stores are copies of [data]. *)
Lemma memset_words (data : byte) :
  let data64 := le_combine (repeat data 8) in
  le_split 8 data64 = repeat data 8 /\
  le_split 4 (wrapU 32 data64) = repeat data 4 /\
  le_split 2 (wrapU 16 data64) = repeat data 2 /\
  le_split 1 (wrapU 8 data64) = repeat data 1.
Proof. destruct data; vm_compute; repeat split; reflexivity. Qed.

Section MemsetCorrect.

Variable batchByteSize : nat.
Variable dst : list byte.
Variables to n : nat.
Variable data : byte.

Hypothesis batch_wide : (8 <= batchByteSize)%nat.
Hypothesis n_int : Z.of_nat n < 2 ^ 31.
Hypothesis fits_to : (to + n <= length dst)%nat.

Let payload : list byte := repeat data n.

Let setAt : SetCursor -> nat -> Prop := setCursorAt payload dst to n.

Lemma fill_length : length payload = n.
Proof. apply repeat_length. Qed.

Lemma setNextWord_ok (size : nat) :
  StepOk s_mem dst to n payload setAt size (setNextWord (repeat data size)).
Proof.
  intros st done (Hmem & Hto & Hbytes & Hd).
  assert (Hr : Z.of_nat (n - done) < 2 ^ 31) by lia.
  unfold setNextWord. rewrite repeat_length, Hbytes, geSize_eq by exact Hr.
  destruct (Nat.ltb_spec (n - done) size) as [Hlt|Hge]; cbn [negb]; [reflexivity|].
  assert (Estore : storeLanes (s_mem st) (s_to st) (repeat data size)
                   = Some (partialWrite dst to payload (done + size))).
  { rewrite Hmem, Hto.
    replace (done + size)%nat with (done + length (repeat data size))%nat
      by (rewrite repeat_length; lia).
    apply (store_partialWrite dst to n payload fill_length fits_to).
    - rewrite repeat_length. lia.
    - rewrite repeat_length. unfold payload. symmetry.
      apply firstn_skipn_repeat. lia. }
  rewrite Estore. cbn [bind]. rewrite subSize_eq by (lia || exact Hr).
  destruct (Nat.eqb_spec (n - done) size) as [Heq|Hne]; cbn [negb].
  - replace (Z.of_nat (n - done - size) =? 0) with true
      by (symmetry; apply Z.eqb_eq; lia).
    eexists. split; [reflexivity|]. split; [reflexivity | contradiction].
  - replace (Z.of_nat (n - done - size) =? 0) with false
      by (symmetry; apply Z.eqb_neq; lia).
    eexists. split; [reflexivity|]. split; [reflexivity|]. intros _.
    unfold setAt, setCursorAt. cbn [s_mem s_to s_bytes].
    split; [reflexivity|]. split; [lia|]. split; [f_equal|]; lia.
Qed.

Lemma memset_spliced :
  memset batchByteSize dst to data (Z.of_nat n) = Some (spliced dst to payload).
Proof.
  assert (Hmem : forall st done, setAt st done ->
                   s_mem st = partialWrite dst to payload done)
    by (intros st done H; apply H).
  assert (Hdone : forall st done, setAt st done -> (done <= n)%nat)
    by (intros st done H; apply H).
  assert (H0 : setAt (mkSet dst to (Z.of_nat n)) 0).
  { unfold setAt, setCursorAt, partialWrite. cbn. rewrite !Nat.add_0_r, Nat.sub_0_r.
    repeat split; try lia.
    unfold spliced. rewrite firstn_app, firstn_firstn, Nat.min_id, length_firstn.
    replace (to - Nat.min to (length dst))%nat with 0%nat by lia.
    rewrite firstn_O, app_nil_r. symmetry. apply firstn_skipn. }
  assert (CondB : CondOk n setAt batchByteSize
                    (fun st => s_bytes st >=? Z.of_nat batchByteSize)).
  { intros st done (_ & _ & Hb & _). cbn beta. rewrite Hb.
    destruct (Z.geb_spec (Z.of_nat (n - done)) (Z.of_nat batchByteSize)),
             (Nat.ltb_spec (n - done) batchByteSize); cbn; (reflexivity || lia). }
  assert (Cond8 : CondOk n setAt 8 (fun st => geSize (s_bytes st) 8)).
  { intros st done (_ & _ & Hb & Hd). cbn beta. rewrite Hb.
    apply geSize_eq. lia. }
  assert (Ev8 : loadLanes 8 (repeat data batchByteSize) 0 = Some (repeat data 8)).
  { unfold loadLanes. rewrite repeat_length.
    destruct (Nat.leb_spec (0 + 8) batchByteSize); [|lia].
    f_equal. apply (firstn_skipn_repeat data batchByteSize 0 8). lia. }
  destruct (memset_words data) as (W8 & W4 & W2 & W1).
  unfold memset. rewrite Nat2Z.id.
  (* batches *)
  destruct (whileWord_ok s_mem dst to n payload setAt fill_length fits_to Hdone
              batchByteSize _ _ ltac:(lia) CondB (setNextWord_ok batchByteSize)
              (S n) _ 0%nat H0 ltac:(lia))
    as (more & st1 & -> & Hfin & Hcont).
  cbn [bind]. destruct more; cbn [negb]; [|now rewrite Hfin].
  destruct (Hcont eq_refl) as (d1 & Hat1 & _). clear Hfin Hcont.
  rewrite Ev8. cbn [bind]. rewrite W8, W4, W2, W1.
  (* 8-byte words *)
  destruct (whileWord_ok s_mem dst to n payload setAt fill_length fits_to Hdone
              8 _ _ ltac:(lia) Cond8 (setNextWord_ok 8)
              (S n) st1 d1 Hat1 ltac:(lia))
    as (more & st2 & -> & Hfin & Hcont).
  cbn [bind]. destruct more; cbn [negb]; [|now rewrite Hfin].
  destruct (Hcont eq_refl) as (d2 & Hat2 & Hlt2). clear Hfin Hcont.
  (* 4, 2 and 1 bytes *)
  destruct (stepWord_ok s_mem dst to n payload setAt fill_length fits_to Hdone
              4 _ (setNextWord_ok 4) st2 d2 Hat2 ltac:(lia))
    as (more & st3 & -> & Hfin & Hcont).
  cbn [bind]. destruct more; cbn [negb]; [|now rewrite Hfin].
  destruct (Hcont eq_refl) as (d3 & Hat3 & Hlt3). clear Hfin Hcont.
  destruct (stepWord_ok s_mem dst to n payload setAt fill_length fits_to Hdone
              2 _ (setNextWord_ok 2) st3 d3 Hat3 ltac:(lia))
    as (more & st4 & -> & Hfin & Hcont).
  cbn [bind]. destruct more; cbn [negb]; [|now rewrite Hfin].
  destruct (Hcont eq_refl) as (d4 & Hat4 & Hlt4). clear Hfin Hcont.
  destruct (stepWord_ok s_mem dst to n payload setAt fill_length fits_to Hdone
              1 _ (setNextWord_ok 1) st4 d4 Hat4 ltac:(lia))
    as (more & st5 & -> & Hfin & Hcont).
  cbn [bind]. f_equal. destruct more; [|apply Hfin; reflexivity].
  destruct (Hcont eq_refl) as (d5 & Hat5 & Hlt5).
  apply (At_finished s_mem dst to n payload setAt fill_length fits_to Hmem Hdone
           st5 d5 Hat5 Hlt5).
Qed.

End MemsetCorrect.

(** C3.  For a byte count [bytes >= 0] and buffers that hold at least
    [bytes] bytes from the offsets [to] and [from] on, whatever these
    offsets are, [memcpy] leaves the destination exactly as the naive
    byte-by-byte copy does, and [memset] exactly as the naive byte-by-byte
    fill does; the first [bytes] bytes at [to] are the source bytes,
    respectively [data]. *)
Theorem memcpy_memset_naive (batchByteSize : nat) (dst src : list byte)
  (to from : nat) (data : byte) (bytes : Z) :
  (8 <= batchByteSize)%nat ->
  0 <= bytes < 2 ^ 31 ->
  (to + Z.to_nat bytes <= length dst)%nat ->
  (from + Z.to_nat bytes <= length src)%nat ->
  (exists copied,
     memcpy batchByteSize dst src to from bytes = Some copied /\
     naiveCopy dst src to from (Z.to_nat bytes) = Some copied /\
     firstn (Z.to_nat bytes) (skipn to copied)
       = firstn (Z.to_nat bytes) (skipn from src)) /\
  (exists filled,
     memset batchByteSize dst to data bytes = Some filled /\
     naiveFill dst to data (Z.to_nat bytes) = Some filled /\
     firstn (Z.to_nat bytes) (skipn to filled) = repeat data (Z.to_nat bytes)).
Proof.
  intros HB Hbytes Hto Hfrom.
  assert (Hn : Z.of_nat (Z.to_nat bytes) < 2 ^ 31) by lia.
  assert (Hwin : forall p : list byte, length p = Z.to_nat bytes ->
            firstn (Z.to_nat bytes) (skipn to (spliced dst to p)) = p).
  { intros p Hp. unfold spliced.
    rewrite skipn_app, skipn_all2 by (rewrite length_firstn; lia).
    rewrite length_firstn, Nat.min_l, Nat.sub_diag by lia. cbn [app skipn].
    rewrite firstn_app, firstn_all2 by lia.
    rewrite Hp, Nat.sub_diag, firstn_O. apply app_nil_r. }
  split.
  - exists (spliced dst to (firstn (Z.to_nat bytes) (skipn from src))).
    split; [|split].
    + rewrite <- (Z2Nat.id bytes) at 1 by lia.
      apply memcpy_spliced; (lia || assumption).
    + apply naiveCopy_spliced; assumption.
    + apply Hwin. rewrite length_firstn, length_skipn. lia.
  - exists (spliced dst to (repeat data (Z.to_nat bytes))).
    split; [|split].
    + rewrite <- (Z2Nat.id bytes) at 1 by lia.
      apply memset_spliced; (lia || assumption).
    + apply naiveFill_spliced; assumption.
    + apply Hwin. apply repeat_length.
Qed.

Lemma memcpy_memset_naive_witness :
  let src := map byte.of_Z [1; 2; 3; 4; 5; 6; 7; 8; 9; 10; 11; 12; 13; 14; 15;
                            16; 17; 18; 19; 20; 21; 22; 23; 24; 25; 26; 27; 28;
                            29; 30; 31; 32; 33; 34; 35; 36; 37; 38; 39; 40] in
  let dst := repeat Byte.x00 40 in
  (exists copied,
     memcpy 16 dst src 2 3 31 = Some copied /\
     naiveCopy dst src 2 3 31 = Some copied /\
     firstn 31 (skipn 2 copied) = firstn 31 (skipn 3 src)) /\
  (exists filled,
     memset 16 dst 2 Byte.x2a 31 = Some filled /\
     naiveFill dst 2 Byte.x2a 31 = Some filled /\
     firstn 31 (skipn 2 filled) = repeat Byte.x2a 31).
Proof.
  intros src dst.
  apply (memcpy_memset_naive 16 dst src 2 3 Byte.x2a 31).
  - lia.
  - lia.
  - vm_compute. lia.
  - vm_compute. lia.
Defined.

(** ** Incremental CRC-32 *)

(** One call of [crc32] is the whole-buffer CRC-32 of the 8 bytes of the
    value. *)
Lemma Crc32_apply_whole (seed value : Z) :
  Crc32_apply seed value = crc32_over_whole_buffer seed (le_split 8 value).
Proof. unfold Crc32_apply, crc32_over_whole_buffer. reflexivity. Qed.

(** C4.  Chaining fails: with seed 0 and the streams [a] and [b] of one
    all-zero 8-byte value each, [crc32(crc32(seed, a), b)] is [0x6522DF69]
    while the whole-buffer CRC-32 of [concat(a, b)] from the same seed is
    [0xFFFFFFFF].  Every call complements its result (the final XOR of
    [crc_32_type]) and the next call starts from that complemented value. *)
Theorem crc32_chain_not_whole_buffer :
  crc32_chain (crc32_chain 0 [0]) [0] = 0x6522DF69 /\
  crc32_over_whole_buffer 0 (bytesOf 8 ([0] ++ [0])) = 0xFFFFFFFF /\
  crc32_chain (crc32_chain 0 [0]) [0]
    <> crc32_over_whole_buffer 0 (bytesOf 8 ([0] ++ [0])).
Proof.
  split; [vm_compute; reflexivity|].
  split; [vm_compute; reflexivity|].
  vm_compute. discriminate.
Qed.

(** ** indicesOfSetBits: the lowest set bit *)

Lemma setBitsOf_zero (n : nat) : setBitsOf n 0 = [].
Proof.
  unfold setBitsOf, lanes. generalize 0%nat at 1.
  induction n as [|n IH]; intros s; cbn [seq filter]; [reflexivity|].
  rewrite Z.bits_0. apply IH.
Qed.

Lemma odd_pred (m : Z) :
  0 < m -> Z.odd m = true ->
  ctzll m = 0 /\ Z.land m (m - 1) = m - 1 /\
  Z.odd (m - 1) = false /\ Z.div2 (m - 1) = Z.div2 m.
Proof.
  intros Hm Hodd. pose proof (Z.div2_odd m) as E. rewrite Hodd in E. cbn [Z.b2z] in E.
  split; [destruct m as [|[p|p|]|p]; (reflexivity || discriminate || lia)|].
  assert (Em : m - 1 = 2 * Z.div2 m) by lia.
  split; [|split].
  - rewrite Em. rewrite E at 1. apply Z.bits_inj'. intros i Hi.
    rewrite Z.land_spec.
    destruct (Z.eq_dec i 0) as [->|Hne].
    + now rewrite Z.testbit_even_0, andb_false_r.
    + replace i with (Z.succ (i - 1)) by lia.
      rewrite Z.testbit_odd_succ, Z.testbit_even_succ by lia. apply andb_diag.
  - rewrite Em. rewrite Z.odd_mul. reflexivity.
  - rewrite Em. rewrite !Z.div2_div, Z.mul_comm, Z.div_mul by lia. reflexivity.
Qed.

Lemma even_pred (m : Z) :
  0 < m -> Z.odd m = false ->
  ctzll m = 1 + ctzll (Z.div2 m) /\
  Z.land m (m - 1) = 2 * Z.land (Z.div2 m) (Z.div2 m - 1) /\
  0 < Z.div2 m.
Proof.
  intros Hm Hodd. pose proof (Z.div2_odd m) as E. rewrite Hodd in E. cbn [Z.b2z] in E.
  split; [destruct m as [|[p|p|]|p]; (reflexivity || discriminate || lia)|].
  split; [|lia].
  set (q := Z.div2 m) in *.
  replace (m - 1) with (2 * (q - 1) + 1) by lia. replace m with (2 * q) at 1 by lia.
  apply Z.bits_inj'. intros i Hi. rewrite Z.land_spec.
  destruct (Z.eq_dec i 0) as [->|Hne].
  - now rewrite !Z.testbit_even_0.
  - replace i with (Z.succ (i - 1)) by lia.
    rewrite Z.testbit_odd_succ, !Z.testbit_even_succ by lia.
    now rewrite Z.land_spec.
Qed.

Lemma ctz_pos_nonneg (p : positive) : 0 <= ctz_pos p.
Proof. induction p; cbn [ctz_pos]; lia. Qed.

Lemma ctzll_nonneg (m : Z) : 0 <= ctzll m.
Proof.
  destruct m as [|p|p]; cbn [ctzll]; try lia. apply ctz_pos_nonneg.
Qed.

Lemma setBitsOf_double (n : nat) (x : Z) :
  setBitsOf (S n) (2 * x) = map S (setBitsOf n x).
Proof.
  rewrite setBitsOf_head.
  replace (Z.odd (2 * x)) with false by (rewrite Z.odd_mul; reflexivity).
  replace (Z.div2 (2 * x)) with x
    by (rewrite Z.div2_div, (Z.mul_comm 2 x), Z.div_mul by lia; reflexivity).
  reflexivity.
Qed.

(** The set bits of a nonzero word: the lowest one, which [ctzll] finds,
    followed by the set bits of [word & (word - 1)]. *)
Lemma setBitsOf_lowest (n : nat) :
  forall m, 0 < m < 2 ^ Z.of_nat n ->
  setBitsOf n m = Z.to_nat (ctzll m) :: setBitsOf n (Z.land m (m - 1)).
Proof.
  induction n as [|n IH]; intros m Hm.
  - change (2 ^ Z.of_nat 0) with 1 in Hm. lia.
  - rewrite (setBitsOf_head n m).
    destruct (Z.odd m) eqn:Hodd.
    + destruct (odd_pred m ltac:(lia) Hodd) as (Hc & Hl & Ho & Hd).
      rewrite Hc, Hl, (setBitsOf_head n (m - 1)), Ho, Hd. reflexivity.
    + destruct (even_pred m ltac:(lia) Hodd) as (Hc & Hl & Hq).
      pose proof (div2_bound m n ltac:(lia)) as Hb.
      rewrite Hc, Hl, (IH (Z.div2 m)), setBitsOf_double by lia.
      cbn [app map]. f_equal. pose proof (ctzll_nonneg (Z.div2 m)). lia.
Qed.

Lemma land_pred_bound (n : nat) (m : Z) :
  0 < m < 2 ^ Z.of_nat n -> 0 <= Z.land m (m - 1) < 2 ^ Z.of_nat n.
Proof.
  intros Hm.
  assert (Hnn : 0 <= Z.land m (m - 1)) by (apply Z.land_nonneg; lia).
  split; [exact Hnn|].
  destruct (Z.eq_dec (Z.land m (m - 1)) 0) as [->|Hne]; [lia|].
  apply Z.log2_lt_pow2; [lia|].
  pose proof (Z.log2_land m (m - 1) ltac:(lia) ltac:(lia)).
  assert (Z.log2 m < Z.of_nat n) by (apply Z.log2_lt_pow2; lia). lia.
Qed.

(** ** indicesOfSetBits: appending to the output *)

Lemma Emits_nil (slack : nat) (res : list Z) (pos : nat) :
  Emits slack res pos res pos [].
Proof.
  unfold Emits. cbn [length]. rewrite Nat.add_0_r, app_nil_r. auto.
Qed.

Lemma Emits_app (slack : nat) (res1 res2 res3 : list Z) (p1 p2 p3 : nat)
  (out1 out2 : list Z) :
  Emits slack res1 p1 res2 p2 out1 -> Emits slack res2 p2 res3 p3 out2 ->
  Emits slack res1 p1 res3 p3 (out1 ++ out2).
Proof.
  intros (Hp1 & Hl1 & Hf1 & Hs1) (Hp2 & Hl2 & Hf2 & Hs2). unfold Emits.
  rewrite length_app. split; [lia|]. split; [congruence|]. split.
  - rewrite Hf2, Hf1. now rewrite app_assoc.
  - rewrite Hs2.
    replace (p3 + slack)%nat with ((p3 - p2) + (p2 + slack))%nat by lia.
    rewrite <- (skipn_skipn (p3 - p2) (p2 + slack) res2).
    rewrite <- (skipn_skipn (p3 - p2) (p2 + slack) res1).
    now rewrite Hs1.
Qed.

(** Writing exactly [out] at the write pointer. *)
Lemma Emits_spliced (slack : nat) (res : list Z) (pos : nat) (out : list Z) :
  (pos + length out <= length res)%nat ->
  Emits slack res pos (spliced res pos out) (pos + length out) out.
Proof.
  intros H. unfold Emits. split; [reflexivity|]. split; [now apply spliced_length|].
  unfold spliced.
  assert (L : length (firstn pos res) = pos) by (rewrite length_firstn; lia).
  rewrite app_assoc. split.
  - rewrite firstn_app, firstn_all2 by (rewrite length_app; lia).
    rewrite length_app, L, Nat.sub_diag, firstn_O. apply app_nil_r.
  - rewrite skipn_app, skipn_all2 by (rewrite length_app; lia).
    rewrite length_app, L, skipn_skipn. cbn [app]. f_equal. lia.
Qed.

(** A vector store of [v] of which only the first [c] lanes are kept. *)
Lemma Emits_store (slack : nat) (res : list Z) (pos c : nat) (v : list Z) :
  (pos + length v <= length res)%nat -> (c <= length v)%nat ->
  (length v <= c + slack)%nat ->
  Emits slack res pos (spliced res pos v) (pos + c) (firstn c v).
Proof.
  intros H Hc Hs. unfold Emits. rewrite length_firstn, Nat.min_l by lia.
  split; [reflexivity|]. split; [now apply spliced_length|].
  unfold spliced.
  assert (L : length (firstn pos res) = pos) by (rewrite length_firstn; lia).
  split.
  - rewrite firstn_app, firstn_all2 by lia. f_equal.
    rewrite L. replace (pos + c - pos)%nat with c by lia.
    rewrite firstn_app. replace (c - length v)%nat with 0%nat by lia.
    now rewrite firstn_O, app_nil_r.
  - rewrite app_assoc, skipn_app, skipn_all2 by (rewrite length_app; lia).
    rewrite length_app, L, skipn_skipn. cbn [app]. f_equal. lia.
Qed.

(** ** indicesOfSetBits: one word *)

Lemma setBitsOf_nonempty (n : nat) (m : Z) :
  0 < m < 2 ^ Z.of_nat n -> (1 <= length (setBitsOf n m))%nat.
Proof. intros H. rewrite (setBitsOf_lowest n m H). cbn [length]. lia. Qed.

Lemma sparseWord_step (fuel : nat) (w : Z) (st : ScanState) :
  0 < w < 2 ^ 64 -> (pos st < length (res st))%nat ->
  sparseWord (S fuel) w st =
  if Z.land w (w - 1) =? 0
  then Some (mkScan (row st) (spliced (res st) (pos st) [ctzll w + row st]) (S (pos st)))
  else sparseWord fuel (Z.land w (w - 1))
         (mkScan (row st) (spliced (res st) (pos st) [ctzll w + row st]) (S (pos st))).
Proof.
  intros Hw Hp. cbn [sparseWord]. rewrite writeAt_spliced by lia. cbn [bind].
  rewrite (wrapU_small 64 (w - 1)) by lia. reflexivity.
Qed.

(** The bit-at-a-time strategy writes exactly the positions of the set bits
    of the word, given fuel for each of them. *)
Lemma sparseWord_ok (n : nat) (fuel : nat) :
  (n <= 64)%nat ->
  forall (w : Z) (st : ScanState),
  0 < w < 2 ^ Z.of_nat n ->
  (length (setBitsOf n w) <= fuel)%nat ->
  (pos st + length (setBitsOf n w) <= length (res st))%nat ->
  sparseWord fuel w st =
  Some (mkScan (row st)
          (spliced (res st) (pos st) (bitPositions n (row st) w))
          (pos st + length (setBitsOf n w))).
Proof.
  intros Hn. unfold bitPositions.
  induction fuel as [|fuel IH]; intros w st Hw Hfuel Hcap.
  - pose proof (setBitsOf_nonempty n w Hw). lia.
  - pose proof (setBitsOf_lowest n w Hw) as Elow.
    pose proof (land_pred_bound n w Hw) as Hb.
    pose proof (ctzll_nonneg w) as Hc.
    pose proof (pow2_le_mono (Z.of_nat n) 64 ltac:(lia)) as Hp.
    rewrite Elow in Hfuel, Hcap |- *. cbn [length map] in Hfuel, Hcap |- *.
    rewrite sparseWord_step by lia.
    replace (row st + Z.of_nat (Z.to_nat (ctzll w))) with (ctzll w + row st) by lia.
    destruct (Z.eqb_spec (Z.land w (w - 1)) 0) as [E0|Hne].
    + rewrite E0, setBitsOf_zero. cbn [map length]. do 2 f_equal. lia.
    + rewrite IH; cbn [row res pos].
      * f_equal. f_equal; [|lia].
        replace (S (pos st)) with (pos st + length [(ctzll w + row st)%Z])%nat
          by (cbn [length]; lia).
        rewrite spliced_spliced; [reflexivity|].
        cbn [length]. rewrite length_map. lia.
      * lia.
      * lia.
      * rewrite spliced_length by (cbn [length]; lia). lia.
Qed.

Lemma eqbList_eq (a b : list Z) : eqbList a b = true -> a = b.
Proof.
  revert b. induction a as [|x a IH]; intros [|y b] H; cbn in H;
    try discriminate; [reflexivity|].
  apply andb_prop in H as [Hx Hr]. apply Z.eqb_eq in Hx. f_equal; auto.
Qed.

Lemma byteRowOk_all : forallb byteRowOk (seq 0 256) = true.
Proof. vm_compute. reflexivity. Qed.

Lemma byteRow_facts (byte : Z) :
  0 <= byte < 256 ->
  let indices := byteSetBits byte in
  let offsets := map Z.of_nat (setBitsOf 8 byte) in
  let lo := Z.land byte (Z.shiftl 1 4 - 1) in
  let hi := Z.shiftr byte 4 in
  length indices = 8%nat /\
  popcount byte = length offsets /\
  firstn (popcount byte) indices = offsets /\
  (popcount lo + popcount hi)%nat = popcount byte /\
  (popcount lo <= 4)%nat /\ (popcount hi <= 4)%nat /\
  firstn (popcount lo) (firstn 4 indices)
    ++ firstn (popcount hi) (firstn 4 (skipn (popcount lo) indices)) = offsets.
Proof.
  intros Hb. pose proof byteRowOk_all as H. rewrite forallb_forall in H.
  specialize (H (Z.to_nat byte) ltac:(apply in_seq; lia)).
  unfold byteRowOk in H. rewrite Z2Nat.id in H by lia.
  repeat (apply andb_prop in H as [H ?]).
  repeat split;
    first [ apply eqbList_eq; assumption
          | apply Nat.eqb_eq; assumption
          | apply Nat.leb_le; assumption ].
Qed.

Lemma popcount_ge_1 (z : Z) : 0 < z -> (1 <= popcount z)%nat.
Proof.
  destruct z as [|p|p]; try lia. intros _. cbn [popcount].
  induction p; cbn [popcount_pos]; lia.
Qed.

Lemma map_add_row (r : Z) (l : list nat) :
  map (fun index : Z => index + r) (map Z.of_nat l)
  = map (fun i : nat => r + Z.of_nat i) l.
Proof. rewrite map_map. apply map_ext. intros i. lia. Qed.

Lemma storeIndices_ok (lanes off : nat) (indices : list Z) (st : ScanState) :
  (off + lanes <= length indices)%nat ->
  (pos st + lanes <= length (res st))%nat ->
  storeIndices lanes indices off st =
  Some (spliced (res st) (pos st)
          (map (fun index => index + row st) (firstn lanes (skipn off indices)))).
Proof.
  intros Hi Hr. unfold storeIndices, loadLanes.
  destruct (Nat.leb_spec (off + lanes) (length indices)); [|lia]. cbn [bind].
  unfold storeLanes. rewrite length_map, length_firstn, length_skipn.
  destruct (Nat.leb_spec (pos st + Nat.min lanes (length indices - off)) (length (res st)));
    [|lia].
  unfold spliced. rewrite length_map, length_firstn, length_skipn. reflexivity.
Qed.

Lemma Emits_store_map (slack : nat) (res : list Z) (pos c : nat) (r : Z)
  (idx : list Z) :
  (pos + length idx <= length res)%nat -> (c <= length idx)%nat ->
  (length idx <= c + slack)%nat ->
  Emits slack res pos (spliced res pos (map (fun index => index + r) idx))
    (pos + c) (map (fun index => index + r) (firstn c idx)).
Proof.
  intros H1 H2 H3. rewrite <- firstn_map.
  apply Emits_store; rewrite ?length_map; assumption.
Qed.

(** The byte-wise strategy on one nonzero byte. *)
Lemma denseByte_ok (batch : IndexBatch) (byte : Z) (st : ScanState) :
  0 < byte < 256 ->
  (pos st + popcount byte + (batchSize batch - 1) <= length (res st))%nat ->
  exists res',
    denseByte batch byte st = Some (mkScan (row st) res' (pos st + popcount byte)) /\
    Emits (batchSize batch - 1) (res st) (pos st) res' (pos st + popcount byte)
      (bitPositions 8 (row st) byte).
Proof.
  intros Hb Hcap. unfold bitPositions.
  destruct (byteRow_facts byte ltac:(lia)) as (Hlen & Hpop & Hrow & Hsum & Hlo & Hhi & Hnib).
  pose proof (popcount_ge_1 byte ltac:(lia)) as Hc.
  rewrite <- map_add_row.
  destruct batch; cbn [batchSize] in *; unfold denseByte.
  - (* 8 lanes *)
    rewrite storeIndices_ok by lia. cbn [bind skipn].
    eexists. split; [reflexivity|].
    rewrite firstn_all2 by lia. rewrite <- Hrow.
    apply Emits_store_map; lia.
  - (* 4 lanes: low nibble, then high nibble *)
    set (lo := Z.land byte (Z.shiftl 1 4 - 1)) in *.
    set (hi := Z.shiftr byte 4) in *.
    set (indices := byteSetBits byte) in *.
    assert (Hlo0 : lo = 0 -> popcount lo = 0%nat) by (intros ->; reflexivity).
    assert (Hhi0 : hi = 0 -> popcount hi = 0%nat) by (intros ->; reflexivity).
    assert (Hlonn : 0 <= lo) by (apply Z.land_nonneg; lia).
    assert (Hhinn : 0 <= hi) by (apply Z.shiftr_nonneg; lia).
    (* low nibble *)
    assert (Elo : exists res1,
      (if lo =? 0 then Some (st, 0%nat)
       else result <- storeIndices 4 indices 0 st ;;
            Some (mkScan (row st) result (pos st + popcount lo), popcount lo))
      = Some (mkScan (row st) res1 (pos st + popcount lo), popcount lo) /\
      Emits 3 (res st) (pos st) res1 (pos st + popcount lo)
        (map (fun index => index + row st) (firstn (popcount lo) (firstn 4 indices)))).
    { destruct (Z.eqb_spec lo 0) as [E|E].
      - exists (res st). rewrite (Hlo0 E), Nat.add_0_r. split; [now destruct st|].
        apply Emits_nil.
      - pose proof (popcount_ge_1 lo ltac:(lia)).
        rewrite storeIndices_ok by lia. cbn [bind skipn].
        eexists. split; [reflexivity|].
        apply Emits_store_map; rewrite ?length_firstn; lia. }
    destruct Elo as (res1 & -> & Em1). cbn [bind].
    assert (L1 : length res1 = length (res st)) by apply Em1.
    (* high nibble *)
    destruct (Z.eqb_spec hi 0) as [E|E].
    + assert (Hh : popcount hi = 0%nat) by auto.
      assert (Hbl : popcount byte = popcount lo) by lia.
      exists res1. rewrite Hbl. split; [reflexivity|].
      rewrite <- Hnib, Hh. cbn [firstn]. rewrite app_nil_r. exact Em1.
    + pose proof (popcount_ge_1 hi ltac:(lia)).
      rewrite storeIndices_ok by (cbn [row res pos]; lia). cbn [bind row res pos].
      eexists. split; [f_equal; f_equal; lia|].
      rewrite <- Hnib, map_app, <- Hsum, Nat.add_assoc.
      eapply Emits_app; [exact Em1|].
      apply Emits_store_map; rewrite ?length_firstn, ?length_skipn; lia.
Qed.

(** ** indicesOfSetBits: a word, byte by byte *)

Lemma seq_add_map (a b : nat) : seq a b = map (Nat.add a) (seq 0 b).
Proof.
  induction b as [|b IH]; [reflexivity|].
  rewrite !seq_S, map_app, IH. reflexivity.
Qed.

Lemma setBitsOf_app (a b : nat) (w : Z) :
  setBitsOf (a + b) w =
  setBitsOf a w ++ map (Nat.add a) (setBitsOf b (Z.shiftr w (Z.of_nat a))).
Proof.
  unfold setBitsOf, lanes. rewrite seq_app, filter_app. f_equal.
  cbn [Nat.add]. rewrite seq_add_map, filter_map_comm. f_equal.
  apply filter_ext. intros i. rewrite Z.shiftr_spec by lia. f_equal. lia.
Qed.

Lemma setBitsOf_mod (a : nat) (w : Z) :
  setBitsOf a (w mod 2 ^ Z.of_nat a) = setBitsOf a w.
Proof.
  unfold setBitsOf. apply filter_ext_in. intros i Hi. apply in_seq in Hi.
  apply Z.mod_pow2_bits_low. lia.
Qed.

Lemma bitPositions_app (a b : nat) (r w : Z) :
  bitPositions (a + b) r w =
  bitPositions a r (w mod 2 ^ Z.of_nat a)
  ++ bitPositions b (r + Z.of_nat a) (Z.shiftr w (Z.of_nat a)).
Proof.
  unfold bitPositions. rewrite setBitsOf_app, map_app, setBitsOf_mod, map_map.
  f_equal. apply map_ext. intros i. lia.
Qed.

Lemma shiftr_byte_bound (w : Z) (k : nat) :
  0 <= w < 2 ^ Z.of_nat (8 * S k) -> 0 <= Z.shiftr w 8 < 2 ^ Z.of_nat (8 * k).
Proof.
  intros H. rewrite Z.shiftr_div_pow2 by lia.
  replace (Z.of_nat (8 * S k)) with (8 + Z.of_nat (8 * k)) in H by lia.
  rewrite Z.pow_add_r in H by lia.
  split; [apply Z.div_pos; lia|]. apply Z.div_lt_upper_bound; lia.
Qed.

(** The byte-wise strategy over [k] bytes writes the positions of the set
    bits of the word and may overwrite up to [batchSize - 1] entries after
    them. *)
Lemma denseWord_ok (batch : IndexBatch) (k : nat) :
  forall (w : Z) (st : ScanState),
  0 <= w < 2 ^ Z.of_nat (8 * k) ->
  (pos st + length (setBitsOf (8 * k) w) + (batchSize batch - 1)
   <= length (res st))%nat ->
  exists res',
    denseWord batch k w st =
      Some (mkScan (row st + Z.of_nat (8 * k)) res'
              (pos st + length (setBitsOf (8 * k) w))) /\
    Emits (batchSize batch - 1) (res st) (pos st) res'
      (pos st + length (setBitsOf (8 * k) w))
      (bitPositions (8 * k) (row st) w).
Proof.
  induction k as [|k IH]; intros w st Hw Hcap.
  - exists (res st). change (8 * 0)%nat with 0%nat.
    change (setBitsOf 0 w) with (@nil nat). unfold bitPositions.
    cbn [denseWord setBitsOf length map Z.of_nat].
    rewrite Nat.add_0_r, Z.add_0_r. split; [now destruct st|]. apply Emits_nil.
  - replace (8 * S k)%nat with (8 + 8 * k)%nat in Hcap |- * by lia.
    rewrite bitPositions_app. rewrite setBitsOf_app, length_app, length_map in Hcap |- *.
    rewrite <- (setBitsOf_mod 8 w) in Hcap |- *.
    cbn [denseWord]. unfold wrapU. change (Z.of_nat 8) with 8 in *.
    pose proof (shiftr_byte_bound w k Hw) as Hw'.
    assert (Hbyte : 0 <= w mod 2 ^ 8 < 256) by (apply Z.mod_pos_bound; reflexivity).
    set (byte := w mod 2 ^ 8) in *.
    destruct (Z.eqb_spec byte 0) as [E0|Hne].
    + rewrite E0 in Hcap |- *. unfold bitPositions at 1.
      rewrite setBitsOf_zero in Hcap |- *. cbn [length map app bind] in Hcap |- *.
      destruct (IH (Z.shiftr w 8) (mkScan (row st + 8) (res st) (pos st)) Hw'
                  ltac:(cbn [row res pos]; lia))
        as (res' & Erun & Em).
      exists res'. cbn [row res pos] in *. rewrite Erun. split; [|exact Em].
      f_equal. f_equal; lia.
    + pose proof (popcount_setBitsOf 8 byte ltac:(change (2 ^ Z.of_nat 8) with 256; lia)) as Hpop.
      destruct (denseByte_ok batch byte st ltac:(lia) ltac:(lia)) as (res1 & Eb & Em1).
      rewrite Eb. cbn [bind row res pos].
      assert (L1 : length res1 = length (res st)) by apply Em1.
      destruct (IH (Z.shiftr w 8) (mkScan (row st + 8) res1 (pos st + popcount byte)) Hw'
                  ltac:(cbn [row res pos]; lia))
        as (res' & Erun & Em).
      exists res'. cbn [row res pos] in *. rewrite Erun. split.
      * f_equal. f_equal; lia.
      * rewrite <- Hpop, Nat.add_assoc. eapply Emits_app; [exact Em1 | exact Em].
Qed.

(** ** indicesOfSetBits: masks and ranges *)

Lemma lowMask_bits (n i : Z) :
  0 <= n <= 64 -> 0 <= i -> Z.testbit (bits.lowMask n) i = (i <? n).
Proof.
  intros Hn Hi. rewrite lowMask_eq by lia.
  replace (2 ^ n - 1) with (Z.ones n) by (rewrite Z.ones_equiv; lia).
  apply Z.testbit_ones_nonneg; lia.
Qed.

Lemma highMask_bits (n i : Z) :
  0 <= n <= 64 -> 0 <= i < 64 -> Z.testbit (bits.highMask n) i = (64 - n <=? i).
Proof.
  intros Hn Hi. unfold bits.highMask, wrapU.
  rewrite Z.mod_pow2_bits_low, Z.shiftl_spec by lia.
  destruct (Z.leb_spec (64 - n) i).
  - rewrite lowMask_bits by lia. apply Z.ltb_lt. lia.
  - apply Z.testbit_neg_r. lia.
Qed.

Lemma lowMask_nonneg (n : Z) : 0 <= bits.lowMask n.
Proof. unfold bits.lowMask, wrapU. apply Z.mod_pos_bound. reflexivity. Qed.

Lemma highMask_nonneg (n : Z) : 0 <= bits.highMask n.
Proof. unfold bits.highMask, wrapU. apply Z.mod_pos_bound. reflexivity. Qed.

Lemma land_bound (a b : Z) (n : nat) :
  0 <= a < 2 ^ Z.of_nat n -> 0 <= b -> 0 <= Z.land a b < 2 ^ Z.of_nat n.
Proof.
  intros Ha Hb.
  assert (Hnn : 0 <= Z.land a b) by (apply Z.land_nonneg; lia).
  split; [exact Hnn|].
  destruct (Z.eq_dec (Z.land a b) 0) as [->|Hne]; [lia|].
  assert (0 < a).
  { destruct (Z.eq_dec a 0) as [->|]; [|lia]. rewrite Z.land_0_l in Hne. lia. }
  apply Z.log2_lt_pow2; [lia|].
  pose proof (Z.log2_land a b ltac:(lia) Hb).
  assert (Z.log2 a < Z.of_nat n) by (apply Z.log2_lt_pow2; lia). lia.
Qed.

Lemma filter_none {A : Type} (p : A -> bool) (l : list A) :
  (forall x, In x l -> p x = false) -> filter p l = [].
Proof.
  induction l as [|a l IH]; intros H; cbn [filter]; [reflexivity|].
  rewrite (H a) by (left; reflexivity). apply IH. intros x Hx. apply H. now right.
Qed.

(** The set bits of a word clipped to the bit range [[a, b)], as
    positions. *)
Lemma bitPositions_clip (n a b : nat) (r w m : Z) :
  (a <= b <= n)%nat ->
  (forall i, (i < n)%nat ->
     Z.testbit m (Z.of_nat i)
     = Z.testbit w (Z.of_nat i) && (a <=? i)%nat && (i <? b)%nat) ->
  bitPositions n r m =
  filter (fun k => Z.testbit w (k - r)) (zrange (r + Z.of_nat a) (r + Z.of_nat b)).
Proof.
  intros Hab Hm. unfold bitPositions, setBitsOf, lanes, zrange.
  replace n with (a + ((b - a) + (n - b)))%nat at 1 by lia.
  rewrite !seq_app, !filter_app. cbn [Nat.add].
  rewrite (filter_none _ (seq 0 a)).
  2:{ intros i Hi. apply in_seq in Hi. rewrite Hm by lia.
      destruct (Nat.leb_spec a i); [lia|]. now rewrite andb_false_r. }
  rewrite (filter_none _ (seq (a + (b - a)) (n - b))).
  2:{ intros i Hi. apply in_seq in Hi. rewrite Hm by lia.
      destruct (Nat.ltb_spec i b); [lia|]. now rewrite andb_false_r. }
  cbn [app]. rewrite app_nil_r.
  replace (Z.to_nat (r + Z.of_nat b - (r + Z.of_nat a))) with (b - a)%nat by lia.
  rewrite (seq_add_map a (b - a)), !filter_map_comm, map_map.
  rewrite (filter_ext_in (fun x : nat => Z.testbit m (Z.of_nat (a + x)))
             (fun x : nat => Z.testbit w (Z.of_nat (a + x)))).
  2:{ intros i Hi. apply in_seq in Hi. rewrite Hm by lia.
      destruct (Nat.leb_spec a (a + i)); [|lia].
      destruct (Nat.ltb_spec (a + i) b); [|lia]. now rewrite !andb_true_r. }
  rewrite (filter_ext (fun x : nat => Z.testbit w (r + Z.of_nat a + Z.of_nat x - r))
             (fun x : nat => Z.testbit w (Z.of_nat (a + x)))).
  2:{ intros i. f_equal. lia. }
  apply map_ext. intros i. lia.
Qed.

Lemma zrange_nil (lo hi : Z) : hi <= lo -> zrange lo hi = [].
Proof.
  intros H. unfold zrange.
  replace (Z.to_nat (hi - lo)) with 0%nat by lia. reflexivity.
Qed.

Lemma zrange_app (lo mid hi : Z) :
  lo <= mid <= hi -> zrange lo hi = zrange lo mid ++ zrange mid hi.
Proof.
  intros H. unfold zrange.
  replace (Z.to_nat (hi - lo)) with (Z.to_nat (mid - lo) + Z.to_nat (hi - mid))%nat by lia.
  rewrite seq_app, map_app. f_equal. cbn [Nat.add].
  rewrite seq_add_map, map_map. apply map_ext. intros i. lia.
Qed.

Lemma zrange_In (lo hi k : Z) : In k (zrange lo hi) <-> lo <= k < hi.
Proof.
  unfold zrange. rewrite in_map_iff. split.
  - intros (i & <- & Hi). apply in_seq in Hi. lia.
  - intros H. exists (Z.to_nat (k - lo)). split; [lia|]. apply in_seq. lia.
Qed.

Lemma zrange_sorted (lo hi : Z) : StronglySorted Z.lt (zrange lo hi).
Proof.
  unfold zrange. generalize (Z.to_nat (hi - lo)) as len. intros len. revert lo.
  induction len as [|len IH]; intros lo; [constructor|].
  cbn [seq map]. rewrite <- seq_shift, map_map. constructor.
  - replace (map (fun x : nat => lo + Z.of_nat (S x)) (seq 0 len))
      with (map (fun i : nat => (lo + 1) + Z.of_nat i) (seq 0 len))
      by (apply map_ext; intros; lia).
    apply IH.
  - apply Forall_forall. intros k Hk. apply in_map_iff in Hk as (i & <- & _). lia.
Qed.

Lemma filter_sorted (p : Z -> bool) (l : list Z) :
  StronglySorted Z.lt l -> StronglySorted Z.lt (filter p l).
Proof.
  induction 1 as [|a l Hs IH Ha]; cbn [filter]; [constructor|].
  destruct (p a); [|exact IH]. constructor; [exact IH|].
  apply Forall_forall. intros k Hk. apply filter_In in Hk as [Hk _].
  rewrite Forall_forall in Ha. now apply Ha.
Qed.

(** The positions [indicesOfSetBits] has to return are strictly
    increasing. *)
Lemma setBitPositions_sorted (bits : list Z) (begin end_ : Z) :
  StronglySorted Z.lt (setBitPositions bits begin end_).
Proof. apply filter_sorted, zrange_sorted. Qed.

Lemma bitAt_word (bits : list Z) (wi k : Z) :
  64 * wi <= k < 64 * wi + 64 ->
  bitAt bits k = Z.testbit (nth (Z.to_nat wi) bits 0) (k - 64 * wi).
Proof.
  intros H. unfold bitAt.
  assert (Hq : k / 64 = wi) by (symmetry; apply (Z.div_unique k 64 wi (k - 64 * wi)); lia).
  assert (Hr : k mod 64 = k - 64 * wi)
    by (symmetry; apply (Z.mod_unique k 64 wi (k - 64 * wi)); lia).
  now rewrite Hq, Hr.
Qed.

Lemma wordsOk_nth (bits : list Z) (i : nat) :
  wordsOk bits = true -> 0 <= nth i bits 0 < 2 ^ 64.
Proof.
  intros H. unfold wordsOk in H. rewrite forallb_forall in H.
  destruct (Nat.ltb_spec i (length bits)) as [Hi|Hi].
  - specialize (H (nth i bits 0) (nth_In bits 0 Hi)).
    apply andb_prop in H as [H1 H2]. apply Z.leb_le in H1. apply Z.ltb_lt in H2. lia.
  - rewrite nth_overflow by lia. split; [lia | reflexivity].
Qed.

(** ** indicesOfSetBits: the loop over the words *)

Lemma bitPositions_length (n : nat) (r w : Z) :
  length (bitPositions n r w) = length (setBitsOf n w).
Proof. unfold bitPositions. apply length_map. Qed.

Lemma bitPositions_zero (n : nat) (r : Z) : bitPositions n r 0 = [].
Proof. unfold bitPositions. now rewrite setBitsOf_zero. Qed.

(** Both strategies write the positions of the set bits of a nonzero word
    and move on to the next row. *)
Lemma extractWord_ok (batch : IndexBatch) (w : Z) (st : ScanState) :
  0 < w < 2 ^ 64 ->
  (pos st + length (bitPositions 64 (row st) w) + (batchSize batch - 1)
   <= length (res st))%nat ->
  exists st',
    extractWord batch w st = Some (Continue st') /\
    row st' = row st + 64 /\
    Emits (batchSize batch - 1) (res st) (pos st) (res st') (pos st')
      (bitPositions 64 (row st) w).
Proof.
  intros Hw Hcap. rewrite bitPositions_length in Hcap.
  unfold extractWord.
  destruct (Z.of_nat (pos st) <? Z.shiftr (row st) 2).
  - rewrite (sparseWord_ok 64 64 (Nat.le_refl 64) w st Hw (setBitsOf_length_le 64 w))
      by lia.
    cbn [bind]. eexists. split; [reflexivity|]. cbn [nextRow row res pos].
    split; [reflexivity|].
    rewrite <- (bitPositions_length 64 (row st) w).
    apply Emits_spliced. rewrite bitPositions_length. lia.
  - destruct (denseWord_ok batch 8 w st
                ltac:(change (Z.of_nat (8 * 8)) with 64; lia) Hcap)
      as (res' & Erun & Em).
    change (8 * 8)%nat with 64%nat in Erun, Em. change (Z.of_nat 64) with 64 in Erun.
    rewrite Erun. cbn [bind]. eexists. split; [reflexivity|]. cbn [row res pos].
    split; [reflexivity | exact Em].
Qed.

Ltac bool_facts :=
  repeat match goal with
    | H : _ && _ = true |- _ => apply andb_prop in H as [? ?]
    | H : _ && _ = false |- _ => apply andb_false_iff in H
    | H : negb _ = true |- _ => apply negb_true_iff in H
    | H : negb _ = false |- _ => apply negb_false_iff in H
    | H : (_ =? _) = true |- _ => apply Z.eqb_eq in H
    | H : (_ =? _) = false |- _ => apply Z.eqb_neq in H
    | H : (_ <? _) = true |- _ => apply Z.ltb_lt in H
    | H : (_ <? _) = false |- _ => apply Z.ltb_ge in H
    end.

Section ScanCorrect.

Variable batch : IndexBatch.
Variable bits : list Z.
Variables begin end_ : Z.

Hypothesis begin_nonneg : 0 <= begin.
Hypothesis begin_end : begin < end_.
Hypothesis end_int : end_ <= 2 ^ 31 - 64.
Hypothesis words_ok : wordsOk bits = true.
Hypothesis covered : end_ <= 64 * Z.of_nat (length bits).

Let firstWord : Z := begin / 64.
Let endWord : Z := (end_ + 63) / 64.
Let slack : nat := (batchSize batch - 1)%nat.

Lemma firstWord_bounds : 64 * firstWord <= begin < 64 * firstWord + 64.
Proof.
  unfold firstWord. pose proof (Z.div_mod begin 64 ltac:(lia)).
  pose proof (Z.mod_pos_bound begin 64 ltac:(lia)). lia.
Qed.

Lemma endWord_bounds : 64 * (endWord - 1) < end_ <= 64 * endWord.
Proof.
  unfold endWord. pose proof (Z.div_mod (end_ + 63) 64 ltac:(lia)).
  pose proof (Z.mod_pos_bound (end_ + 63) 64 ltac:(lia)). lia.
Qed.

Lemma firstWord_quot : Z.quot begin 64 = firstWord.
Proof. apply Z.quot_div_nonneg; lia. Qed.

Lemma endWord_quot : Z.quot (bits.roundUp end_ 64) 64 = endWord.
Proof.
  pose proof endWord_bounds as He. change (2 ^ 31) with 2147483648 in end_int.
  unfold bits.roundUp. change (64 - 1) with 63.
  rewrite (wrapS_small 32 (end_ + 63))
    by (change (2 ^ (32 - 1)) with 2147483648; lia).
  rewrite (Z.quot_div_nonneg (end_ + 63) 64) by lia. unfold endWord in *.
  rewrite wrapS_small by (change (2 ^ (32 - 1)) with 2147483648; lia).
  apply Z.quot_mul. lia.
Qed.

Lemma row_begin : Z.land begin (Z.lnot 63) = 64 * firstWord.
Proof.
  rewrite <- Z.ldiff_land. change 63 with (Z.ones 6).
  rewrite Z.ldiff_ones_r, Z.shiftl_mul_pow2, Z.shiftr_div_pow2 by lia.
  change (2 ^ 6) with 64. unfold firstWord. lia.
Qed.

(** The bits of the word the scan extracts from: those of the bitmap word
    that lie in [[begin, end_)]. *)
Lemma effectiveWord_bits (wi w : Z) (i : nat) :
  firstWord <= wi < endWord -> (i < 64)%nat ->
  Z.testbit (effectiveWord begin end_ endWord firstWord wi w) (Z.of_nat i) =
  Z.testbit w (Z.of_nat i)
  && (Z.to_nat (Z.max begin (64 * wi) - 64 * wi) <=? i)%nat
  && (i <? Z.to_nat (Z.min end_ (64 * (wi + 1)) - 64 * wi))%nat.
Proof.
  intros Hwi Hi. pose proof firstWord_bounds as Hf. pose proof endWord_bounds as He.
  unfold effectiveWord. cbv zeta.
  destruct ((wi =? firstWord) && negb (begin =? firstWord * 64)) eqn:EF;
  destruct ((wi =? endWord - 1) && (end_ - (endWord - 1) * 64 <? 64)) eqn:EL;
  bool_facts;
  rewrite ?Z.land_spec, ?highMask_bits, ?lowMask_bits by lia;
  destruct (Z.testbit w (Z.of_nat i)); cbn [andb]; try reflexivity;
  repeat match goal with
    | |- context [(?x <=? ?y)%nat] => destruct (Nat.leb_spec x y)
    | |- context [(?x <? ?y)%nat] => destruct (Nat.ltb_spec x y)
    | |- context [?x <=? ?y] => destruct (Z.leb_spec x y)
    | |- context [?x <? ?y] => destruct (Z.ltb_spec x y)
    end; cbn [andb]; try reflexivity; exfalso; lia.
Qed.

Lemma effectiveWord_range (wi w : Z) :
  0 <= w < 2 ^ 64 ->
  0 <= effectiveWord begin end_ endWord firstWord wi w < 2 ^ 64.
Proof.
  intros Hw. unfold effectiveWord. cbv zeta.
  change (2 ^ 64) with (2 ^ Z.of_nat 64) in *.
  destruct ((wi =? firstWord) && negb (begin =? firstWord * 64));
  destruct ((wi =? endWord - 1) && (end_ - (endWord - 1) * 64 <? 64));
  repeat apply land_bound; auto using lowMask_nonneg, highMask_nonneg.
Qed.

(** The positions of word [wi] that lie in the range are the set bits of the
    word the scan extracts from. *)
Lemma word_positions (wi : Z) :
  firstWord <= wi < endWord ->
  filter (bitAt bits)
    (zrange (Z.max begin (64 * wi)) (Z.min end_ (64 * (wi + 1))))
  = bitPositions 64 (64 * wi)
      (effectiveWord begin end_ endWord firstWord wi (nth (Z.to_nat wi) bits 0)).
Proof.
  intros Hwi. pose proof firstWord_bounds as Hf. pose proof endWord_bounds as He.
  set (w := nth (Z.to_nat wi) bits 0).
  rewrite (bitPositions_clip 64
             (Z.to_nat (Z.max begin (64 * wi) - 64 * wi))
             (Z.to_nat (Z.min end_ (64 * (wi + 1)) - 64 * wi))
             (64 * wi) w).
  - replace (64 * wi + Z.of_nat (Z.to_nat (Z.max begin (64 * wi) - 64 * wi)))
      with (Z.max begin (64 * wi)) by lia.
    replace (64 * wi + Z.of_nat (Z.to_nat (Z.min end_ (64 * (wi + 1)) - 64 * wi)))
      with (Z.min end_ (64 * (wi + 1))) by lia.
    apply filter_ext_in. intros k Hk. apply zrange_In in Hk.
    apply bitAt_word. lia.
  - lia.
  - intros i Hi. apply effectiveWord_bits; assumption.
Qed.

(** How a round of the loop ends, by the word it extracts from. *)
Lemma scanWord_cases (wi w : Z) (st : ScanState) :
  readAt bits wi = Some w ->
  let ew := effectiveWord begin end_ endWord firstWord wi w in
  (ew = 0 ->
   scanWord batch bits begin end_ endWord firstWord wi st
     = Some (Continue (nextRow st)) \/
   (scanWord batch bits begin end_ endWord firstWord wi st = Some (Break st) /\
    wi = endWord - 1)) /\
  (ew <> 0 ->
   scanWord batch bits begin end_ endWord firstWord wi st = extractWord batch ew st).
Proof.
  intros Hread. unfold scanWord, effectiveWord, extractWord.
  rewrite Hread. cbn [bind]. cbv zeta.
  set (inFirst := (wi =? firstWord) && negb (begin =? firstWord * 64)).
  set (w1 := if inFirst
             then Z.land w (bits.highMask (64 - (begin - firstWord * 64)))
             else w).
  set (inLast := (wi =? endWord - 1) && (end_ - (endWord - 1) * 64 <? 64)).
  set (w2 := if inLast then Z.land w1 (bits.lowMask (end_ - (endWord - 1) * 64)) else w1).
  assert (F1 : w = 0 -> w1 = 0).
  { intros ->. subst w1. destruct inFirst; [apply Z.land_0_l | reflexivity]. }
  assert (F2 : w1 = 0 -> w2 = 0).
  { intros E. subst w2. rewrite E. destruct inLast; [apply Z.land_0_l | reflexivity]. }
  assert (F3 : inFirst = false -> w1 = w) by (intros E; subst w1; now rewrite E).
  assert (F4 : inLast = false -> w2 = w1) by (intros E; subst w2; now rewrite E).
  assert (F5 : inLast = true -> wi = endWord - 1).
  { intros E. subst inLast. apply andb_prop in E as [E _]. now apply Z.eqb_eq in E. }
  clearbody w1 w2 inFirst inLast.
  split.
  - intros E2.
    destruct (Z.eqb_spec w 0) as [E0|N0]; [now left|].
    destruct (Z.eqb_spec w1 0) as [E1|N1].
    + destruct inFirst; cbn [andb]; [now left|]. exfalso. apply N0.
      rewrite <- F3 by reflexivity. exact E1.
    + rewrite andb_false_r. destruct inLast; cbn [andb].
      * rewrite E2. cbn. right. split; [reflexivity | now apply F5].
      * exfalso. apply N1. rewrite <- F4 by reflexivity. exact E2.
  - intros N2.
    assert (N1 : w1 <> 0) by (intros E; apply N2, F2, E).
    assert (N0 : w <> 0) by (intros E; apply N1, F1, E).
    destruct (Z.eqb_spec w 0); [contradiction|].
    destruct (Z.eqb_spec w1 0); [contradiction|].
    destruct (Z.eqb_spec w2 0); [contradiction|].
    rewrite !andb_false_r. reflexivity.
Qed.

Lemma readAt_word (wi : Z) :
  firstWord <= wi < endWord -> readAt bits wi = Some (nth (Z.to_nat wi) bits 0).
Proof.
  intros Hwi. pose proof firstWord_bounds as Hf. pose proof endWord_bounds as He.
  assert (0 <= firstWord) by (unfold firstWord; apply Z.div_pos; lia).
  unfold readAt. destruct (Z.ltb_spec wi 0); [lia|].
  apply nth_error_nth'. lia.
Qed.

(** One round of the loop: the positions of the word that lie in the range
    are appended, or the loop is left at the last word with nothing to
    append. *)
Lemma scanWord_ok (wi : Z) (st : ScanState) :
  firstWord <= wi < endWord -> row st = 64 * wi ->
  (pos st
   + length (filter (bitAt bits)
               (zrange (Z.max begin (64 * wi)) (Z.min end_ (64 * (wi + 1)))))
   + slack <= length (res st))%nat ->
  (exists st',
     scanWord batch bits begin end_ endWord firstWord wi st = Some (Continue st') /\
     row st' = 64 * (wi + 1) /\
     Emits slack (res st) (pos st) (res st') (pos st')
       (filter (bitAt bits)
          (zrange (Z.max begin (64 * wi)) (Z.min end_ (64 * (wi + 1)))))) \/
  (scanWord batch bits begin end_ endWord firstWord wi st = Some (Break st) /\
   filter (bitAt bits)
     (zrange (Z.max begin (64 * wi)) (Z.min end_ (64 * (wi + 1)))) = [] /\
   wi = endWord - 1).
Proof.
  intros Hwi Hrow. rewrite (word_positions wi Hwi).
  pose proof (scanWord_cases wi _ st (readAt_word wi Hwi)) as Hcases.
  pose proof (effectiveWord_range wi _ (wordsOk_nth bits (Z.to_nat wi) words_ok)) as Hrange.
  cbv zeta in Hcases.
  set (ew := effectiveWord begin end_ endWord firstWord wi (nth (Z.to_nat wi) bits 0)) in *.
  clearbody ew. destruct Hcases as [C0 C1]. intros Hcap.
  destruct (Z.eq_dec ew 0) as [E|N].
  - subst ew. rewrite bitPositions_zero. destruct (C0 eq_refl) as [Hc | [Hb Hl]].
    + left. exists (nextRow st). split; [exact Hc|]. split.
      * cbn [nextRow row]. lia.
      * cbn [nextRow res pos]. apply Emits_nil.
    + right. auto.
  - left. rewrite (C1 N). rewrite <- Hrow in Hcap |- *.
    destruct (extractWord_ok batch ew st ltac:(lia) Hcap) as (st' & E & Hr & Em).
    exists st'. split; [exact E|]. split; [lia | exact Em].
Qed.

Lemma rest_split (wi : Z) :
  firstWord <= wi < endWord ->
  setBitPositions bits (Z.max begin (64 * wi)) end_ =
  filter (bitAt bits) (zrange (Z.max begin (64 * wi)) (Z.min end_ (64 * (wi + 1))))
  ++ setBitPositions bits (Z.max begin (64 * (wi + 1))) end_.
Proof.
  intros Hwi. pose proof firstWord_bounds as Hf. pose proof endWord_bounds as He.
  unfold setBitPositions.
  rewrite (zrange_app (Z.max begin (64 * wi)) (Z.min end_ (64 * (wi + 1))) end_) by lia.
  rewrite filter_app. f_equal.
  destruct (Z.le_gt_cases (64 * (wi + 1)) end_) as [Hle|Hgt].
  - do 2 f_equal. lia.
  - rewrite !zrange_nil by lia. reflexivity.
Qed.

Lemma rest_last : setBitPositions bits (Z.max begin (64 * endWord)) end_ = [].
Proof.
  pose proof endWord_bounds as He. unfold setBitPositions.
  rewrite zrange_nil by lia. reflexivity.
Qed.

(** The loop over the words appends the positions that are left. *)
Lemma scanWords_ok (n : nat) :
  forall (wi : Z) (st : ScanState),
  firstWord <= wi -> wi + Z.of_nat n = endWord -> row st = 64 * wi ->
  (pos st + length (setBitPositions bits (Z.max begin (64 * wi)) end_) + slack
   <= length (res st))%nat ->
  exists st',
    scanWords batch bits begin end_ endWord firstWord n wi st = Some st' /\
    Emits slack (res st) (pos st) (res st') (pos st')
      (setBitPositions bits (Z.max begin (64 * wi)) end_).
Proof.
  induction n as [|n IH]; intros wi st Hwi Hn Hrow Hcap.
  - replace wi with endWord by lia. rewrite rest_last.
    exists st. split; [reflexivity | apply Emits_nil].
  - rewrite (rest_split wi ltac:(lia)) in Hcap |- *. rewrite length_app in Hcap.
    cbn [scanWords].
    destruct (scanWord_ok wi st ltac:(lia) Hrow ltac:(lia))
      as [(st1 & E1 & Hrow1 & Em1) | (E1 & Hnil & Hlast)].
    + rewrite E1. cbn [bind].
      assert (L1 : length (res st1) = length (res st)) by apply Em1.
      assert (P1 : pos st1 = (pos st + length (filter (bitAt bits)
                     (zrange (Z.max begin (64 * wi)) (Z.min end_ (64 * (wi + 1))))))%nat)
        by apply Em1.
      destruct (IH (wi + 1) st1 ltac:(lia) ltac:(lia) Hrow1 ltac:(lia))
        as (st' & E' & Em').
      exists st'. split; [exact E'|]. eapply Emits_app; eassumption.
    + rewrite E1. cbn [bind]. exists st. split; [reflexivity|].
      rewrite Hnil. replace (wi + 1) with endWord by lia. rewrite rest_last.
      apply Emits_nil.
Qed.

(** The scan returns the positions of the set bits of the range, written
    from the start of the output, and touches at most [slack] entries after
    them. *)
Lemma indicesOfSetBits_emits (result : list Z) :
  (length (setBitPositions bits begin end_) + slack <= length result)%nat ->
  exists result',
    indicesOfSetBits batch bits begin end_ result =
      Some (result', Z.of_nat (length (setBitPositions bits begin end_))) /\
    Emits slack result 0 result' (length (setBitPositions bits begin end_))
      (setBitPositions bits begin end_).
Proof.
  intros Hcap. pose proof firstWord_bounds as Hf. pose proof endWord_bounds as He.
  unfold indicesOfSetBits. destruct (Z.leb_spec end_ begin); [lia|]. cbv zeta.
  rewrite row_begin, endWord_quot, firstWord_quot.
  assert (Hlo : Z.max begin (64 * firstWord) = begin) by lia.
  destruct (scanWords_ok (Z.to_nat (endWord - firstWord)) firstWord
              (mkScan (64 * firstWord) result 0) ltac:(lia) ltac:(lia) eq_refl
              ltac:(cbn [row res pos]; rewrite Hlo; lia))
    as (st' & E & Em).
  rewrite E. cbn [bind]. rewrite Hlo in Em. cbn [row res pos] in Em.
  assert (P : pos st' = length (setBitPositions bits begin end_)) by apply Em.
  exists (res st'). rewrite P in *. split; [reflexivity | exact Em].
Qed.

End ScanCorrect.

(** ** indicesOfSetBits: the statements *)

Lemma setBitPositions_In (bits : list Z) (begin end_ k : Z) :
  In k (setBitPositions bits begin end_) <-> begin <= k < end_ /\ bitAt bits k = true.
Proof. unfold setBitPositions. rewrite filter_In, zrange_In. reflexivity. Qed.

Lemma indicesOfSetBits_empty (batch : IndexBatch) (bits : list Z)
  (begin end_ : Z) (result : list Z) :
  end_ <= begin -> indicesOfSetBits batch bits begin end_ result = Some (result, 0).
Proof.
  intros H. unfold indicesOfSetBits. destruct (Z.leb_spec end_ begin); [reflexivity | lia].
Qed.

(** The scan on any range [0 <= begin <= end_] of a bitmap that covers it,
    with an output that has the slack of a batch. *)
Lemma indicesOfSetBits_run (batch : IndexBatch) (bits : list Z)
  (begin end_ : Z) (result : list Z) :
  0 <= begin <= end_ -> end_ <= 2 ^ 31 - 64 ->
  wordsOk bits = true -> end_ <= 64 * Z.of_nat (length bits) ->
  (length (setBitPositions bits begin end_) + (batchSize batch - 1)
   <= length result)%nat ->
  exists result',
    indicesOfSetBits batch bits begin end_ result =
      Some (result', Z.of_nat (length (setBitPositions bits begin end_))) /\
    Emits (batchSize batch - 1) result 0 result'
      (length (setBitPositions bits begin end_))
      (setBitPositions bits begin end_).
Proof.
  intros Hb He Hw Hc Hcap.
  destruct (Z.eq_dec begin end_) as [<-|Hne].
  - exists result. rewrite indicesOfSetBits_empty by lia.
    unfold setBitPositions. rewrite zrange_nil by lia. cbn [filter length].
    split; [reflexivity | apply Emits_nil].
  - apply indicesOfSetBits_emits; (lia || assumption).
Qed.

(** X25.  For a bitmap of 64-bit words that covers the positions up to
    [end_] and [0 <= begin <= end_ <= 2^31 - 64], [indicesOfSetBits] returns
    the number of
    set bits in [[begin, end_)] and leaves their absolute positions, in
    strictly increasing order, in the first entries of the output; when
    [end_ <= begin] it returns 0 and leaves the output as it was.  (The
    output has room for the positions and the slack of one batch, and
    [end_ + 63] is an [int32_t].) *)
Theorem indicesOfSetBits_positions (batch : IndexBatch) (bits : list Z)
  (begin end_ : Z) (result : list Z) :
  (0 <= begin <= end_ -> end_ <= 2 ^ 31 - 64 ->
   wordsOk bits = true -> end_ <= 64 * Z.of_nat (length bits) ->
   (length (setBitPositions bits begin end_) + (batchSize batch - 1)
    <= length result)%nat ->
   exists result',
     indicesOfSetBits batch bits begin end_ result =
       Some (result', Z.of_nat (length (setBitPositions bits begin end_))) /\
     length result' = length result /\
     firstn (length (setBitPositions bits begin end_)) result'
       = setBitPositions bits begin end_ /\
     StronglySorted Z.lt (setBitPositions bits begin end_) /\
     (forall k, In k (setBitPositions bits begin end_)
                <-> begin <= k < end_ /\ bitAt bits k = true)) /\
  (end_ <= begin ->
   indicesOfSetBits batch bits begin end_ result = Some (result, 0)).
Proof.
  split.
  - intros Hb He Hw Hc Hcap.
    destruct (indicesOfSetBits_run batch bits begin end_ result Hb He Hw Hc Hcap)
      as (result' & E & _ & Hlen & Hfirst & _).
    exists result'. split; [exact E|]. split; [exact Hlen|]. split; [exact Hfirst|].
    split; [apply setBitPositions_sorted|]. intros k. apply setBitPositions_In.
  - apply indicesOfSetBits_empty.
Qed.

Lemma indicesOfSetBits_positions_witness :
  exists result',
    indicesOfSetBits Batch8 [11] 0 4 (repeat (-1) 10) = Some (result', 3) /\
    length result' = 10%nat /\
    firstn 3 result' = [0; 1; 3] /\
    StronglySorted Z.lt [0; 1; 3] /\
    (forall k, In k [0; 1; 3] <-> 0 <= k < 4 /\ bitAt [11] k = true).
Proof.
  apply (proj1 (indicesOfSetBits_positions Batch8 [11] 0 4 (repeat (-1) 10))).
  - lia.
  - lia.
  - reflexivity.
  - cbn [length]. lia.
  - vm_compute. lia.
Defined.

Lemma forallb_repeat {A : Type} (f : A -> bool) (a : A) (n : nat) :
  f a = true -> forallb f (repeat a n) = true.
Proof.
  intros H. induction n as [|n IH]; cbn [repeat forallb]; [reflexivity|].
  now rewrite H, IH.
Qed.

(** C2.  [indicesOfSetBits] on a range that ends within 63 positions of the
    largest [int32_t]: [bits::roundUp(end, 64)] is computed in [int32_t],
    [2147483647 + 63] does not fit and the rounded value is negative, so
    [endWord] is negative, the loop over the words is not entered and the
    call returns 0 with the output as it was, whatever the bitmap holds.  For
    the bitmap of [2^25] words equal to 1, which covers the range, positions
    0 and 64 are set bits of the range, and the claim asks for them and for
    their count. *)
Theorem indicesOfSetBits_end_overflow :
  bits.roundUp 2147483647 64 = -2147483584 /\
  (forall batch bits result,
     indicesOfSetBits batch bits 0 2147483647 result = Some (result, 0)) /\
  (let bits := repeat 1 (Z.to_nat 33554432) in
   wordsOk bits = true /\
   2147483647 <= 64 * Z.of_nat (length bits) /\
   In 0 (setBitPositions bits 0 2147483647) /\
   In 64 (setBitPositions bits 0 2147483647)).
Proof.
  split; [vm_compute; reflexivity|]. split.
  - intros batch bits result. unfold indicesOfSetBits.
    replace (2147483647 <=? 0) with false by reflexivity. cbv zeta.
    replace (Z.to_nat (Z.quot (bits.roundUp 2147483647 64) 64 - Z.quot 0 64))
      with 0%nat by (vm_compute; reflexivity).
    cbn [scanWords bind res pos Z.of_nat]. reflexivity.
  - intros bits. split; [|split; [|split]].
    + unfold wordsOk, bits. apply forallb_repeat. reflexivity.
    + unfold bits. rewrite repeat_length, Z2Nat.id by lia. lia.
    + apply setBitPositions_In. split; [lia|]. unfold bitAt, bits.
      change (Z.to_nat (0 / 64)) with 0%nat. change (0 mod 64) with 0.
      rewrite nth_repeat_lt by lia. reflexivity.
    + apply setBitPositions_In. split; [lia|]. unfold bitAt, bits.
      change (Z.to_nat (64 / 64)) with 1%nat. change (64 mod 64) with 0.
      rewrite nth_repeat_lt by lia. reflexivity.
Qed.

(** The byte-wise strategy on 4 lanes: the store for the low nibble and the
    store for the high nibble, each a full batch. *)
Lemma denseByte4_stores (byte : Z) (st : ScanState) :
  0 < byte < 256 ->
  (pos st + popcount byte + 3 <= length (res st))%nat ->
  let lo := Z.land byte (Z.shiftl 1 4 - 1) in
  let hi := Z.shiftr byte 4 in
  let store := fun (r : list Z) (p off : nat) =>
    spliced r p
      (map (fun index => index + row st) (firstn 4 (skipn off (byteSetBits byte)))) in
  let res1 := if lo =? 0 then res st else store (res st) (pos st) 0%nat in
  let res2 := if hi =? 0 then res1
              else store res1 (pos st + popcount lo)%nat (popcount lo) in
  denseByte Batch4 byte st = Some (mkScan (row st) res2 (pos st + popcount byte)).
Proof.
  intros Hb Hcap lo hi store res1 res2.
  destruct (byteRow_facts byte ltac:(lia)) as (Hlen & _ & _ & Hsum & Hlo & Hhi & _).
  fold lo in Hsum, Hlo. fold hi in Hsum, Hhi.
  assert (Hlo0 : lo = 0 -> popcount lo = 0%nat) by (intros ->; reflexivity).
  assert (Hhi0 : hi = 0 -> popcount hi = 0%nat) by (intros ->; reflexivity).
  assert (Hlonn : 0 <= lo) by (apply Z.land_nonneg; lia).
  assert (Hhinn : 0 <= hi) by (apply Z.shiftr_nonneg; lia).
  pose proof (popcount_ge_1 byte ltac:(lia)) as Hc.
  unfold denseByte. fold lo. fold hi.
  assert (L1 : length res1 = length (res st)).
  { unfold res1, store. destruct (lo =? 0); [reflexivity|].
    apply spliced_length. rewrite length_map, length_firstn, length_skipn. lia. }
  assert (E1 :
    (if lo =? 0 then Some (st, 0%nat)
     else result <- storeIndices 4 (byteSetBits byte) 0 st ;;
          Some (mkScan (row st) result (pos st + popcount lo), popcount lo))
    = Some (mkScan (row st) res1 (pos st + popcount lo), popcount lo)).
  { unfold res1, store. destruct (Z.eqb_spec lo 0) as [E|E].
    - rewrite (Hlo0 E), Nat.add_0_r. now destruct st.
    - rewrite storeIndices_ok by lia. reflexivity. }
  rewrite E1. cbn [bind]. unfold res2, store.
  destruct (Z.eqb_spec hi 0) as [E|E].
  - rewrite <- Hsum, (Hhi0 E), Nat.add_0_r. reflexivity.
  - pose proof (popcount_ge_1 hi ltac:(lia)).
    rewrite storeIndices_ok by (cbn [row res pos]; lia).
    cbn [bind row res pos]. rewrite <- Hsum, Nat.add_assoc. reflexivity.
Qed.

Lemma storeIndices_no_room (lanes off : nat) (indices : list Z) (st : ScanState) :
  (off + lanes <= length indices)%nat ->
  (length (res st) < pos st + lanes)%nat ->
  storeIndices lanes indices off st = None.
Proof.
  intros Hi Hr. unfold storeIndices, loadLanes.
  destruct (Nat.leb_spec (off + lanes) (length indices)); [|lia]. cbn [bind].
  unfold storeLanes. rewrite length_map, length_firstn, length_skipn.
  destruct (Nat.leb_spec (pos st + Nat.min lanes (length indices - off)) (length (res st)));
    [lia | reflexivity].
Qed.

(** Without room for a full batch at the write pointer the store of a nonzero
    byte leaves the output. *)
Lemma denseByte_no_room (batch : IndexBatch) (byte : Z) (st : ScanState) :
  0 < byte < 256 ->
  (length (res st) < pos st + batchSize batch)%nat ->
  denseByte batch byte st = None.
Proof.
  intros Hb Hroom.
  destruct (byteRow_facts byte ltac:(lia)) as (Hlen & _ & _ & Hsum & Hlo & Hhi & _).
  pose proof (popcount_ge_1 byte ltac:(lia)) as Hc.
  destruct batch; cbn [batchSize] in Hroom; unfold denseByte.
  - rewrite storeIndices_no_room by lia. reflexivity.
  - set (lo := Z.land byte (Z.shiftl 1 4 - 1)) in *.
    set (hi := Z.shiftr byte 4) in *.
    destruct (Z.eqb_spec lo 0) as [E|E].
    + cbn [bind].
      destruct (Z.eqb_spec hi 0) as [E'|E'].
      * rewrite E, E' in Hsum. cbn [popcount] in Hsum. lia.
      * rewrite storeIndices_no_room by lia. reflexivity.
    + rewrite storeIndices_no_room by lia. reflexivity.
Qed.

(** C9.  [indicesOfSetBits] writes past the entries it returns.  On a
    nonzero byte the byte-wise strategy stores a full batch of entries at the
    write pointer and moves the pointer by a popcount only: with 8 lanes one
    batch of 8 for the byte, with 4 lanes one batch of 4 for a nonzero low
    nibble and one for a nonzero high nibble; the entries stored beyond the
    popcount overwrite what the output held.  Without room for a full batch
    at the write pointer the store leaves the output buffer.  With the slack
    of one batch after the positions the call succeeds and leaves every entry
    from [count + batchSize - 1] on as it was.  For the bitmap word 1 the 7
    (or, with 4 lanes, 3) entries after the single result are overwritten,
    and with an output of exactly one entry there is no result. *)
Theorem indicesOfSetBits_overwrites_slack :
  (forall byte st, 0 < byte < 256 -> (pos st + 8 <= length (res st))%nat ->
     denseByte Batch8 byte st =
     Some (mkScan (row st)
             (spliced (res st) (pos st)
                (map (fun index => index + row st) (byteSetBits byte)))
             (pos st + popcount byte))) /\
  (forall byte st, 0 < byte < 256 ->
     (pos st + popcount byte + 3 <= length (res st))%nat ->
     let lo := Z.land byte (Z.shiftl 1 4 - 1) in
     let hi := Z.shiftr byte 4 in
     let store := fun (r : list Z) (p off : nat) =>
       spliced r p
         (map (fun index => index + row st)
              (firstn 4 (skipn off (byteSetBits byte)))) in
     let res1 := if lo =? 0 then res st else store (res st) (pos st) 0%nat in
     let res2 := if hi =? 0 then res1
                 else store res1 (pos st + popcount lo)%nat (popcount lo) in
     denseByte Batch4 byte st = Some (mkScan (row st) res2 (pos st + popcount byte))) /\
  (forall batch byte st, 0 < byte < 256 ->
     (length (res st) < pos st + batchSize batch)%nat ->
     denseByte batch byte st = None) /\
  (forall batch bits begin end_ result,
     0 <= begin <= end_ -> end_ <= 2 ^ 31 - 64 ->
     wordsOk bits = true -> end_ <= 64 * Z.of_nat (length bits) ->
     (length (setBitPositions bits begin end_) + (batchSize batch - 1)
      <= length result)%nat ->
     exists result' count,
       indicesOfSetBits batch bits begin end_ result = Some (result', count) /\
       count = Z.of_nat (length (setBitPositions bits begin end_)) /\
       skipn (Z.to_nat count + (batchSize batch - 1)) result'
         = skipn (Z.to_nat count + (batchSize batch - 1)) result) /\
  indicesOfSetBits Batch8 [1] 0 64 (repeat (-1) 8)
    = Some ([0; 1; 2; 3; 4; 5; 6; 7], 1) /\
  indicesOfSetBits Batch8 [1] 0 64 [-1] = None /\
  indicesOfSetBits Batch4 [1] 0 64 (repeat (-1) 4) = Some ([0; 1; 2; 3], 1) /\
  indicesOfSetBits Batch4 [1] 0 64 [-1] = None.
Proof.
  split; [|split; [|split; [|split]]].
  - intros byte st Hb Hcap. unfold denseByte.
    rewrite storeIndices_ok by (rewrite ?byteSetBits_length; lia).
    cbn [bind skipn]. rewrite firstn_all2 by (rewrite byteSetBits_length; lia).
    reflexivity.
  - intros byte st Hb Hcap. apply denseByte4_stores; assumption.
  - intros batch byte st Hb Hroom. apply denseByte_no_room; assumption.
  - intros batch bits begin end_ result Hb He Hw Hc Hcap.
    destruct (indicesOfSetBits_run batch bits begin end_ result Hb He Hw Hc Hcap)
      as (result' & E & _ & _ & _ & Hskip).
    exists result', (Z.of_nat (length (setBitPositions bits begin end_))).
    split; [exact E|]. split; [reflexivity|]. rewrite Nat2Z.id. exact Hskip.
  - repeat (split; [vm_compute; reflexivity|]). vm_compute. reflexivity.
Qed.

Lemma indicesOfSetBits_overwrites_slack_witness :
  denseByte Batch4 1 (mkScan 64 (repeat (-1) 7) 1)
    = Some (mkScan 64 [-1; 64; 65; 66; 67; -1; -1] 2) /\
  denseByte Batch8 1 (mkScan 0 [-1] 0) = None /\
  (exists result' count,
     indicesOfSetBits Batch4 [0xF0F1; 0x8000000000000001; 5] 3 131 (repeat (-1) 20)
       = Some (result', count) /\
     count = 12 /\
     skipn (Z.to_nat count + 3) result' = repeat (-1) 5).
Proof.
  pose proof indicesOfSetBits_overwrites_slack as (_ & H4 & Hno & Hframe & _).
  split; [|split].
  - apply (H4 1 (mkScan 64 (repeat (-1) 7) 1)).
    + lia.
    + vm_compute. lia.
  - apply (Hno Batch8 1 (mkScan 0 [-1] 0)).
    + lia.
    + vm_compute. lia.
  - destruct (Hframe Batch4 [0xF0F1; 0x8000000000000001; 5] 3 131 (repeat (-1) 20))
      as (result' & count & E & Ec & Hskip).
    + lia.
    + lia.
    + vm_compute. reflexivity.
    + cbn [length]. lia.
    + vm_compute. lia.
    + exists result', count. split; [exact E|]. split; [exact Ec|].
      change (batchSize Batch4 - 1)%nat with 3%nat in Hskip.
      rewrite Hskip, Ec. vm_compute. reflexivity.
Defined.

(** ** Masks as integers *)

Lemma maskBits_range (mask : list bool) :
  0 <= maskBits mask < 2 ^ Z.of_nat (length mask).
Proof.
  induction mask as [|b t IH]; [cbn; lia|].
  cbn [maskBits fold_right length]. fold (maskBits t).
  rewrite Nat2Z.inj_succ, Z.pow_succ_r by lia.
  destruct b; cbn [Z.b2z]; lia.
Qed.

Lemma maskBits_testbit (mask : list bool) (i : nat) :
  Z.testbit (maskBits mask) (Z.of_nat i) = nth i mask false.
Proof.
  revert i. induction mask as [|b t IH]; intros i.
  - cbn [maskBits fold_right]. rewrite Z.bits_0. now destruct i.
  - cbn [maskBits fold_right]. fold (maskBits t). destruct i as [|i].
    + cbn [nth Z.of_nat]. rewrite Z.add_comm, Z.testbit_0_r. reflexivity.
    + cbn [nth]. rewrite Nat2Z.inj_succ, Z.add_comm, Z.testbit_succ_r by lia.
      apply IH.
Qed.

Lemma maskOf_maskBits (mask : list bool) :
  maskOf (length mask) (maskBits mask) = mask.
Proof.
  apply nth_ext with (d := false) (d' := false).
  - unfold maskOf, lanes. now rewrite length_map, length_seq.
  - intros i Hi. unfold maskOf, lanes in Hi. rewrite length_map, length_seq in Hi.
    unfold maskOf. rewrite nth_map_lanes by exact Hi. apply maskBits_testbit.
Qed.

Lemma maskOf_nth (N : nat) (m : Z) (i : nat) :
  (i < N)%nat -> nth i (maskOf N m) false = Z.testbit m (Z.of_nat i).
Proof. intros H. unfold maskOf. now rewrite nth_map_lanes. Qed.

Lemma prefixMask_maskOf (N k : nat) :
  (k <= N)%nat -> prefixMask N k = maskOf N (2 ^ Z.of_nat k - 1).
Proof.
  intros Hk. apply nth_ext with (d := false) (d' := false).
  - rewrite prefixMask_length by exact Hk.
    unfold maskOf, lanes. now rewrite length_map, length_seq.
  - rewrite prefixMask_length by exact Hk. intros i Hi.
    rewrite prefixMask_nth, maskOf_nth by assumption.
    replace (2 ^ Z.of_nat k - 1) with (Z.ones (Z.of_nat k))
      by (rewrite Z.ones_equiv; lia).
    rewrite Z.testbit_ones_nonneg by lia.
    destruct (Nat.ltb_spec i k), (Z.ltb_spec (Z.of_nat i) (Z.of_nat k)); auto; lia.
Qed.

Lemma leadingMask_eq (N : nat) (n : Z) :
  0 <= n -> leadingMask N n = Some (prefixMask N (Nat.min (Z.to_nat n) N)).
Proof.
  intros Hn. unfold leadingMask, leadingMaskWith, lookupMask.
  destruct (Z.geb_spec n (Z.of_nat N)) as [Hge|Hlt].
  - f_equal. replace (Nat.min (Z.to_nat n) N) with N by lia.
    unfold prefixMask. now rewrite Nat.sub_diag, app_nil_r.
  - destruct (Z.ltb_spec n 0); [lia|].
    rewrite leadingMask_kMemo_eq. unfold lanes. rewrite nth_error_map_seq by lia.
    f_equal. f_equal. lia.
Qed.

(** The loop of [genericToBitMask] after [k] lanes holds the low [k] bits. *)
Lemma genericToBitMask_prefix (N : nat) (m : Z) (k : nat) :
  (k <= N)%nat -> (N <= 31)%nat ->
  fold_left
    (fun ans i =>
       Z.lor ans (wrapS 32 (Z.shiftl (Z.b2z (nth i (maskOf N m) false)) (Z.of_nat i))))
    (lanes k) 0 = m mod 2 ^ Z.of_nat k.
Proof.
  intros Hk HN. induction k as [|k IH].
  - simpl. now rewrite Z.mod_1_r.
  - rewrite lanes_S, fold_left_app, IH by lia. cbn [fold_left].
    rewrite maskOf_nth by lia.
    rewrite Nat2Z.inj_succ, <- Z.add_1_r.
    destruct (Z.testbit m (Z.of_nat k)) eqn:E; cbn [Z.b2z].
    + rewrite Z.shiftl_1_l.
      pose proof (pow2_le_mono (Z.of_nat k) 30 ltac:(lia)) as P.
      change (2 ^ 30) with 1073741824 in P.
      assert (0 < 2 ^ Z.of_nat k) by (apply Z.pow_pos_nonneg; lia).
      rewrite wrapS_small
        by (try lia; change (2 ^ (32 - 1)) with 2147483648; lia).
      apply mod_pow2_succ_set; [lia | exact E].
    + rewrite Z.shiftl_0_l. change (wrapS 32 0) with 0. rewrite Z.lor_0_r.
      apply mod_pow2_succ_clear; [lia | exact E].
Qed.

Lemma genericToBitMask_maskBits (mask : list bool) :
  (length mask <= 31)%nat -> genericToBitMask (length mask) mask = maskBits mask.
Proof.
  intros HN. pose proof (maskOf_maskBits mask) as E.
  pose proof (maskBits_range mask) as R.
  transitivity (genericToBitMask (length mask) (maskOf (length mask) (maskBits mask))).
  - now rewrite E.
  - unfold genericToBitMask. rewrite genericToBitMask_prefix by lia.
    apply Z.mod_small. exact R.
Qed.

Lemma toBitMask_maskBits (mask : list bool) :
  (length mask <= 8)%nat -> toBitMask (length mask) mask = maskBits mask.
Proof.
  intros HN. pose proof (maskOf_maskBits mask) as E.
  transitivity (toBitMask (length mask) (maskOf (length mask) (maskBits mask))).
  - now rewrite E.
  - apply toBitMask_maskOf; [exact HN | apply maskBits_range].
Qed.

(** X1.  The round trip in the other direction: for a lane count [N <= 8]
    and any mask of [N] lanes, [fromBitMask (toBitMask mask)] is that mask, so
    [toBitMask] loses nothing; its value lies in [[0, 2^N)] and its bit [i]
    is lane [i]. *)
Theorem fromBitMask_toBitMask_roundtrip (N : nat) (mask : list bool) :
  (N <= 8)%nat -> length mask = N ->
  fromBitMask N (toBitMask N mask) = Some mask /\
  0 <= toBitMask N mask < 2 ^ Z.of_nat N /\
  (forall i, Z.testbit (toBitMask N mask) (Z.of_nat i) = nth i mask false).
Proof.
  intros HN HL. subst N. rewrite toBitMask_maskBits by exact HN.
  split; [|split].
  - rewrite fromBitMask_maskOf by (try exact HN; apply maskBits_range).
    now rewrite maskOf_maskBits.
  - apply maskBits_range.
  - intros i. apply maskBits_testbit.
Qed.

Lemma fromBitMask_toBitMask_roundtrip_witness :
  fromBitMask 4 (toBitMask 4 [true; false; true; true])
  = Some [true; false; true; true].
Proof.
  exact (proj1 (fromBitMask_toBitMask_roundtrip 4 [true; false; true; true]
                  ltac:(lia) eq_refl)).
Defined.

(** X2.  [genericToBitMask] on a mask of [N <= 31] lanes returns the integer
    in [[0, 2^N)] whose bit [i] is lane [i]; for [N <= 8] it is the value
    [BitMask::toBitMask] returns, and [fromBitMask] maps it back to the
    mask. *)
Theorem genericToBitMask_bits (N : nat) (mask : list bool) :
  (N <= 31)%nat -> length mask = N ->
  0 <= genericToBitMask N mask < 2 ^ Z.of_nat N /\
  (forall i, Z.testbit (genericToBitMask N mask) (Z.of_nat i) = nth i mask false) /\
  ((N <= 8)%nat ->
   genericToBitMask N mask = toBitMask N mask /\
   fromBitMask N (genericToBitMask N mask) = Some mask).
Proof.
  intros HN HL. subst N. rewrite genericToBitMask_maskBits by exact HN.
  split; [|split].
  - apply maskBits_range.
  - intros i. apply maskBits_testbit.
  - intros H8. rewrite toBitMask_maskBits by exact H8. split; [reflexivity|].
    rewrite fromBitMask_maskOf by (try exact H8; apply maskBits_range).
    now rewrite maskOf_maskBits.
Qed.

Lemma genericToBitMask_bits_witness :
  0 <= genericToBitMask 4 [true; false; true; true] < 2 ^ 4 /\
  genericToBitMask 4 [true; false; true; true]
  = toBitMask 4 [true; false; true; true].
Proof.
  pose proof (genericToBitMask_bits 4 [true; false; true; true]
                ltac:(lia) eq_refl) as [R [_ A]].
  split; [exact R | exact (proj1 (A ltac:(lia)))].
Defined.

(** X3.  For [N <= 8] lanes and [n >= 0], the bitmask of [leadingMask n] is
    [2^min(n, N) - 1], the [min(n, N)] low bits; from [n = N] on it is
    [kAllSet]. *)
Theorem leadingMask_toBitMask (N : nat) (n : Z) :
  (N <= 8)%nat -> 0 <= n ->
  exists mask,
    leadingMask N n = Some mask /\
    toBitMask N mask = 2 ^ Z.min n (Z.of_nat N) - 1 /\
    (Z.of_nat N <= n -> toBitMask N mask = kAllSet N).
Proof.
  intros HN Hn. eexists. split; [apply leadingMask_eq; exact Hn|].
  set (k := Nat.min (Z.to_nat n) N).
  assert (Hk : (k <= N)%nat) by (unfold k; lia).
  assert (E : Z.min n (Z.of_nat N) = Z.of_nat k) by (unfold k; lia).
  assert (V : toBitMask N (prefixMask N k) = 2 ^ Z.of_nat k - 1).
  { rewrite prefixMask_maskOf by exact Hk.
    apply toBitMask_maskOf; [exact HN|].
    pose proof (pow2_le_mono (Z.of_nat k) (Z.of_nat N) ltac:(lia)).
    assert (0 < 2 ^ Z.of_nat k) by (apply Z.pow_pos_nonneg; lia). lia. }
  split.
  - rewrite E. exact V.
  - intros Hge. rewrite V, kAllSet_eq by exact HN. f_equal. f_equal. unfold k. lia.
Qed.

Lemma leadingMask_toBitMask_witness :
  exists mask, leadingMask 8 3 = Some mask /\ toBitMask 8 mask = 7.
Proof.
  destruct (leadingMask_toBitMask 8 3 ltac:(lia) ltac:(lia)) as [mask [L [V _]]].
  exists mask. split; [exact L | exact V].
Defined.

(** ** Permute and filter, composed *)

Lemma filter_all {A : Type} (p : A -> bool) (l : list A) :
  (forall x, In x l -> p x = true) -> filter p l = l.
Proof.
  induction l as [|a t IH]; intros H; cbn [filter]; [reflexivity|].
  rewrite (H a) by (left; reflexivity).
  rewrite IH by (intros x Hx; apply H; right; exact Hx). reflexivity.
Qed.

Lemma selectedLanes_all (data : list Z) (mask : Z) :
  (forall i, (i < length data)%nat -> Z.testbit mask (Z.of_nat i) = true) ->
  selectedLanes data mask = data.
Proof.
  intros H. unfold selectedLanes, setBitsOf.
  rewrite filter_all.
  - apply map_nth_lanes.
  - intros i Hi. apply in_seq in Hi. apply H. lia.
Qed.

(** Every variant of [filter] on a bitmask in [[0, 2^N)]. *)
Lemma filter_selected (v : FilterVariant) (data : list Z) (mask : Z) :
  (length data <= maxLanes v)%nat ->
  (v = Filter2 \/ 0 <= mask < 2 ^ Z.of_nat (length data)) ->
  exists result,
    simd.filter v data mask = Some result /\
    length result = length data /\
    firstn (length (selectedLanes data mask)) result = selectedLanes data mask.
Proof.
  intros HN Hm.
  assert (Hsel : (length (selectedLanes data mask) <= length data)%nat).
  { unfold selectedLanes. rewrite length_map. apply setBitsOf_length_le. }
  destruct v as [| |isBatch64|]; cbn [maxLanes] in HN; cbn [simd.filter].
  - eexists. split; [apply Filter2_apply_eq; lia|]. split.
    + rewrite length_app, repeat_length. lia.
    + rewrite firstn_app, firstn_all, Nat.sub_diag, firstn_O. apply app_nil_r.
  - destruct Hm as [Hm|Hm]; [discriminate|].
    destruct (Filter_table_rows data mask HN Hm)
      as (Hrow & Hload & Hperm & _ & _ & Hlen & Hfirst).
    eexists. split; [|split; [exact Hlen | exact Hfirst]].
    unfold Filter4_apply. rewrite Hrow. cbn [bind]. rewrite Hload. cbn [bind].
    unfold Permute4_apply, genericPermuteBatch.
    rewrite length_map, length_firstn, rowOf_length.
    destruct (Nat.leb_spec (Nat.min (length data) 8) (length data)); [|lia].
    exact Hperm.
  - destruct Hm as [Hm|Hm]; [discriminate|].
    destruct (Filter_table_rows data mask HN Hm)
      as (Hrow & Hload & Hperm & _ & Hperm64 & Hlen & Hfirst).
    eexists. split; [|split; [exact Hlen | exact Hfirst]].
    unfold Filter4_applyHalf. rewrite Hrow. cbn [bind]. rewrite Hload. cbn [bind].
    unfold Permute4_applyHalf, genericPermuteBatch. destruct isBatch64; [exact Hperm64|].
    rewrite length_map, length_firstn, rowOf_length.
    destruct (Nat.leb_spec (Nat.min (length data) 8) (length data)); [|lia].
    exact Hperm.
  - destruct Hm as [Hm|Hm]; [discriminate|].
    destruct (Filter_table_rows data mask HN Hm)
      as (Hrow & _ & _ & Hperm & _ & Hlen & Hfirst).
    eexists. split; [|split; [exact Hlen | exact Hfirst]].
    unfold Filter8_apply. rewrite Hrow. cbn [bind]. exact Hperm.
Qed.

Lemma kAllSet_bits (N i : nat) :
  (N <= 32)%nat -> (i < N)%nat -> Z.testbit (kAllSet N) (Z.of_nat i) = true.
Proof.
  intros HN Hi. unfold kAllSet. rewrite lowMask_eq by lia.
  destruct (Nat.eq_dec N 32) as [->|Hne].
  - change (wrapS 32 (2 ^ Z.of_nat 32 - 1)) with (-1). apply Z.bits_m1. lia.
  - pose proof (pow2_le_mono (Z.of_nat N) 31 ltac:(lia)) as P.
    assert (0 < 2 ^ Z.of_nat N) by (apply Z.pow_pos_nonneg; lia).
    rewrite wrapS_small by (change (2 ^ (32 - 1)) with (2 ^ 31); lia).
    replace (2 ^ Z.of_nat N - 1) with (Z.ones (Z.of_nat N))
      by (rewrite Z.ones_equiv; lia).
    apply Z.ones_spec_low. lia.
Qed.

Lemma selectedLanes_maskBits (data : list Z) (mask : list bool) :
  length mask = length data ->
  selectedLanes data (maskBits mask) = lanesWhere data mask.
Proof.
  unfold selectedLanes, setBitsOf, lanesWhere, lanes.
  revert mask. induction data as [|x d IH]; intros [|b m] HL; try discriminate.
  - reflexivity.
  - injection HL as HL. specialize (IH m HL).
    assert (E0 : Z.testbit (maskBits (b :: m)) (Z.of_nat 0) = b)
      by (rewrite maskBits_testbit; reflexivity).
    assert (ES : forall i, Z.testbit (maskBits (b :: m)) (Z.of_nat (S i))
                           = Z.testbit (maskBits m) (Z.of_nat i))
      by (intros i; rewrite !maskBits_testbit; reflexivity).
    cbn [length seq]. rewrite <- seq_shift. cbn [filter combine snd].
    rewrite E0, filter_map_comm.
    rewrite (filter_ext _ (fun i : nat => Z.testbit (maskBits m) (Z.of_nat i)))
      by exact ES.
    destruct b; cbn [map fst nth]; rewrite map_map; cbn [nth]; rewrite IH;
      reflexivity.
Qed.

(** X4.  [filter] with the bitmask [kAllSet] returns the batch unchanged, in
    every variant. *)
Theorem filter_allSet_identity (v : FilterVariant) (data : list Z) :
  (length data <= maxLanes v)%nat ->
  simd.filter v data (kAllSet (length data)) = Some data.
Proof.
  intros HN.
  assert (HN32 : (length data <= 32)%nat) by (destruct v; cbn in HN; lia).
  assert (Hall : selectedLanes data (kAllSet (length data)) = data).
  { apply selectedLanes_all. intros i Hi. apply kAllSet_bits; assumption. }
  destruct (filter_selected v data (kAllSet (length data)) HN) as (r & Hr & Hlen & Hfirst).
  - destruct v; [left; reflexivity | right | right | right]; cbn [maxLanes] in HN;
      rewrite kAllSet_eq by exact HN;
      (assert (0 < 2 ^ Z.of_nat (length data)) by (apply Z.pow_pos_nonneg; lia)); lia.
  - rewrite Hr. f_equal. rewrite Hall in Hfirst. rewrite <- Hlen in Hfirst.
    rewrite firstn_all in Hfirst. exact Hfirst.
Qed.

Lemma filter_allSet_identity_witness :
  simd.filter Filter8 [10; 20; 30; 40] (kAllSet 4) = Some [10; 20; 30; 40].
Proof.
  apply (filter_allSet_identity Filter8 [10; 20; 30; 40]). cbn. lia.
Defined.

(** X5.  Filtering by a lane mask: for a batch of [N <= 8] lanes and a mask
    of [N] lanes, [filter(data, toBitMask(mask))] starts with the lanes of
    [data] whose mask lane is true, in lane order, in every variant. *)
Theorem filter_toBitMask (v : FilterVariant) (data : list Z) (mask : list bool) :
  (length data <= 8)%nat -> length mask = length data ->
  exists result,
    simd.filter v data (toBitMask (length data) mask) = Some result /\
    length result = length data /\
    firstn (length (lanesWhere data mask)) result = lanesWhere data mask.
Proof.
  intros HN HL.
  replace (toBitMask (length data) mask) with (maskBits mask)
    by (rewrite <- HL; symmetry; apply toBitMask_maskBits; lia).
  rewrite <- (selectedLanes_maskBits data mask HL).
  apply filter_selected.
  - destruct v; cbn [maxLanes]; lia.
  - right. rewrite <- HL. apply maskBits_range.
Qed.

Lemma filter_toBitMask_witness :
  exists result,
    simd.filter Filter4 [10; 20; 30; 40] (toBitMask 4 [true; false; false; true])
    = Some result /\
    length result = 4%nat /\
    firstn 2 result = [10; 40].
Proof.
  apply (filter_toBitMask Filter4 [10; 20; 30; 40] [true; false; false; true]).
  - cbn. lia.
  - reflexivity.
Defined.

Lemma iota_lanes (N : nat) :
  (N <= 64)%nat -> iota 32 N = map Z.of_nat (lanes N).
Proof.
  intros HN. unfold iota. apply map_ext_in. intros i Hi. apply in_seq in Hi.
  apply wrapU_small. change (2 ^ 32) with 4294967296. lia.
Qed.

(** X6.  Permuting by [iota] is the identity: with the index batch
    [iota<int32_t>()] the full-width [genericPermute], [Permute<T, A, 4>] and
    the half-width [Batch64] variant all return [data]. *)
Theorem permute_iota_identity (data : list Z) (isBatch64 : bool) :
  (length data <= 64)%nat ->
  genericPermute data (iota 32 (length data)) = Some data /\
  Permute4_apply data (iota 32 (length data)) = Some data /\
  Permute4_applyHalf isBatch64 data (iota 32 (length data)) = Some data.
Proof.
  intros HN. rewrite iota_lanes by exact HN.
  assert (Hin : forall k, In k (lanes (length data)) -> (k < length data)%nat).
  { intros k Hk. apply in_seq in Hk. lia. }
  assert (HL : length (lanes (length data)) = length data)
    by (unfold lanes; apply length_seq).
  assert (P : genericPermute data (map Z.of_nat (lanes (length data))) = Some data).
  { rewrite (genericPermute_nat data _ (lanes (length data))).
    - now rewrite map_nth_lanes.
    - exact HL.
    - apply firstn_all2. rewrite length_map, HL. lia.
    - exact Hin. }
  assert (Q : genericPermuteBatch64 data (map Z.of_nat (lanes (length data))) = Some data).
  { rewrite genericPermuteBatch64_nat by assumption. now rewrite map_nth_lanes. }
  assert (B : genericPermuteBatch data (map Z.of_nat (lanes (length data))) = Some data).
  { unfold genericPermuteBatch. rewrite length_map, HL, Nat.leb_refl. exact P. }
  split; [exact P|]. split; [exact B|].
  unfold Permute4_applyHalf. destruct isBatch64; assumption.
Qed.

Lemma permute_iota_identity_witness :
  genericPermute [7; 8; 9] (iota 32 3) = Some [7; 8; 9].
Proof.
  exact (proj1 (permute_iota_identity [7; 8; 9] true ltac:(cbn; lia))).
Defined.

Lemma readAt_in_range (a : list Z) (k : Z) :
  0 <= k < Z.of_nat (length a) -> readAt a k = Some (nth (Z.to_nat k) a 0).
Proof.
  intros H. rewrite <- (Z2Nat.id k) at 1 by lia. apply readAt_nat. lia.
Qed.

(** X7.  Two permutes compose into one: when the indices of the second
    permute are lanes of the batch, permuting [data] by [p] and the result by
    [q] is permuting [data] by the index batch [p] permuted by [q]; a
    negative index of [p] blanks the same lanes on both sides. *)
Theorem genericPermute_compose (data p q : list Z) :
  length p = length data -> length q = length data ->
  (forall i, (i < length data)%nat ->
     nth i p 0 < 0 \/ 0 <= nth i p 0 < Z.of_nat (length data)) ->
  (forall i, (i < length data)%nat -> 0 <= nth i q 0 < Z.of_nat (length data)) ->
  exists d1 pq r,
    genericPermute data p = Some d1 /\
    genericPermute p q = Some pq /\
    genericPermute d1 q = Some r /\
    genericPermute data pq = Some r.
Proof.
  intros Hp Hq HP HQ.
  set (N := length data) in *.
  set (f1 := fun i : nat =>
               if nth i p 0 <? 0 then 0 else nth (Z.to_nat (nth i p 0)) data 0).
  set (fpq := fun i : nat =>
                if nth i q 0 <? 0 then 0 else nth (Z.to_nat (nth i q 0)) p 0).
  assert (L1 : length (map f1 (lanes N)) = N)
    by (unfold lanes; now rewrite length_map, length_seq).
  assert (Lpq : length (map fpq (lanes N)) = N)
    by (unfold lanes; now rewrite length_map, length_seq).
  assert (Epq : forall i, (i < N)%nat ->
            nth i (map fpq (lanes N)) 0 = nth (Z.to_nat (nth i q 0)) p 0).
  { intros i Hi. rewrite nth_map_lanes by exact Hi. unfold fpq.
    destruct (Z.ltb_spec (nth i q 0) 0); [specialize (HQ i Hi); lia | reflexivity]. }
  exists (map f1 (lanes N)), (map fpq (lanes N)).
  eexists. split; [|split; [|split]].
  - apply genericPermute_lanes; [fold N; lia | exact HP].
  - rewrite genericPermute_lanes; rewrite Hp; fold N.
    + reflexivity.
    + lia.
    + intros i Hi. right. apply HQ. exact Hi.
  - rewrite genericPermute_lanes; rewrite L1.
    + reflexivity.
    + lia.
    + intros i Hi. right. apply HQ. exact Hi.
  - rewrite genericPermute_lanes; fold N.
    + f_equal. apply map_ext_in. intros i Hi. apply in_seq in Hi.
      rewrite Epq by lia.
      destruct (Z.ltb_spec (nth i q 0) 0); [specialize (HQ i ltac:(lia)); lia|].
      rewrite nth_map_lanes by (specialize (HQ i ltac:(lia)); lia).
      reflexivity.
    + lia.
    + intros i Hi. rewrite Epq by exact Hi.
      apply HP. specialize (HQ i Hi). lia.
Qed.

Lemma genericPermute_compose_witness :
  exists d1 pq r,
    genericPermute [5; 6; 7] [2; -1; 0] = Some d1 /\
    genericPermute [2; -1; 0] [1; 2; 2] = Some pq /\
    genericPermute d1 [1; 2; 2] = Some r /\
    genericPermute [5; 6; 7] pq = Some r.
Proof.
  apply (genericPermute_compose [5; 6; 7] [2; -1; 0] [1; 2; 2]);
    try reflexivity;
    intros [|[|[|i]]] Hi; cbn in *; lia.
Defined.

(** X8.  With every index a lane of the batch, the half-width [Batch64]
    permute and the full-width [genericPermute] agree: lane [i] of both
    results is lane [idx[i]] of [data]. *)
Theorem genericPermuteBatch64_in_range (data idx : list Z) :
  length idx = length data ->
  (forall k, In k idx -> 0 <= k < Z.of_nat (length data)) ->
  genericPermuteBatch64 data idx
    = Some (map (fun k : Z => nth (Z.to_nat k) data 0) idx) /\
  genericPermute data idx = genericPermuteBatch64 data idx.
Proof.
  intros HL Hin.
  assert (B : genericPermuteBatch64 data idx
              = Some (map (fun k : Z => nth (Z.to_nat k) data 0) idx)).
  { unfold genericPermuteBatch64. rewrite HL, Nat.eqb_refl.
    apply traverse_map. intros k Hk. apply readAt_in_range. apply Hin. exact Hk. }
  split; [exact B|]. rewrite B.
  assert (Hnth : forall i, (i < length data)%nat ->
            0 <= nth i idx 0 < Z.of_nat (length data)).
  { intros i Hi. apply Hin. apply nth_In. lia. }
  rewrite genericPermute_lanes.
  - f_equal.
    transitivity (map (fun k : Z => nth (Z.to_nat k) data 0)
                      (map (fun i : nat => nth i idx 0) (lanes (length idx))));
      [|now rewrite map_nth_lanes].
    rewrite map_map, HL.
    apply map_ext_in. intros i Hi. apply in_seq in Hi.
    destruct (Z.ltb_spec (nth i idx 0) 0); [specialize (Hnth i ltac:(lia)); lia|].
    reflexivity.
  - lia.
  - intros i Hi. right. apply Hnth. exact Hi.
Qed.

Lemma genericPermuteBatch64_in_range_witness :
  genericPermuteBatch64 [5; 6] [1; 0] = Some [6; 5] /\
  genericPermute [5; 6] [1; 0] = genericPermuteBatch64 [5; 6] [1; 0].
Proof.
  apply (genericPermuteBatch64_in_range [5; 6] [1; 0]).
  - reflexivity.
  - intros k [<-|[<-|[]]]; cbn; lia.
Defined.

(** ** Gather *)

Lemma traverse_none {A B : Type} (f : A -> option B) (l : list A) (x : A) :
  In x l -> f x = None -> traverse f l = None.
Proof.
  induction l as [|a t IH]; intros Hin Hx; [contradiction|].
  cbn [traverse]. destruct Hin as [->|Hin].
  - rewrite Hx. reflexivity.
  - destruct (f a); cbn [bind]; [|reflexivity]. rewrite (IH Hin Hx). reflexivity.
Qed.

Lemma length_bytesOf (n : nat) (elems : list Z) :
  length (bytesOf n elems) = (n * length elems)%nat.
Proof.
  unfold bytesOf. induction elems as [|e t IH]; cbn [flat_map length]; [lia|].
  rewrite length_app, length_le_split, IH. lia.
Qed.

Lemma skipn_bytesOf (n k : nat) (elems : list Z) :
  skipn (k * n) (bytesOf n elems) = bytesOf n (skipn k elems).
Proof.
  revert elems. induction k as [|k IH]; intros elems; [reflexivity|].
  destruct elems as [|e t].
  - cbn [skipn bytesOf flat_map]. apply skipn_nil.
  - cbn [skipn]. rewrite <- IH. unfold bytesOf. cbn [flat_map].
    rewrite skipn_app, length_le_split.
    rewrite skipn_all2 by (rewrite length_le_split; lia).
    cbn [app]. f_equal. lia.
Qed.

(** An array of elements read back one element at a time. *)
Lemma loadElem_bytesOf (n k : nat) (elems : list Z) :
  (k < length elems)%nat ->
  loadElem n (bytesOf n elems) (Z.of_nat k * Z.of_nat n)
  = Some (wrapU (8 * Z.of_nat n) (nth k elems 0)).
Proof.
  intros Hk. unfold loadElem. rewrite length_bytesOf.
  destruct (Z.leb_spec 0 (Z.of_nat k * Z.of_nat n)); [|lia].
  destruct (Z.leb_spec (Z.of_nat k * Z.of_nat n + Z.of_nat n)
                       (Z.of_nat (n * length elems))); [|nia].
  cbn [andb]. f_equal.
  rewrite <- Nat2Z.inj_mul, Nat2Z.id, skipn_bytesOf.
  destruct (skipn k elems) as [|e t] eqn:E.
  - apply (f_equal (@length Z)) in E. rewrite length_skipn in E. cbn in E. lia.
  - assert (He : nth k elems 0 = e).
    { rewrite <- (firstn_skipn k elems) at 1.
      rewrite app_nth2 by (rewrite length_firstn; lia).
      rewrite length_firstn, E. replace (k - Nat.min k (length elems))%nat with 0%nat by lia.
      reflexivity. }
    unfold bytesOf. cbn [flat_map].
    rewrite firstn_app, length_le_split, Nat.sub_diag, firstn_O, app_nil_r.
    rewrite firstn_all2 by (rewrite length_le_split; lia).
    rewrite le_combine_split, He. unfold wrapU. f_equal. f_equal. lia.
Qed.




Lemma genericGather_indexed (sizeofT : nat) (idxBits : Z) (N : nat)
  (elems indices : list Z) :
  (N <= length indices)%nat ->
  (forall i, (i < N)%nat -> 0 <= nth i indices 0 < Z.of_nat (length elems)) ->
  genericGather sizeofT idxBits (Z.of_nat sizeofT) N (bytesOf sizeofT elems) indices =
  Some (map (fun i : nat =>
               wrapU (8 * Z.of_nat sizeofT) (nth (Z.to_nat (nth i indices 0)) elems 0))
            (lanes N)).
Proof.
  intros HL Hidx. unfold genericGather. rewrite Z.eqb_refl.
  apply traverse_map. intros i Hi. apply in_seq in Hi.
  rewrite (nth_error_nth' indices 0) by lia. cbn [bind].
  specialize (Hidx i ltac:(lia)).
  rewrite <- (Z2Nat.id (nth i indices 0)) at 1 by lia.
  apply loadElem_bytesOf. lia.
Qed.

(** X9.  Gathering from an array of elements with [kScale = sizeof(T)]:
    lane [i] is element [indices[i]] of the array, for indices inside the
    array.  The element is addressed by pointer arithmetic on [const T*], so
    nothing is required of the index width. *)
Theorem genericGather_elements (sizeofT : nat) (idxBits : Z) (N : nat)
  (elems indices : list Z) :
  (N <= length indices)%nat ->
  (forall i, (i < N)%nat -> 0 <= nth i indices 0 < Z.of_nat (length elems)) ->
  exists result,
    genericGather sizeofT idxBits (Z.of_nat sizeofT) N (bytesOf sizeofT elems) indices
    = Some result /\
    length result = N /\
    forall i, (i < N)%nat ->
      nth i result 0
      = wrapU (8 * Z.of_nat sizeofT) (nth (Z.to_nat (nth i indices 0)) elems 0).
Proof.
  intros HL Hidx. eexists. split; [apply genericGather_indexed; assumption|].
  split.
  - unfold lanes. now rewrite length_map, length_seq.
  - intros i Hi. now rewrite nth_map_lanes.
Qed.

Lemma genericGather_elements_witness :
  exists result,
    genericGather 4 32 4 3 (bytesOf 4 [100; 110; 120; 130; 140]) [0; 2; 4]
    = Some result /\
    length result = 3%nat /\
    forall i, (i < 3)%nat ->
      nth i result 0
      = wrapU (8 * 4) (nth (Z.to_nat (nth i [0; 2; 4] 0)) [100; 110; 120; 130; 140] 0).
Proof.
  apply (genericGather_elements 4 32 3 [100; 110; 120; 130; 140] [0; 2; 4]).
  - cbn. lia.
  - intros [|[|[|i]]] Hi; cbn in *; lia.
Defined.



Lemma nth_window {A : Type} (n off i : nat) (a : list A) (d : A) :
  (i < n)%nat -> nth i (firstn n (skipn off a)) d = nth (off + i) a d.
Proof.
  intros Hi. rewrite nth_firstn. destruct (Nat.ltb_spec i n); [|lia].
  apply nth_skipn.
Qed.

Lemma length_window {A : Type} (n off : nat) (a : list A) :
  (off + n <= length a)%nat -> length (firstn n (skipn off a)) = n.
Proof. intros H. rewrite length_firstn, length_skipn. lia. Qed.



(** X11.  [maskGather] with no lane selected never reads [base] and never
    looks at the value of an index: it returns [src] for any [base], provided
    only that the batch of indices can be loaded from the index pointer; if
    the index array is too short for that load there is no result. *)
Theorem Gather4_maskApply_none_selected (sizeofT : nat) (kScale : Z)
  (src : list Z) (mask : list bool) (base : list byte)
  (indices : list Z) (at_ : nat) :
  (forall i, (i < length src)%nat -> nth i mask false = false) ->
  Gather4_maskApply sizeofT kScale src mask base indices at_
  = if (at_ + length src <=? length indices)%nat then Some src else None.
Proof.
  intros Hm. unfold Gather4_maskApply, Gather4_loadIndices, loadLanes.
  destruct (at_ + length src <=? length indices)%nat; [|reflexivity].
  cbn [bind]. unfold genericMaskGather.
  rewrite (traverse_map _ (fun i : nat => nth i src 0)).
  - now rewrite map_nth_lanes.
  - intros i Hi. apply in_seq in Hi. rewrite Hm by lia. reflexivity.
Qed.

Lemma Gather4_maskApply_none_selected_witness :
  Gather4_maskApply 4 4 [1; 2; 3] [false; false; false] [] [7; 8; 9] 0
  = Some [1; 2; 3].
Proof.
  apply (Gather4_maskApply_none_selected 4 4 [1; 2; 3] [false; false; false]
           [] [7; 8; 9] 0).
  intros [|[|[|i]]] Hi; cbn in *; (reflexivity || lia).
Defined.



(** ** The 16-bit gather *)





(** A masked gather has no result when a selected lane addresses bytes
    beyond [base]. *)
Lemma Gather4_maskApply_beyond (sizeofT : nat) (kScale : Z) (src : list Z)
  (mask : list bool) (base : list byte) (indices : list Z) (off j : nat) :
  (j < length src)%nat -> nth j mask false = true ->
  Z.of_nat (length base) < nth (off + j)%nat indices 0 * kScale + Z.of_nat sizeofT ->
  Gather4_maskApply sizeofT kScale src mask base indices off = None.
Proof.
  intros Hj Hm Hover. unfold Gather4_maskApply, Gather4_loadIndices, loadLanes.
  destruct (Nat.leb_spec (off + length src) (length indices)) as [Hlen|Hlen];
    [|reflexivity].
  cbn [bind]. unfold genericMaskGather.
  apply (traverse_none _ _ j); [apply in_seq; lia|].
  rewrite Hm. rewrite (nth_error_nth' _ 0) by (rewrite length_window; lia).
  cbn [bind]. rewrite nth_window by lia.
  unfold scaledOffset. destruct (fitsS 32 (nth (off + j) indices 0 * kScale));
    [|reflexivity].
  cbn [bind]. unfold loadElem.
  destruct (Z.leb_spec (nth (off + j) indices 0 * kScale + Z.of_nat sizeofT)
                       (Z.of_nat (length base))); [lia|].
  now rewrite andb_false_r.
Qed.



(** X14.  The 16-bit [gather] loads four bytes for every selected index: when
    one of the first [numIndices] indices addresses an element whose offset
    plus four lies beyond [base] there is no result, even if the 16-bit
    element itself is the last one of the buffer. *)
Theorem gather16_reads_four_bytes (N : nat) (kScale : Z) (base : list byte)
  (indices : list Z) (numIndices : Z) (i : nat) :
  0 <= numIndices < 2 ^ 31 -> Z.of_nat i < numIndices -> (i < 2 * N)%nat ->
  Z.of_nat (length base) < nth i indices 0 * kScale + 4 ->
  gather16 N kScale base indices numIndices = None.
Proof.
  intros Hn Hi Hi2 Hover. unfold gather16.
  rewrite leadingMask_eq by lia. cbn [bind].
  destruct (Nat.ltb_spec i N) as [Hlo|Hhi].
  - rewrite (Gather4_maskApply_beyond 4 kScale _ _ base indices 0 i).
    + reflexivity.
    + rewrite repeat_length. exact Hlo.
    + rewrite prefixMask_nth by lia. apply Nat.ltb_lt. lia.
    + exact Hover.
  - destruct (Gather4_maskApply 4 kScale (repeat 0 N) _ base indices 0);
      [|reflexivity].
    cbn [bind].
    destruct (Z.gtb_spec numIndices (Z.of_nat N)); [|lia].
    rewrite wrapS_small
      by (try lia; change (2 ^ (32 - 1)) with (2 ^ 31); lia).
    rewrite leadingMask_eq by lia. cbn [bind].
    rewrite (Gather4_maskApply_beyond 4 kScale _ _ base indices N (i - N)).
    + reflexivity.
    + rewrite repeat_length. lia.
    + rewrite prefixMask_nth by lia. apply Nat.ltb_lt. lia.
    + replace (N + (i - N))%nat with i by lia. exact Hover.
Qed.

Lemma gather16_reads_four_bytes_witness :
  gather16 4 2 (bytesOf 2 [100; 200]) [0; 1; 0; 0] 2 = None.
Proof.
  apply (gather16_reads_four_bytes 4 2 (bytesOf 2 [100; 200]) [0; 1; 0; 0] 2 1).
  - split; [lia | reflexivity].
  - lia.
  - lia.
  - vm_compute. reflexivity.
Defined.

(** ** gather8Bits *)

Lemma maskBits_snoc (l : list bool) (v : bool) :
  maskBits (l ++ [v]) =
  if v then Z.setbit (maskBits l) (Z.of_nat (length l))
  else Z.clearbit (maskBits l) (Z.of_nat (length l)).
Proof.
  apply Z.bits_inj'. intros n Hn.
  rewrite <- (Z2Nat.id n) by exact Hn. rewrite maskBits_testbit.
  assert (E : Z.testbit (maskBits l) (Z.of_nat (length l)) = false).
  { rewrite maskBits_testbit. apply nth_overflow. lia. }
  destruct v.
  - rewrite Z.setbit_eqb by lia. rewrite maskBits_testbit.
    destruct (Z.eqb_spec (Z.of_nat (length l)) (Z.of_nat (Z.to_nat n))) as [H|H].
    + apply Nat2Z.inj in H. rewrite <- H, nth_middle. reflexivity.
    + cbn [orb]. destruct (Nat.lt_ge_cases (Z.to_nat n) (length l)).
      * now rewrite app_nth1.
      * rewrite !nth_overflow; [reflexivity | lia | rewrite length_app; cbn; lia].
  - rewrite Z.clearbit_eqb. rewrite maskBits_testbit.
    destruct (Z.eqb_spec (Z.of_nat (length l)) (Z.of_nat (Z.to_nat n))) as [H|H].
    + apply Nat2Z.inj in H. rewrite <- H, nth_middle.
      rewrite nth_overflow by lia. reflexivity.
    + cbn [negb]. rewrite andb_true_r.
      destruct (Nat.lt_ge_cases (Z.to_nat n) (length l)).
      * now rewrite app_nth1.
      * rewrite !nth_overflow; [reflexivity | lia | rewrite length_app; cbn; lia].
Qed.

Lemma isBitSet_in_range (bitmap : list byte) (idx : Z) :
  0 <= idx < 8 * Z.of_nat (length bitmap) ->
  bits.isBitSet bitmap idx = Some (bitmapBit bitmap idx).
Proof.
  intros H. unfold bits.isBitSet, bitmapBit.
  destruct (Z.ltb_spec idx 0); [lia|].
  assert (Z.to_nat (idx / 8) < length bitmap)%nat.
  { apply Nat2Z.inj_lt. rewrite Z2Nat.id by (apply Z.div_pos; lia).
    apply Z.div_lt_upper_bound; lia. }
  rewrite (nth_error_nth' _ Byte.x00) by assumption. reflexivity.
Qed.

(** The loop of [gather8BitsImpl] after [k] lanes. *)
Lemma gather8Bits_rounds (bitmap : list byte) (vindex : list Z) (k : nat) :
  (k <= 8)%nat -> (k <= length vindex)%nat ->
  (forall i, (i < k)%nat -> 0 <= nth i vindex 0 < 8 * Z.of_nat (length bitmap)) ->
  fold_left
    (fun ans i =>
       a <- ans ;;
       index <- nth_error vindex i ;;
       value <- bits.isBitSet bitmap index ;;
       bits.setBit a (Z.of_nat i) value)
    (lanes k) (Some 0)
  = Some (maskBits (map (fun i : nat => bitmapBit bitmap (nth i vindex 0)) (lanes k))).
Proof.
  intros H8 HL. induction k as [|k IH]; intros Hidx; [reflexivity|].
  rewrite lanes_S, fold_left_app, IH by (try lia; intros i Hi; apply Hidx; lia).
  cbn [fold_left bind].
  rewrite (nth_error_nth' vindex 0) by lia. cbn [bind].
  rewrite isBitSet_in_range by (apply Hidx; lia). cbn [bind].
  unfold bits.setBit.
  destruct (Z.leb_spec 0 (Z.of_nat k)); [|lia].
  destruct (Z.ltb_spec (Z.of_nat k) 8); [|lia]. cbn [andb].
  rewrite map_app. cbn [map]. rewrite maskBits_snoc.
  unfold lanes. rewrite length_map, length_seq. reflexivity.
Qed.

(** X15.  [gather8Bits] on a batch of at most 8 indices: with
    [n = min(N, numIndices)] and the first [n] indices inside the bitmap, the
    byte returned has bit [i] equal to bit [indices[i]] of the bitmap for
    [i < n] and every other bit clear; a negative [numIndices] gives 0. *)
Theorem gather8Bits_bits (bitmap : list byte) (vindex : list Z) (numIndices : Z) :
  (length vindex <= 8)%nat ->
  let n := Z.to_nat (Z.min (Z.of_nat (length vindex)) numIndices) in
  (forall i, (i < n)%nat -> 0 <= nth i vindex 0 < 8 * Z.of_nat (length bitmap)) ->
  exists ans,
    gather8Bits bitmap vindex numIndices = Some ans /\
    0 <= ans < 2 ^ Z.of_nat n /\
    (forall i : nat,
       Z.testbit ans (Z.of_nat i) = (i <? n)%nat && bitmapBit bitmap (nth i vindex 0)) /\
    (numIndices <= 0 -> ans = 0).
Proof.
  intros H8 n Hidx.
  set (l := map (fun i : nat => bitmapBit bitmap (nth i vindex 0)) (lanes n)).
  assert (Ll : length l = n) by (unfold l, lanes; now rewrite length_map, length_seq).
  exists (maskBits l). split; [|split; [|split]].
  - unfold gather8Bits, gather8BitsImpl. fold n.
    apply gather8Bits_rounds; [unfold n; lia | unfold n; lia | exact Hidx].
  - rewrite <- Ll. apply maskBits_range.
  - intros i. rewrite maskBits_testbit. unfold l.
    destruct (Nat.ltb_spec i n).
    + now rewrite nth_map_lanes.
    + apply nth_overflow. unfold lanes. now rewrite length_map, length_seq.
  - intros Hle. unfold l. replace n with 0%nat by (unfold n; lia). reflexivity.
Qed.

Lemma gather8Bits_bits_witness :
  exists ans,
    gather8Bits [Byte.x0b; Byte.x80] [0; 2; 3; 15] 3 = Some ans /\
    0 <= ans < 2 ^ 3 /\
    (forall i : nat,
       Z.testbit ans (Z.of_nat i)
       = (i <? 3)%nat && bitmapBit [Byte.x0b; Byte.x80] (nth i [0; 2; 3; 15] 0)) /\
    (3 <= 0 -> ans = 0).
Proof.
  apply (gather8Bits_bits [Byte.x0b; Byte.x80] [0; 2; 3; 15] 3).
  - cbn. lia.
  - intros [|[|[|i]]] Hi; cbn in *; lia.
Defined.

(** ** GetHalf *)

Lemma widen_signed (v : Z) :
  0 <= v < 2 ^ 32 ->
  wrapU 32 (wrapU 64 (wrapS 32 v)) = v /\
  wrapS 64 (wrapU 64 (wrapS 32 v)) = wrapS 32 v.
Proof.
  unfold wrapU, wrapS.
  change (2 ^ 32) with 4294967296. change (2 ^ (32 - 1)) with 2147483648.
  change (2 ^ 64) with 18446744073709551616.
  change (2 ^ (64 - 1)) with 9223372036854775808.
  intros H. split; Z.div_mod_to_equations; lia.
Qed.

Lemma widen_unsigned (v : Z) :
  0 <= v < 2 ^ 32 -> wrapU 64 (wrapU 32 v) = v.
Proof.
  unfold wrapU. change (2 ^ 32) with 4294967296.
  change (2 ^ 64) with 18446744073709551616.
  intros H. Z.div_mod_to_equations; lia.
Qed.

(** X16.  [GetHalf] on a batch of [2 * h] 32-bit lanes widened to 64 bits:
    the result has [h] lanes; lane [i] comes from lane [i] of [data] for the
    first half and lane [h + i] for the second; an unsigned target holds the
    lane zero-extended, a signed target holds the same signed value (sign
    extension), and in both cases the low 32 bits are the source lane. *)
Theorem GetHalf_widens (targetUnsigned kSecond : bool) (data : list Z) (h i : nat) :
  length data = (2 * h)%nat ->
  (forall v, In v data -> 0 <= v < 2 ^ 32) ->
  (i < h)%nat ->
  let source := nth ((if kSecond then h else 0) + i)%nat data 0 in
  let lane := nth i (GetHalf_apply targetUnsigned 64 kSecond data) 0 in
  length (GetHalf_apply targetUnsigned 64 kSecond data) = h /\
  wrapU 32 lane = source /\
  (targetUnsigned = true -> lane = source) /\
  (targetUnsigned = false -> wrapS 64 lane = wrapS 32 source).
Proof.
  intros HL Hr Hi source lane.
  assert (Hh : (length data / 2)%nat = h).
  { rewrite HL, Nat.mul_comm. apply Nat.div_mul. lia. }
  assert (Hs : 0 <= source < 2 ^ 32).
  { apply Hr. apply nth_In. destruct kSecond; lia. }
  assert (El : lane = if targetUnsigned then wrapU 64 (wrapU 32 source)
                      else wrapU 64 (wrapS 32 source)).
  { unfold lane, GetHalf_apply. rewrite Hh. rewrite nth_map_lanes by exact Hi.
    reflexivity. }
  split; [|split; [|split]].
  - unfold GetHalf_apply, lanes. now rewrite length_map, length_seq.
  - rewrite El. destruct targetUnsigned.
    + rewrite widen_unsigned by exact Hs. apply wrapU_small. exact Hs.
    + apply widen_signed. exact Hs.
  - intros ->. rewrite El. apply widen_unsigned. exact Hs.
  - intros ->. rewrite El. apply widen_signed. exact Hs.
Qed.

Lemma GetHalf_widens_witness :
  length (GetHalf_apply false 64 true [1; 2; 4294967295; 7]) = 2%nat /\
  wrapS 64 (nth 0 (GetHalf_apply false 64 true [1; 2; 4294967295; 7]) 0)
  = wrapS 32 4294967295.
Proof.
  pose proof (GetHalf_widens false true [1; 2; 4294967295; 7] 2 0 eq_refl) as H.
  destruct H as (L & _ & _ & S).
  - intros v [<-|[<-|[<-|[<-|[]]]]]; split; (lia || reflexivity).
  - lia.
  - split; [exact L | exact (S eq_refl)].
Defined.

(** ** memcpy and memset: frame, composition and the sign of the count *)

Lemma spliced_frame {A : Type} (dst : list A) (to : nat) (p : list A) :
  (to + length p <= length dst)%nat ->
  firstn to (spliced dst to p) = firstn to dst /\
  skipn (to + length p) (spliced dst to p) = skipn (to + length p) dst.
Proof.
  intros H. unfold spliced.
  assert (L : length (firstn to dst) = to) by (rewrite length_firstn; lia).
  split.
  - rewrite firstn_app, L, Nat.sub_diag, firstn_O, app_nil_r.
    rewrite firstn_all2 by lia. reflexivity.
  - rewrite app_assoc, skipn_app, skipn_all2 by (rewrite length_app; lia).
    rewrite length_app, L, Nat.sub_diag. reflexivity.
Qed.

(** X17.  [memcpy] and [memset] stay inside the window they are given: the
    destination keeps its length, and every byte before [to] and every byte
    from [to + bytes] on is what it was. *)
Theorem memcpy_memset_frame (batchByteSize : nat) (dst src : list byte)
  (to from : nat) (data : byte) (bytes : Z) :
  (8 <= batchByteSize)%nat ->
  0 <= bytes < 2 ^ 31 ->
  (to + Z.to_nat bytes <= length dst)%nat ->
  (from + Z.to_nat bytes <= length src)%nat ->
  exists copied filled,
    memcpy batchByteSize dst src to from bytes = Some copied /\
    memset batchByteSize dst to data bytes = Some filled /\
    length copied = length dst /\ length filled = length dst /\
    firstn to copied = firstn to dst /\ firstn to filled = firstn to dst /\
    skipn (to + Z.to_nat bytes) copied = skipn (to + Z.to_nat bytes) dst /\
    skipn (to + Z.to_nat bytes) filled = skipn (to + Z.to_nat bytes) dst.
Proof.
  intros HB Hbytes Hto Hfrom.
  set (n := Z.to_nat bytes) in *.
  assert (Hn : Z.of_nat n < 2 ^ 31) by (unfold n; lia).
  assert (Lp : length (firstn n (skipn from src)) = n)
    by (rewrite length_firstn, length_skipn; lia).
  assert (Lq : length (repeat data n) = n) by apply repeat_length.
  exists (spliced dst to (firstn n (skipn from src))), (spliced dst to (repeat data n)).
  split; [|split].
  - replace bytes with (Z.of_nat n) by (unfold n; lia).
    apply memcpy_spliced; (lia || assumption).
  - replace bytes with (Z.of_nat n) by (unfold n; lia).
    apply memset_spliced; (lia || assumption).
  - destruct (spliced_frame dst to (firstn n (skipn from src)) ltac:(lia)) as [F1 S1].
    destruct (spliced_frame dst to (repeat data n) ltac:(lia)) as [F2 S2].
    rewrite Lp in S1. rewrite Lq in S2.
    rewrite !spliced_length by lia. repeat split; assumption.
Qed.

Lemma memcpy_memset_frame_witness :
  exists copied filled,
    memcpy 16 (repeat Byte.x00 12) (repeat Byte.xff 12) 2 1 9 = Some copied /\
    memset 16 (repeat Byte.x00 12) 2 Byte.x2a 9 = Some filled /\
    length copied = 12%nat /\ length filled = 12%nat /\
    firstn 2 copied = [Byte.x00; Byte.x00] /\
    firstn 2 filled = [Byte.x00; Byte.x00] /\
    skipn 11 copied = [Byte.x00] /\ skipn 11 filled = [Byte.x00].
Proof.
  apply (memcpy_memset_frame 16 (repeat Byte.x00 12) (repeat Byte.xff 12) 2 1
           Byte.x2a 9).
  - lia.
  - split; [lia | reflexivity].
  - vm_compute. lia.
  - vm_compute. lia.
Defined.

(** X18.  Copies compose: copying [n1] bytes and then [n2] bytes from where
    source and destination were left is copying [n1 + n2] bytes at once; this
    includes [n1 = 0] or [n2 = 0], where a call leaves the destination as it
    is. *)
Theorem memcpy_compose (batchByteSize : nat) (dst src : list byte)
  (to from n1 n2 : nat) :
  (0 < batchByteSize)%nat ->
  Z.of_nat (n1 + n2) < 2 ^ 31 ->
  (to + (n1 + n2) <= length dst)%nat ->
  (from + (n1 + n2) <= length src)%nat ->
  exists first,
    memcpy batchByteSize dst src to from (Z.of_nat n1) = Some first /\
    memcpy batchByteSize first src (to + n1) (from + n1) (Z.of_nat n2)
    = memcpy batchByteSize dst src to from (Z.of_nat (n1 + n2)) /\
    memcpy batchByteSize dst src to from 0 = Some dst.
Proof.
  intros HB Hn Hto Hfrom.
  assert (L1 : length (firstn n1 (skipn from src)) = n1)
    by (rewrite length_firstn, length_skipn; lia).
  assert (L2 : length (firstn n2 (skipn (from + n1) src)) = n2)
    by (rewrite length_firstn, length_skipn; lia).
  exists (spliced dst to (firstn n1 (skipn from src))). split; [|split].
  - apply memcpy_spliced; lia.
  - rewrite memcpy_spliced by (rewrite ?spliced_length; lia).
    rewrite memcpy_spliced by lia. f_equal.
    rewrite <- L1 at 2. rewrite spliced_spliced by lia. f_equal.
    rewrite firstn_add, skipn_skipn. do 3 f_equal. lia.
  - change 0 with (Z.of_nat 0). rewrite memcpy_spliced by lia.
    cbn [firstn]. now rewrite spliced_nil.
Qed.

Lemma memcpy_compose_witness :
  exists first,
    memcpy 16 (repeat Byte.x00 40) (repeat Byte.x2a 40) 2 3 (Z.of_nat 20) = Some first /\
    memcpy 16 first (repeat Byte.x2a 40) (2 + 20) (3 + 20) (Z.of_nat 11)
    = memcpy 16 (repeat Byte.x00 40) (repeat Byte.x2a 40) 2 3 (Z.of_nat (20 + 11)) /\
    memcpy 16 (repeat Byte.x00 40) (repeat Byte.x2a 40) 2 3 0
    = Some (repeat Byte.x00 40).
Proof.
  apply (memcpy_compose 16 (repeat Byte.x00 40) (repeat Byte.x2a 40) 2 3 20 11).
  - lia.
  - reflexivity.
  - vm_compute. lia.
  - vm_compute. lia.
Defined.

(** X19.  [memset] is [memcpy] from a buffer that holds the byte [bytes]
    times. *)
Theorem memset_as_memcpy (batchByteSize : nat) (dst : list byte) (to : nat)
  (data : byte) (bytes : Z) :
  (8 <= batchByteSize)%nat ->
  0 <= bytes < 2 ^ 31 ->
  (to + Z.to_nat bytes <= length dst)%nat ->
  memset batchByteSize dst to data bytes
  = memcpy batchByteSize dst (repeat data (Z.to_nat bytes)) to 0 bytes.
Proof.
  intros HB Hbytes Hto. set (n := Z.to_nat bytes) in *.
  replace bytes with (Z.of_nat n) by (unfold n; lia).
  rewrite memset_spliced by (lia || assumption).
  rewrite memcpy_spliced by (rewrite ?repeat_length; lia).
  cbn [skipn]. rewrite firstn_all2 by (rewrite repeat_length; lia). reflexivity.
Qed.

Lemma memset_as_memcpy_witness :
  memset 16 (repeat Byte.x00 40) 2 Byte.x2a 31
  = memcpy 16 (repeat Byte.x00 40) (repeat Byte.x2a (Z.to_nat 31)) 2 0 31.
Proof.
  apply (memset_as_memcpy 16 (repeat Byte.x00 40) 2 Byte.x2a 31).
  - lia.
  - split; [lia | reflexivity].
  - vm_compute. lia.
Defined.

Lemma storeLanes_inv {A : Type} (a : list A) (off : nat) (v a' : list A) :
  storeLanes a off v = Some a' ->
  (off + length v <= length a)%nat /\ length a' = length a.
Proof.
  unfold storeLanes. destruct (Nat.leb_spec (off + length v) (length a)) as [H|H];
    [|discriminate].
  intros E. injection E as <-. split; [exact H|].
  rewrite !length_app, length_firstn, length_skipn. lia.
Qed.

(** The 32-bit pattern of the count after one 8-byte step. *)
Lemma subSize_pattern (b : Z) :
  - 2 ^ 31 <= b < 2 ^ 31 -> 8 <= wrapU 32 b ->
  - 2 ^ 31 <= subSize b 8 < 2 ^ 31 /\ wrapU 32 (subSize b 8) = wrapU 32 b - 8.
Proof.
  unfold subSize, wrapS, wrapU. change (Z.of_nat 8) with 8.
  change (2 ^ 64) with 18446744073709551616. change (2 ^ 32) with 4294967296.
  change (2 ^ (32 - 1)) with 2147483648. change (2 ^ 31) with 2147483648.
  intros Hb Hu. split; Z.div_mod_to_equations; lia.
Qed.

Lemma geSize_pattern (b : Z) :
  - 2 ^ 31 <= b < 2 ^ 31 -> 8 <= wrapU 32 b -> geSize b 8 = true.
Proof.
  unfold geSize, wrapU. change (Z.of_nat 8) with 8.
  change (2 ^ 64) with 18446744073709551616. change (2 ^ 32) with 4294967296.
  change (2 ^ 31) with 2147483648.
  intros Hb Hu. apply Z.geb_le. Z.div_mod_to_equations; lia.
Qed.

(** The loop of 8-byte words when the count, read as an unsigned 32-bit
    number, exceeds the room left in the destination: it cannot come to an
    end inside the buffer, whatever the bound on its rounds. *)
Lemma copy_words_overrun (src : list byte) (fuel : nat) :
  forall st : CopyCursor,
  - 2 ^ 31 <= c_bytes st < 2 ^ 31 ->
  Z.of_nat (length (c_mem st)) - Z.of_nat (c_to st) + 7 < wrapU 32 (c_bytes st) ->
  (c_to st <= length (c_mem st))%nat ->
  whileWord fuel (fun st => geSize (c_bytes st) 8) (copyNextWord false 8 src) st = None.
Proof.
  induction fuel as [|fuel IH]; intros st Hb Hroom Hto; [reflexivity|].
  cbn [whileWord].
  assert (Hu : 8 <= wrapU 32 (c_bytes st)) by lia.
  rewrite (geSize_pattern _ Hb Hu).
  unfold copyNextWord. rewrite (geSize_pattern _ Hb Hu).
  unfold CopyWord_apply.
  destruct (loadLanes 8 src (c_from st)) as [w|]; [|reflexivity].
  cbn [bind].
  destruct (storeLanes (c_mem st) (c_to st) (le_split 8 (le_combine w)))
    as [mem'|] eqn:Es; [|reflexivity].
  apply storeLanes_inv in Es as [Hfit Hlen]. rewrite length_le_split in Hfit.
  cbn [bind].
  destruct (subSize_pattern _ Hb Hu) as [Hb' Hu'].
  destruct (Z.eqb_spec (subSize (c_bytes st) 8) 0) as [E0|_].
  - rewrite E0 in Hu'. change (wrapU 32 0) with 0 in Hu'. lia.
  - apply IH; cbn [c_bytes c_mem c_to]; lia.
Qed.

(** X20.  A negative byte count is not an empty copy.  [copyNextWord] and
    the loop of 8-byte words compare the count with [sizeof] in [size_t],
    where a negative count is huge: with a destination of fewer than
    [2^31 - 8] bytes the 8-byte loop cannot finish inside it for any bound
    on its rounds, and [memcpy] has no result. *)
Theorem memcpy_negative_count (batchByteSize : nat) (dst src : list byte)
  (to from : nat) (bytes : Z) :
  - 2 ^ 31 <= bytes < 0 ->
  Z.of_nat (length dst) < 2 ^ 31 - 8 -> (to <= length dst)%nat ->
  (forall fuel,
     whileWord fuel (fun st => geSize (c_bytes st) 8) (copyNextWord false 8 src)
       (mkCopy dst to from bytes) = None) /\
  memcpy batchByteSize dst src to from bytes = None.
Proof.
  intros Hb Hlen Hto.
  assert (Hu : wrapU 32 bytes = bytes + 2 ^ 32).
  { unfold wrapU. change (2 ^ 32) with 4294967296. change (2 ^ 31) with 2147483648 in Hb.
    Z.div_mod_to_equations; lia. }
  assert (Loop : forall fuel,
     whileWord fuel (fun st => geSize (c_bytes st) 8) (copyNextWord false 8 src)
       (mkCopy dst to from bytes) = None).
  { intros fuel. apply copy_words_overrun; cbn [c_bytes c_mem c_to].
    - change (2 ^ 31) with 2147483648 in *. lia.
    - rewrite Hu. change (2 ^ 32) with 4294967296.
      change (2 ^ 31) with 2147483648 in *. lia.
    - exact Hto. }
  split; [exact Loop|].
  unfold memcpy. cbv zeta.
  set (fuel := S (Z.to_nat bytes)).
  assert (First : whileWord fuel (fun st => c_bytes st >=? Z.of_nat batchByteSize)
                    (copyNextWord true batchByteSize src) (mkCopy dst to from bytes)
                  = Some (true, mkCopy dst to from bytes)).
  { unfold fuel. cbn [whileWord c_bytes].
    destruct (Z.geb_spec bytes (Z.of_nat batchByteSize)); [lia | reflexivity]. }
  rewrite First. cbn [bind negb]. rewrite Loop. reflexivity.
Qed.

Lemma memcpy_negative_count_witness :
  memcpy 16 (repeat Byte.x00 40) (repeat Byte.x2a 40) 0 0 (-1) = None.
Proof.
  apply (memcpy_negative_count 16 (repeat Byte.x00 40) (repeat Byte.x2a 40) 0 0 (-1)).
  - split; [discriminate | reflexivity].
  - reflexivity.
  - vm_compute. lia.
Defined.

(** ** indicesOfSetBits: the two strategies, and ranges cut in two *)

(** X21.  The two extraction strategies agree on a nonzero word: with room
    for the positions and the slack of a batch, the bit-at-a-time loop and
    the byte-wise loop both advance the write pointer by the popcount of the
    word and leave the same entries below it. *)
Theorem scan_strategies_agree (batch : IndexBatch) (w : Z) (st : ScanState) :
  0 < w < 2 ^ 64 ->
  (pos st + popcount w + (batchSize batch - 1) <= length (res st))%nat ->
  exists s d,
    sparseWord 64 w st = Some s /\
    denseWord batch 8 w st = Some d /\
    pos s = (pos st + popcount w)%nat /\
    pos d = pos s /\
    firstn (pos s) (res s) = firstn (pos d) (res d) /\
    firstn (pos s) (res s) = firstn (pos st) (res st) ++ bitPositions 64 (row st) w.
Proof.
  intros Hw Hcap.
  rewrite (popcount_setBitsOf 64 w) in Hcap |- *
    by (change (Z.of_nat 64) with 64; lia).
  destruct (denseWord_ok batch 8 w st
              ltac:(change (Z.of_nat (8 * 8)) with 64; lia) Hcap)
    as (res' & Erun & Em).
  change (8 * 8)%nat with 64%nat in Erun, Em.
  pose proof (Emits_spliced 0 (res st) (pos st) (bitPositions 64 (row st) w)
                ltac:(rewrite bitPositions_length; lia)) as Es.
  rewrite bitPositions_length in Es.
  destruct Em as (_ & _ & Fd & _). destruct Es as (_ & _ & Fs & _).
  eexists. eexists. split; [|split; [exact Erun|]].
  - apply (sparseWord_ok 64 64 (Nat.le_refl 64) w st Hw (setBitsOf_length_le 64 w)).
    lia.
  - cbn [pos res]. split; [reflexivity|]. split; [reflexivity|].
    split; [|exact Fs]. rewrite Fs, Fd. reflexivity.
Qed.

Lemma scan_strategies_agree_witness :
  exists s d,
    sparseWord 64 0xF0F1 (mkScan 64 (repeat (-1) 20) 2) = Some s /\
    denseWord Batch4 8 0xF0F1 (mkScan 64 (repeat (-1) 20) 2) = Some d /\
    pos s = (2 + popcount 0xF0F1)%nat /\
    pos d = pos s /\
    firstn (pos s) (res s) = firstn (pos d) (res d) /\
    firstn (pos s) (res s) = firstn 2 (repeat (-1) 20) ++ bitPositions 64 64 0xF0F1.
Proof.
  apply (scan_strategies_agree Batch4 0xF0F1 (mkScan 64 (repeat (-1) 20) 2)).
  - split; reflexivity.
  - vm_compute. lia.
Defined.

Lemma setBitPositions_app (bits : list Z) (begin mid end_ : Z) :
  begin <= mid <= end_ ->
  setBitPositions bits begin end_
  = setBitPositions bits begin mid ++ setBitPositions bits mid end_.
Proof.
  intros H. unfold setBitPositions. rewrite (zrange_app begin mid end_) by exact H.
  apply filter_app.
Qed.

(** X22.  A range cut in two: for [0 <= begin <= mid <= end_] with
    [end_ <= 2^31 - 64], a bitmap of 64-bit words that covers the positions up
    to [end_] and an output with room for the positions of [[begin, end_)]
    and the slack of one batch, the scan of [[begin, end_)] returns the sum
    of the counts of the scans of [[begin, mid)] and [[mid, end_)], and its
    positions are those of the first scan followed by those of the second. *)
Theorem indicesOfSetBits_split (batch : IndexBatch) (bits : list Z)
  (begin mid end_ : Z) (result : list Z) :
  0 <= begin <= mid -> mid <= end_ -> end_ <= 2 ^ 31 - 64 ->
  wordsOk bits = true -> end_ <= 64 * Z.of_nat (length bits) ->
  (length (setBitPositions bits begin end_) + (batchSize batch - 1)
   <= length result)%nat ->
  exists whole left right n1 n2,
    indicesOfSetBits batch bits begin mid result = Some (left, Z.of_nat n1) /\
    indicesOfSetBits batch bits mid end_ result = Some (right, Z.of_nat n2) /\
    indicesOfSetBits batch bits begin end_ result = Some (whole, Z.of_nat (n1 + n2)) /\
    firstn (n1 + n2) whole = firstn n1 left ++ firstn n2 right.
Proof.
  intros Hb Hm He Hw Hc Hcap.
  pose proof (setBitPositions_app bits begin mid end_ ltac:(lia)) as Eapp.
  assert (Ln : length (setBitPositions bits begin end_)
               = (length (setBitPositions bits begin mid)
                  + length (setBitPositions bits mid end_))%nat)
    by (rewrite Eapp; apply length_app).
  destruct (indicesOfSetBits_run batch bits begin mid result
              ltac:(lia) ltac:(lia) Hw ltac:(lia) ltac:(lia))
    as (left & El & _ & _ & Fl & _).
  destruct (indicesOfSetBits_run batch bits mid end_ result
              ltac:(lia) ltac:(lia) Hw ltac:(lia) ltac:(lia))
    as (right & Er & _ & _ & Fr & _).
  destruct (indicesOfSetBits_run batch bits begin end_ result
              ltac:(lia) ltac:(lia) Hw ltac:(lia) Hcap)
    as (whole & Ew & _ & _ & Fw & _).
  exists whole, left, right,
    (length (setBitPositions bits begin mid)), (length (setBitPositions bits mid end_)).
  split; [exact El|]. split; [exact Er|]. split.
  - rewrite <- Ln. exact Ew.
  - rewrite <- Ln, Fw, Fl, Fr. cbn [firstn app]. exact Eapp.
Qed.

Lemma indicesOfSetBits_split_witness :
  exists whole left right n1 n2,
    indicesOfSetBits Batch8 [0xF0F1; 5] 3 40 (repeat (-1) 20) = Some (left, Z.of_nat n1) /\
    indicesOfSetBits Batch8 [0xF0F1; 5] 40 100 (repeat (-1) 20) = Some (right, Z.of_nat n2) /\
    indicesOfSetBits Batch8 [0xF0F1; 5] 3 100 (repeat (-1) 20)
      = Some (whole, Z.of_nat (n1 + n2)) /\
    firstn (n1 + n2) whole = firstn n1 left ++ firstn n2 right.
Proof.
  apply (indicesOfSetBits_split Batch8 [0xF0F1; 5] 3 40 100 (repeat (-1) 20)).
  - lia.
  - lia.
  - lia.
  - reflexivity.
  - cbn [length]. lia.
  - vm_compute. lia.
Defined.

(** ** CRC-32: how a stream can be chained *)

Lemma small_bits (n a j : Z) :
  0 <= n -> 0 <= a < 2 ^ n -> n <= j -> Z.testbit a j = false.
Proof.
  intros Hn Ha Hj. rewrite <- (Z.mod_small a (2 ^ n)) by exact Ha.
  apply Z.mod_pow2_bits_high. lia.
Qed.

Lemma bits_small (n a : Z) :
  0 <= n -> (forall j, 0 <= j -> n <= j -> Z.testbit a j = false) ->
  0 <= a < 2 ^ n.
Proof.
  intros Hn H.
  assert (E : a = a mod 2 ^ n).
  { apply Z.bits_inj'. intros j Hj. rewrite Z.testbit_mod_pow2 by lia.
    destruct (Z.ltb_spec j n); cbn [andb]; [reflexivity | apply H; lia]. }
  rewrite E. apply Z.mod_pos_bound. apply Z.pow_pos_nonneg; lia.
Qed.

Lemma lxor_small (n a b : Z) :
  0 <= n -> 0 <= a < 2 ^ n -> 0 <= b < 2 ^ n -> 0 <= Z.lxor a b < 2 ^ n.
Proof.
  intros Hn Ha Hb. apply bits_small; [exact Hn|]. intros j Hj Hnj.
  rewrite Z.lxor_spec, (small_bits n a j), (small_bits n b j) by assumption.
  reflexivity.
Qed.

(** The loop of [reflect] after [k] of the [n] bits. *)
Lemma reflect_rounds (n : nat) (x : Z) (k : nat) (j : Z) :
  (k <= n)%nat -> 0 <= j ->
  Z.testbit
    (fold_left
       (fun acc i =>
          if Z.testbit x (Z.of_nat i)
          then Z.lor acc (Z.shiftl 1 (Z.of_nat (n - 1 - i)))
          else acc)
       (seq 0 k) 0) j
  = (Z.of_nat n - Z.of_nat k <=? j) && (j <? Z.of_nat n)
    && Z.testbit x (Z.of_nat n - 1 - j).
Proof.
  intros Hk Hj. induction k as [|k IH].
  - cbn [seq fold_left]. rewrite Z.bits_0.
    destruct (Z.leb_spec (Z.of_nat n - Z.of_nat 0) j), (Z.ltb_spec j (Z.of_nat n));
      cbn; try reflexivity; lia.
  - rewrite seq_S, fold_left_app. cbn [fold_left Nat.add].
    specialize (IH ltac:(lia)).
    destruct (Z.eq_dec j (Z.of_nat n - 1 - Z.of_nat k)) as [Ej|Ej].
    + replace (Z.of_nat n - 1 - j) with (Z.of_nat k) by lia.
      destruct (Z.testbit x (Z.of_nat k)) eqn:Ex.
      * rewrite Z.lor_spec, Z.shiftl_1_l, Z.pow2_bits_eqb by lia.
        replace (Z.of_nat (n - 1 - k) =? j) with true
          by (symmetry; apply Z.eqb_eq; lia).
        rewrite orb_true_r.
        destruct (Z.leb_spec (Z.of_nat n - Z.of_nat (S k)) j),
                 (Z.ltb_spec j (Z.of_nat n)); cbn; try reflexivity; lia.
      * rewrite IH.
        destruct (Z.leb_spec (Z.of_nat n - Z.of_nat k) j); [lia|].
        now rewrite andb_false_r.
    + assert (Eold :
        (Z.of_nat n - Z.of_nat (S k) <=? j) && (j <? Z.of_nat n)
        = (Z.of_nat n - Z.of_nat k <=? j) && (j <? Z.of_nat n)).
      { destruct (Z.leb_spec (Z.of_nat n - Z.of_nat (S k)) j),
                 (Z.leb_spec (Z.of_nat n - Z.of_nat k) j),
                 (Z.ltb_spec j (Z.of_nat n)); cbn; try reflexivity; lia. }
      rewrite Eold, <- IH.
      destruct (Z.testbit x (Z.of_nat k)); [|reflexivity].
      rewrite Z.lor_spec, Z.shiftl_1_l, Z.pow2_bits_eqb by lia.
      replace (Z.of_nat (n - 1 - k) =? j) with false
        by (symmetry; apply Z.eqb_neq; lia).
      now rewrite orb_false_r.
Qed.

Lemma reflect_testbit (n : nat) (x j : Z) :
  0 <= j ->
  Z.testbit (crc_32_type.reflect n x) j
  = (j <? Z.of_nat n) && Z.testbit x (Z.of_nat n - 1 - j).
Proof.
  intros Hj. unfold crc_32_type.reflect.
  rewrite reflect_rounds by lia.
  replace (Z.of_nat n - Z.of_nat n <=? j) with true
    by (symmetry; apply Z.leb_le; lia).
  reflexivity.
Qed.

Lemma reflect_range (n : nat) (x : Z) :
  0 <= crc_32_type.reflect n x < 2 ^ Z.of_nat n.
Proof.
  apply bits_small; [lia|]. intros j Hj Hn. rewrite reflect_testbit by exact Hj.
  destruct (Z.ltb_spec j (Z.of_nat n)); [lia | reflexivity].
Qed.

Lemma reflect_involutive (n : nat) (x : Z) :
  0 <= x < 2 ^ Z.of_nat n ->
  crc_32_type.reflect n (crc_32_type.reflect n x) = x.
Proof.
  intros Hx. apply Z.bits_inj'. intros j Hj.
  rewrite reflect_testbit by exact Hj.
  destruct (Z.ltb_spec j (Z.of_nat n)) as [Hlt|Hge].
  - rewrite reflect_testbit by lia.
    replace (Z.of_nat n - 1 - j <? Z.of_nat n) with true
      by (symmetry; apply Z.ltb_lt; lia).
    cbn [andb]. f_equal. lia.
  - cbn [andb]. symmetry. apply (small_bits (Z.of_nat n)); lia.
Qed.

Lemma shift_bit_range (rem : Z) :
  0 <= rem < 2 ^ 32 -> 0 <= crc_32_type.shift_bit rem < 2 ^ 32.
Proof.
  intros H. unfold crc_32_type.shift_bit.
  assert (S : 0 <= Z.shiftr rem 1 < 2 ^ 32).
  { rewrite Z.shiftr_div_pow2 by lia. change (2 ^ 1) with 2.
    change (2 ^ 32) with 4294967296 in *. split.
    - apply Z.div_pos; lia.
    - apply Z.div_lt_upper_bound; lia. }
  destruct (Z.odd rem); [|exact S].
  apply lxor_small; [lia | exact S|].
  apply (reflect_range 32).
Qed.

Lemma iter_shift_bit_range (k : nat) (rem : Z) :
  0 <= rem < 2 ^ 32 -> 0 <= Nat.iter k crc_32_type.shift_bit rem < 2 ^ 32.
Proof.
  intros H. induction k as [|k IH]; [exact H|].
  cbn [Nat.iter nat_rect]. apply shift_bit_range. exact IH.
Qed.

Lemma process_bytes_range (buffer : list byte) :
  forall rem, 0 <= rem < 2 ^ 32 ->
  0 <= crc_32_type.process_bytes rem buffer < 2 ^ 32.
Proof.
  unfold crc_32_type.process_bytes.
  induction buffer as [|b t IH]; intros rem H; [exact H|].
  cbn [fold_left]. apply IH. unfold crc_32_type.process_byte.
  apply iter_shift_bit_range. apply lxor_small; [lia | exact H|].
  pose proof (byte.unsigned_range b). change (2 ^ 32) with 4294967296. lia.
Qed.

Lemma process_bytes_app (rem : Z) (x y : list byte) :
  crc_32_type.process_bytes rem (x ++ y)
  = crc_32_type.process_bytes (crc_32_type.process_bytes rem x) y.
Proof. unfold crc_32_type.process_bytes. apply fold_left_app. Qed.

Lemma init_range (seed : Z) : 0 <= crc_32_type.init seed < 2 ^ 32.
Proof. unfold crc_32_type.init. apply (reflect_range 32). Qed.

Lemma init_reflect (rem : Z) :
  0 <= rem < 2 ^ 32 -> crc_32_type.init (crc_32_type.reflect 32 rem) = rem.
Proof.
  intros H. unfold crc_32_type.init.
  rewrite wrapU_small by apply (reflect_range 32).
  apply (reflect_involutive 32). exact H.
Qed.

Lemma checksum_range (rem : Z) :
  0 <= rem < 2 ^ 32 -> 0 <= crc_32_type.checksum rem < 2 ^ 32.
Proof.
  intros H. unfold crc_32_type.checksum. apply lxor_small; [lia | exact H|].
  unfold crc_32_type.final_xor_value. change (2 ^ 32) with 4294967296. lia.
Qed.

(** Un-finalising a checksum gives back the remainder register, for any two
    buffers. *)
Lemma unfinalised_chain (seed : Z) (x y : list byte) :
  crc_32_type.checksum
    (crc_32_type.process_bytes
       (crc_32_type.init
          (crc_32_type.reflect 32
             (Z.lxor
                (crc_32_type.checksum
                   (crc_32_type.process_bytes (crc_32_type.init seed) x))
                crc_32_type.final_xor_value)))
       y)
  = crc_32_type.checksum
      (crc_32_type.process_bytes (crc_32_type.init seed) (x ++ y)).
Proof.
  rewrite process_bytes_app.
  generalize (process_bytes_range x (crc_32_type.init seed) (init_range seed)).
  generalize (crc_32_type.process_bytes (crc_32_type.init seed) x).
  intros r1 Hr1. unfold crc_32_type.checksum at 2.
  rewrite Z.lxor_assoc, Z.lxor_nilpotent, Z.lxor_0_r.
  rewrite init_reflect by exact Hr1. reflexivity.
Qed.

(** X23.  Chaining that does work: when the checksum returned by one call is
    first un-finalised (combined again with the final XOR value and
    bit-reflected, which gives back the remainder register) and then passed
    as the accumulator of the next call, the two calls compute the
    whole-buffer CRC-32 of the two values; every checksum is a 32-bit
    value. *)
Theorem Crc32_apply_unfinalised_chain (seed a b : Z) :
  Crc32_apply
    (crc_32_type.reflect 32
       (Z.lxor (Crc32_apply seed a) crc_32_type.final_xor_value)) b
  = crc32_over_whole_buffer seed (le_split 8 a ++ le_split 8 b) /\
  0 <= Crc32_apply seed a < 2 ^ 32.
Proof.
  unfold Crc32_apply, crc32_over_whole_buffer. cbv zeta.
  generalize (le_split 8 a), (le_split 8 b). intros x y. split.
  - apply unfinalised_chain.
  - apply checksum_range, process_bytes_range, init_range.
Qed.
